(** * telegram-search: the embedding backfill, the similarity search and the
    conflict-free inserts of the message store

    Shallow embedding of
    - [embed] (the backfill command that imports [db] from [../db]),
    - [createMessage], [findSimilarMessages], [updateChat], [updateFolder]
      of [packages/core/src/db/index.ts],
    - the earlier copy of the db module ([createMessage] and
      [findSimilarMessages] without conflict handling and filters), in
      [Module Legacy].

    The relational store, the ORM and the embedding provider are external to
    the sources; they are modelled by their documented behaviour:
    a table is the list of its rows in physical order, a query without
    ORDER BY scans it in that order, and whatever can fail (provider call,
    row update, fetch) is decided by an oracle of the environment. *)

From stdpp Require Import base list gmap strings sorting.
From Stdlib Require Import ZArith QArith Lia.

Local Open Scope Z_scope.
Local Open Scope nat_scope.

(** ** JavaScript strings and [String.prototype.trim] *)

(** A JS string is a sequence of UTF-16 code units. *)
Definition jsstring := list N.

(** Code unit of an ASCII character, to write literals. *)
Definition js (s : string) : jsstring :=
  map (fun a => N.of_nat (Ascii.nat_of_ascii a)) (String.list_ascii_of_string s).

(** ECMAScript WhiteSpace and LineTerminator code points, the set that
    [trim] strips. *)
Definition isWhiteSpace (c : N) : bool :=
  ((9 <=? c) && (c <=? 13) || (c =? 32) || (c =? 160) || (c =? 5760)
   || (8192 <=? c) && (c <=? 8202) || (c =? 8232) || (c =? 8233)
   || (c =? 8239) || (c =? 8287) || (c =? 12288) || (c =? 65279))%N.

Fixpoint trimStart (s : jsstring) : jsstring :=
  match s with
  | [] => []
  | c :: s' => if isWhiteSpace c then trimStart s' else s
  end.

Definition trimEnd (s : jsstring) : jsstring := rev (trimStart (rev s)).

Definition trim (s : jsstring) : jsstring := trimEnd (trimStart s).

(** ** Rows of the [messages] table *)

(** [number[]]: the embedding vector. *)
Definition Vec := list Q.

(** JSON of the media description; an object, hence always truthy. *)
Definition MediaInfo := string.

Record Message := mkMessage {
  msg_id : Z;
  msg_chatId : Z;
  msg_type : string;
  msg_content : option jsstring;
  msg_embedding : option Vec;
  msg_mediaInfo : option MediaInfo;
  msg_createdAt : Z;
  msg_fromId : option Z;
  msg_replyToId : option Z;
  msg_forwardFromChatId : option Z;
  msg_forwardFromMessageId : option Z;
  msg_views : option Z;
  msg_forwards : option Z
}.

(** [.set({ embedding: v })] on one row. *)
Definition set_embedding (v : Vec) (m : Message) : Message :=
  {| msg_id := msg_id m;
     msg_chatId := msg_chatId m;
     msg_type := msg_type m;
     msg_content := msg_content m;
     msg_embedding := Some v;
     msg_mediaInfo := msg_mediaInfo m;
     msg_createdAt := msg_createdAt m;
     msg_fromId := msg_fromId m;
     msg_replyToId := msg_replyToId m;
     msg_forwardFromChatId := msg_forwardFromChatId m;
     msg_forwardFromMessageId := msg_forwardFromMessageId m;
     msg_views := msg_views m;
     msg_forwards := msg_forwards m |}.

(** The table, rows in physical order. *)
Definition Store := list Message.

(** JS truthiness of an optional number ([undefined], [0] and [NaN] are
    falsy; [NaN] is only ever tested for truthiness here and is represented
    by [0]). *)
Definition truthy_num (o : option Z) : bool :=
  match o with
  | Some z => negb (z =? 0)%Z
  | None => false
  end.

Definition truthy_str (o : option string) : bool :=
  match o with
  | Some s => negb (String.eqb s "")
  | None => false
  end.

(** ** The backfill command [embed] *)

Record EmbedOptions := mkEmbedOptions {
  batchSize : option nat;
  chatId : option Z
}.

(** What commander returns: [Number(opts.batchSize)] (default ['100']) and
    [opts.chatId ? Number(opts.chatId) : undefined]. *)
Record CliOpts := mkCliOpts {
  cli_batchSize : nat;
  cli_chatId : option Z
}.

(** One row as the batch query selects it: [{ id, content }]. *)
Record BatchRow := mkBatchRow {
  b_id : Z;
  b_content : option jsstring
}.

(** [conditions = [isNull(embedding)]], plus [eq(chatId, options.chatId)]
    when [options.chatId] is truthy. *)
Definition eligible (scope : option Z) (m : Message) : bool :=
  match msg_embedding m with
  | Some _ => false
  | None =>
      if truthy_num scope
      then match scope with Some c => (msg_chatId m =? c)%Z | None => true end
      else true
  end.

Definition countEligible (scope : option Z) (db : Store) : nat :=
  length (List.filter (eligible scope) db).

Definition fetchBatch (scope : option Z) (limit : nat) (db : Store)
  : list BatchRow :=
  map (fun m => mkBatchRow (msg_id m) (msg_content m))
      (take limit (List.filter (eligible scope) db)).

(** [msg.content && msg.content.trim().length > 0] *)
Definition validContent (r : BatchRow) : bool :=
  match b_content r with
  | Some s => negb (Nat.eqb (length s) 0) && negb (Nat.eqb (length (trim s)) 0)
  | None => false
  end.

(** [msg.content!.trim()] on a row that passed the filter. *)
Definition contentText (r : BatchRow) : jsstring :=
  match b_content r with
  | Some s => trim s
  | None => []
  end.

(** [db.update(messages).set({ embedding: v }).where(eq(messages.id, id))] *)
Definition updateEmbedding (id : Z) (v : Vec) (db : Store) : Store :=
  map (fun m => if (msg_id m =? id)%Z then set_embedding v m else m) db.

(** *** Environment

    Everything the command awaits from outside.  Calls are indexed by the
    iteration of the loop in which they happen (and updates also by their
    index in the batch), so that an outage may be transient. *)
Record Env := mkEnv {
  (** the count query succeeds *)
  count_ok : bool;
  (** the batch query of iteration [it] succeeds *)
  fetch_ok : nat -> bool;
  (** [embedding.generateEmbeddings(texts)] in iteration [it];
      [None] when the call throws *)
  generateEmbeddings : nat -> list jsstring -> option (list Vec);
  (** the update statement number [idx] of iteration [it] succeeds *)
  update_ok : nat -> nat -> bool
}.

Inductive Caught := ProviderError | NoValuesToSet | UpdateError.

Inductive LogEvent :=
| LogFound (count : nat)
| WarnNoValidContent
| DebugProgress (processed count skipped : nat)
| WarnBatchFailed (e : Caught) (n : nat)
| LogDone (processed failed : nat).

(** What one iteration did with the batch it fetched. *)
Inductive IterOutcome :=
| EmptyFetch
| AllSkipped
| Embedded (texts : list jsstring) (updates : list (Z * Vec))
| ProviderThrew (texts : list jsstring)
| SetThrew (texts : list jsstring)
| UpdateThrew (texts : list jsstring) (updates : list (Z * Vec)).

Record Iter := mkIter {
  it_batch : list BatchRow;
  it_outcome : IterOutcome
}.

(** The variables of the loop ([processed], [failed]), the table, and the
    history of the run (newest first), which the code does not keep. *)
Record LoopState := mkLoopState {
  st_db : Store;
  processed : nat;
  failed : nat;
  st_trace : list Iter;
  st_log : list LogEvent
}.

(** [validBatch.map((msg, idx) => db.update(messages)
      .set({ embedding: embeddings[idx] }).where(eq(messages.id, msg.id)))]:
    the statements are built one after the other before any of them runs;
    [set] refuses an object whose only value is [undefined]
    ("No values to set"), so a missing [embeddings[idx]] throws here. *)
Fixpoint buildUpdates (idx : nat) (validBatch : list BatchRow)
    (embeddings : list Vec) : option (list (Z * Vec)) :=
  match validBatch with
  | [] => Some []
  | msg :: rest =>
      match embeddings !! idx with
      | None => None
      | Some v =>
          match buildUpdates (S idx) rest embeddings with
          | None => None
          | Some us => Some ((b_id msg, v) :: us)
          end
      end
  end.

(** [await Promise.all(...)]: every statement is sent (the pool has one
    connection, so in order); the ones that succeed take effect, and the
    await rejects when one of them failed. *)
Fixpoint runUpdates (E : Env) (it idx : nat) (us : list (Z * Vec))
    (db : Store) : Store * bool :=
  match us with
  | [] => (db, true)
  | (id, v) :: rest =>
      if update_ok E it idx
      then runUpdates E it (S idx) rest (updateEmbedding id v db)
      else (fst (runUpdates E it (S idx) rest db), false)
  end.

Inductive BodyResult :=
| Break (st : LoopState)
| Continue (st : LoopState)
| Throw (st : LoopState).

(** The [catch] of the inner [try]. *)
Definition caught (e : Caught) (batch : list BatchRow) (o : IterOutcome)
    (db : Store) (st : LoopState) : LoopState :=
  {| st_db := db;
     processed := processed st + length batch;
     failed := failed st + length batch;
     st_trace := mkIter batch o :: st_trace st;
     st_log := WarnBatchFailed e (length batch) :: st_log st |}.

(** The body of [while (processed < count)]. *)
Definition loopBody (E : Env) (scope : option Z) (bs count : nat)
    (st : LoopState) : BodyResult :=
  let it := length (st_trace st) in
  if negb (fetch_ok E it) then Throw st else
  let batch := fetchBatch scope bs (st_db st) in
  if length batch =? 0 then
    Break {| st_db := st_db st; processed := processed st;
             failed := failed st;
             st_trace := mkIter batch EmptyFetch :: st_trace st;
             st_log := st_log st |}
  else
    let validBatch := List.filter validContent batch in
    if length validBatch =? 0 then
      Continue {| st_db := st_db st;
                  processed := processed st + length batch;
                  failed := failed st + length batch;
                  st_trace := mkIter batch AllSkipped :: st_trace st;
                  st_log := WarnNoValidContent :: st_log st |}
    else
      let texts := map contentText validBatch in
      match generateEmbeddings E it texts with
      | None =>
          Continue (caught ProviderError batch (ProviderThrew texts)
                           (st_db st) st)
      | Some embeddings =>
          match buildUpdates 0 validBatch embeddings with
          | None =>
              Continue (caught NoValuesToSet batch (SetThrew texts)
                               (st_db st) st)
          | Some us =>
              let r := runUpdates E it 0 us (st_db st) in
              if snd r then
                let skipped := length batch - length validBatch in
                Continue {| st_db := fst r;
                            processed := processed st + length batch;
                            failed := failed st + skipped;
                            st_trace :=
                              mkIter batch (Embedded texts us) :: st_trace st;
                            st_log :=
                              DebugProgress (processed st + length batch)
                                count skipped :: st_log st |}
              else
                Continue (caught UpdateError batch (UpdateThrew texts us)
                                 (fst r) st)
          end
      end.

Inductive LoopResult :=
| Finished (st : LoopState)
| Thrown (st : LoopState).

(** [while (processed < count) { ... }]; [None] when the fuel runs out
    (which [whileLoop_total] excludes for the fuel [embed] gives). *)
Fixpoint whileLoop (fuel : nat) (E : Env) (scope : option Z) (bs count : nat)
    (st : LoopState) : option LoopResult :=
  if processed st <? count then
    match fuel with
    | 0 => None
    | S fuel' =>
        match loopBody E scope bs count st with
        | Break st' => Some (Finished st')
        | Continue st' => whileLoop fuel' E scope bs count st'
        | Throw st' => Some (Thrown st')
        end
    end
  else Some (Finished st).

Definition truthy_nat (o : option nat) : bool :=
  match o with
  | Some n => negb (n =? 0)
  | None => false
  end.

(** [if (!options.batchSize) { ...parse the command line... }]: both
    fields are then overwritten. *)
Definition resolveOptions (cli : CliOpts) (options : EmbedOptions)
  : EmbedOptions :=
  if truthy_nat (batchSize options) then options
  else {| batchSize := Some (cli_batchSize cli);
          chatId := cli_chatId cli |}.

(** [options.batchSize || 100] *)
Definition effectiveBatchSize (options : EmbedOptions) : nat :=
  match batchSize options with
  | Some n => if n =? 0 then 100 else n
  | None => 100
  end.

Inductive Outcome :=
| NothingToDo                  (* [count === 0]: log and return *)
| Completed (st : LoopState)   (* the loop ended, final log line written *)
| Exit1 (st : option LoopState)  (* outer [catch]: [process.exit(1)] *).

Definition initState (db : Store) (count : nat) : LoopState :=
  {| st_db := db; processed := 0; failed := 0; st_trace := [];
     st_log := [LogFound count] |}.

(** The last line of the [try]: the summary is logged. *)
Definition finish (st : LoopState) : LoopState :=
  {| st_db := st_db st; processed := processed st; failed := failed st;
     st_trace := st_trace st;
     st_log := LogDone (processed st) (failed st) :: st_log st |}.

Definition embed (E : Env) (cli : CliOpts) (options : EmbedOptions)
    (db : Store) : option Outcome :=
  let options := resolveOptions cli options in
  let bs := effectiveBatchSize options in
  let scope := chatId options in
  if negb (count_ok E) then Some (Exit1 None) else
  let count := countEligible scope db in
  if count =? 0 then Some NothingToDo else
  match whileLoop count E scope bs count (initState db count) with
  | None => None
  | Some (Finished st) => Some (Completed (finish st))
  | Some (Thrown st) => Some (Exit1 (Some st))
  end.

(** *** Quantities read off the history *)

(** Sizes of the fetched batches, in the order of the run. *)
Definition fetchSizes (st : LoopState) : list nat :=
  rev (map (fun i => length (it_batch i)) (st_trace st)).

(** Update statements that were sent to the store. *)
Definition issuedIn (i : Iter) : nat :=
  match it_outcome i with
  | Embedded _ us | UpdateThrew _ us => length us
  | _ => 0
  end.

Definition issued (st : LoopState) : nat :=
  sum_list (map issuedIn (st_trace st)).

(** Rows written by a batch that completed (its [await] did not throw). *)
Definition succeededIn (i : Iter) : nat :=
  match it_outcome i with
  | Embedded _ us => length us
  | _ => 0
  end.

Definition succeeded (st : LoopState) : nat :=
  sum_list (map succeededIn (st_trace st)).

(** Texts handed to the provider in an iteration that called it. *)
Definition sentIn (i : Iter) : option (list jsstring) :=
  match it_outcome i with
  | Embedded t _ | ProviderThrew t | SetThrew t | UpdateThrew t _ => Some t
  | _ => None
  end.

Definition isCaught (i : Iter) : bool :=
  match it_outcome i with
  | ProviderThrew _ | SetThrew _ | UpdateThrew _ _ => true
  | _ => false
  end.

(** ** The db module: inserts *)

Inductive DbError :=
| UniqueViolation     (* duplicate key value violates unique constraint *)
| NotNullViolation    (* the key column is missing *)
| NoValues            (* [values([])] *)
| NoValuesInSet       (* [set] of an object without a defined value *)
| InsertRejected      (* any other error of an INSERT: the store refuses it *).

Inductive DbResult (A : Type) :=
| DbOk (a : A)
| DbErr (e : DbError).
Arguments DbOk {A} a.
Arguments DbErr {A} e.

(** [NewMessage]: what the caller passes; optional fields may be absent. *)
Record NewMessage := mkNewMessage {
  nm_id : Z;
  nm_chatId : Z;
  nm_type : option string;
  nm_content : option jsstring;
  nm_mediaInfo : option MediaInfo;
  nm_createdAt : Z;
  nm_fromId : option Z;
  nm_replyToId : option Z;
  nm_forwardFromChatId : option Z;
  nm_forwardFromMessageId : option Z;
  nm_views : option Z;
  nm_forwards : option Z
}.

(** [x || null] on an optional number: [0] becomes [null] too. *)
Definition orNullNum (o : option Z) : option Z :=
  if truthy_num o then o else None.

(** [msg.content || null]: the empty string becomes [null]. *)
Definition orNullStr (o : option jsstring) : option jsstring :=
  match o with
  | Some (_ :: _) => o
  | _ => None
  end.

(** The row [createMessage] writes for one message; no embedding yet. *)
Definition toRow (msg : NewMessage) : Message :=
  {| msg_id := nm_id msg;
     msg_chatId := nm_chatId msg;
     msg_type := match nm_type msg with
                 | Some t => if String.eqb t "" then "text" else t
                 | None => "text"
                 end;
     msg_content := orNullStr (nm_content msg);
     msg_embedding := None;
     msg_mediaInfo := nm_mediaInfo msg;
     msg_createdAt := nm_createdAt msg;
     msg_fromId := orNullNum (nm_fromId msg);
     msg_replyToId := orNullNum (nm_replyToId msg);
     msg_forwardFromChatId := orNullNum (nm_forwardFromChatId msg);
     msg_forwardFromMessageId := orNullNum (nm_forwardFromMessageId msg);
     msg_views := orNullNum (nm_views msg);
     msg_forwards := orNullNum (nm_forwards msg) |}.

(** [Array.isArray(data) ? data : [data]] *)
Definition messageArray (data : NewMessage + list NewMessage)
  : list NewMessage :=
  match data with
  | inl m => [m]
  | inr l => l
  end.

(** One row of an INSERT statement into [messages].  [conflicts new old]
    says that the two rows collide on a unique constraint of the table (the
    schema is not part of the sources).  [acc] is the table and the rows
    RETURNING has collected so far. *)
Definition insertRow (conflicts : Message -> Message -> bool)
    (onConflictDoNothing : bool) (r : Message) (acc : Store * list Message)
  : DbResult (Store * list Message) :=
  if existsb (conflicts r) (fst acc) then
    if onConflictDoNothing then DbOk acc else DbErr UniqueViolation
  else DbOk (fst acc ++ [r], snd acc ++ [r]).

Fixpoint insertRows (conflicts : Message -> Message -> bool)
    (onConflictDoNothing : bool) (rows : list Message)
    (acc : Store * list Message) : DbResult (Store * list Message) :=
  match rows with
  | [] => DbOk acc
  | r :: rest =>
      match insertRow conflicts onConflictDoNothing r acc with
      | DbOk acc' => insertRows conflicts onConflictDoNothing rest acc'
      | DbErr e => DbErr e
      end
  end.

(** [db.insert(messages).values(rows)...returning()]: the new table and the
    inserted rows, or the error the statement raises (the table is then
    unchanged).  [values([])] throws before the statement is sent.
    [insert_ok] says whether the store accepts the statement once it is
    sent (the connection holds, no constraint other than the unique key
    [conflicts] stands for is violated); it does not when [insert_ok] is
    [false], and the statement raises. *)
Definition insertMessages (insert_ok : bool)
    (conflicts : Message -> Message -> bool)
    (onConflictDoNothing : bool) (rows : list Message) (tbl : Store)
  : DbResult (Store * list Message) :=
  match rows with
  | [] => DbErr NoValues
  | _ =>
      if insert_ok then insertRows conflicts onConflictDoNothing rows (tbl, [])
      else DbErr InsertRejected
  end.

(** [createMessage]: the [catch] logs and rethrows, so an error of the
    statement is the error of the call. *)
Definition createMessage (insert_ok : bool)
    (conflicts : Message -> Message -> bool)
    (data : NewMessage + list NewMessage) (tbl : Store)
  : DbResult (Store * list Message) :=
  insertMessages insert_ok conflicts true (map toRow (messageArray data)) tbl.

(** Modelled from the spec: the unique key of [messages], whose schema is
    not part of the sources, when inserts are "keyed by id". *)
Definition sameId (a b : Message) : bool := (msg_id a =? msg_id b)%Z.

(** Modelled from the spec: the unique key of [messages] when "the
    (id, chatId) pair is unique", as the data model has it. *)
Definition sameIdAndChat (a b : Message) : bool :=
  (msg_id a =? msg_id b)%Z && (msg_chatId a =? msg_chatId b)%Z.

(** ** The db module: chats and folders *)

(** A value of a column or of a property of a JS object. *)
Inductive Value :=
| VNull
| VNum (n : Z)
| VStr (s : string).

(** A row of [chats] or [folders], and the object [data] passed to
    [updateChat] / [updateFolder]: column name to value.  A property that
    is absent from [data] is [undefined]. *)
Abbreviation Row := (gmap string Value).

(** The table, by its key [id]. *)
Abbreviation Table := (gmap Z Row).

(** Columns named in the [set] of [updateChat] and of [updateFolder]. *)
Definition chatSetColumns : list string :=
  ["name"; "type"; "lastMessage"; "lastMessageDate"; "lastSyncTime";
   "messageCount"; "folderId"]%string.

Definition folderSetColumns : list string :=
  ["title"; "emoji"; "lastSyncTime"]%string.

(** [set: { c: data.c, ... }] over the columns [cols]: properties whose
    value is [undefined] are left out of the SET clause. *)
Definition setClause (cols : list string) (data : Row) : Row :=
  filter (fun kv => kv.1 ∈ cols) data.

(** [db.insert(t).values(data)
       .onConflictDoUpdate({ target: t.id, set: {...} }).returning()].
    [defaults] are the column defaults of the schema, used for the
    columns [data] leaves out when the row is new.  The id, the conflict
    target, is taken to be the only unique key of the table. *)
Definition upsert (defaults : Row) (cols : list string) (data : Row)
    (tbl : Table) : DbResult (Table * list Row) :=
  if decide (setClause cols data = ∅) then DbErr NoValuesInSet else
  match data !! "id"%string with
  | Some (VNum id) =>
      match tbl !! id with
      | None =>
          let r := data ∪ defaults in
          DbOk (<[id := r]> tbl, [r])
      | Some old =>
          let r := setClause cols data ∪ old in
          DbOk (<[id := r]> tbl, [r])
      end
  | _ => DbErr NotNullViolation
  end.

Definition updateChat (defaults : Row) (data : Row) (chats : Table)
  : DbResult (Table * list Row) :=
  upsert defaults chatSetColumns data chats.

Definition updateFolder (defaults : Row) (data : Row) (folders : Table)
  : DbResult (Table * list Row) :=
  upsert defaults folderSetColumns data folders.

(** ** The db module: similarity search *)

Record SearchOptions := mkSearchOptions {
  so_chatId : option Z;
  so_type : option string;
  so_startTime : option Z;
  so_endTime : option Z;
  so_limit : option nat;
  so_offset : option nat
}.

(** The columns the query selects. *)
Record SimilarRow := mkSimilarRow {
  sr_id : Z;
  sr_chatId : Z;
  sr_type : string;
  sr_content : option jsstring;
  sr_createdAt : Z;
  sr_fromId : option Z;
  sr_similarity : Q
}.

(** The WHERE clause: one condition per truthy option ([Date] objects are
    always truthy), and [embedding IS NOT NULL]. *)
Definition searchWhere (o : SearchOptions) (m : Message) : bool :=
  (if truthy_num (so_chatId o)
   then match so_chatId o with
        | Some c => (msg_chatId m =? c)%Z
        | None => true
        end
   else true)
  && (if truthy_str (so_type o)
      then match so_type o with
           | Some t => String.eqb (msg_type m) t
           | None => true
           end
      else true)
  && match so_startTime o with
     | Some t => (t <? msg_createdAt m)%Z
     | None => true
     end
  && match so_endTime o with
     | Some t => (msg_createdAt m <? t)%Z
     | None => true
     end
  && match msg_embedding m with
     | Some _ => true
     | None => false
     end.

(** [1 - (embedding <=> query)], the cosine similarity; [distance] is
    the operator [<=>] of the vector extension, its cosine distance.  NULL
    for a row without embedding, which the WHERE clause excludes. *)
Definition similarityOf (distance : Vec -> Vec -> Q) (query : Vec)
    (m : Message) : Q :=
  match msg_embedding m with
  | Some e => (1 - distance e query)%Q
  | None => 0%Q
  end.

Definition selectSimilar (distance : Vec -> Vec -> Q) (query : Vec)
    (m : Message) : SimilarRow :=
  {| sr_id := msg_id m; sr_chatId := msg_chatId m; sr_type := msg_type m;
     sr_content := msg_content m; sr_createdAt := msg_createdAt m;
     sr_fromId := msg_fromId m;
     sr_similarity := similarityOf distance query m |}.

(** [ORDER BY similarity DESC]: [a] may stand before [b]. *)
Definition bySimilarityDesc (a b : SimilarRow) : Prop :=
  Qle_bool (sr_similarity b) (sr_similarity a) = true.

#[global] Instance bySimilarityDesc_dec (a b : SimilarRow) :
  Decision (bySimilarityDesc a b).
Proof. unfold bySimilarityDesc. apply _. Defined.

(** [limit = 10, offset = 0] when the option is [undefined]. *)
Definition limitOf (o : SearchOptions) : nat := default 10 (so_limit o).
Definition offsetOf (o : SearchOptions) : nat := default 0 (so_offset o).

Definition findSimilarMessages (distance : Vec -> Vec -> Q) (embedding : Vec)
    (options : SearchOptions) (db : Store) : list SimilarRow :=
  take (limitOf options)
    (drop (offsetOf options)
       (merge_sort bySimilarityDesc
          (map (selectSimilar distance embedding)
               (List.filter (searchWhere options) db)))).

Definition noOptions : SearchOptions :=
  {| so_chatId := None; so_type := None; so_startTime := None;
     so_endTime := None; so_limit := None; so_offset := None |}.

(** ** The earlier copy of the db module *)

Module Legacy.

(** The row of [.values(data)]: the fields of [MessageCreateInput] as they
    are given, NULL for an optional field that is absent, and the default
    of the schema, [defaultType], for an absent type.  The input has no
    [mediaInfo] ([nm_mediaInfo] is not read). *)
Definition rowOf (defaultType : string) (data : NewMessage) : Message :=
  {| msg_id := nm_id data;
     msg_chatId := nm_chatId data;
     msg_type := default defaultType (nm_type data);
     msg_content := nm_content data;
     msg_embedding := None;
     msg_mediaInfo := None;
     msg_createdAt := nm_createdAt data;
     msg_fromId := nm_fromId data;
     msg_replyToId := nm_replyToId data;
     msg_forwardFromChatId := nm_forwardFromChatId data;
     msg_forwardFromMessageId := nm_forwardFromMessageId data;
     msg_views := nm_views data;
     msg_forwards := nm_forwards data |}.

(** [db.insert(messages).values(data).returning()]: no conflict clause;
    the [catch] logs and rethrows. *)
Definition createMessage (insert_ok : bool)
    (conflicts : Message -> Message -> bool)
    (defaultType : string) (data : NewMessage) (tbl : Store)
  : DbResult (Store * list Message) :=
  insertMessages insert_ok conflicts false [rowOf defaultType data] tbl.

(** [ORDER BY embedding <-> query]: ascending distance, and NULL (no
    embedding) after every value. *)
Definition byDistanceAsc (distance : Vec -> Vec -> Q) (query : Vec)
    (a b : Message) : Prop :=
  match msg_embedding a, msg_embedding b with
  | Some ea, Some eb => Qle_bool (distance ea query) (distance eb query) = true
  | Some _, None => True
  | None, Some _ => False
  | None, None => True
  end.

#[global] Instance byDistanceAsc_dec distance query a b :
  Decision (byDistanceAsc distance query a b).
Proof.
  unfold byDistanceAsc.
  destruct (msg_embedding a), (msg_embedding b); apply _.
Defined.

(** [db.select().from(messages).orderBy(...).limit(limit)] with
    [limit = 10] by default; [distance] is the operator [<->]. *)
Definition findSimilarMessages (distance : Vec -> Vec -> Q) (embedding : Vec)
    (limit : option nat) (db : Store) : list Message :=
  take (default 10 limit)
       (merge_sort (byDistanceAsc distance embedding) db).

End Legacy.

(** ** Predicates used to state the properties *)

(** A row the filter of the loop drops: content absent, empty, or made of
    white space only. *)
Definition blank (r : BatchRow) : bool :=
  match b_content r with
  | None => true
  | Some s => forallb isWhiteSpace s
  end.

(** States the loop can be in, from the state [s0] it starts with. *)
Inductive Reachable (E : Env) (scope : option Z) (bs count : nat)
    (s0 : LoopState) : LoopState -> Prop :=
| reach_init : Reachable E scope bs count s0 s0
| reach_continue st st' :
    Reachable E scope bs count s0 st ->
    processed st < count ->
    loopBody E scope bs count st = Continue st' ->
    Reachable E scope bs count s0 st'
| reach_break st st' :
    Reachable E scope bs count s0 st ->
    processed st < count ->
    loopBody E scope bs count st = Break st' ->
    Reachable E scope bs count s0 st'.

(** The message ids [W] contain the id of [m]. *)
Definition written (W : list Z) (m : Message) : bool :=
  existsb (Z.eqb (msg_id m)) W.

Definition eligibleRows (scope : option Z) (db : Store) : list Message :=
  List.filter (eligible scope) db.

(** What [loopBody] did, read off its result. *)
Definition iterSpec (E : Env) (scope : option Z) (bs : nat) (st st' : LoopState)
    (o : IterOutcome) : Prop :=
  let it := length (st_trace st) in
  let batch := fetchBatch scope bs (st_db st) in
  let validBatch := List.filter validContent batch in
  let texts := map contentText validBatch in
  match o with
  | EmptyFetch => False
  | AllSkipped =>
      validBatch = [] /\ st_db st' = st_db st
      /\ failed st' = failed st + length batch
      /\ st_log st' = WarnNoValidContent :: st_log st
  | Embedded t us =>
      t = texts /\ validBatch <> []
      /\ (exists embs, generateEmbeddings E it texts = Some embs
                       /\ buildUpdates 0 validBatch embs = Some us)
      /\ runUpdates E it 0 us (st_db st) = (st_db st', true)
      /\ failed st' = failed st + (length batch - length validBatch)
      /\ exists p c, st_log st'
           = DebugProgress p c (length batch - length validBatch) :: st_log st
  | ProviderThrew t =>
      t = texts /\ validBatch <> []
      /\ generateEmbeddings E it texts = None
      /\ st_db st' = st_db st
      /\ failed st' = failed st + length batch
      /\ st_log st' = WarnBatchFailed ProviderError (length batch) :: st_log st
  | SetThrew t =>
      t = texts /\ validBatch <> []
      /\ (exists embs, generateEmbeddings E it texts = Some embs
                       /\ buildUpdates 0 validBatch embs = None)
      /\ st_db st' = st_db st
      /\ failed st' = failed st + length batch
      /\ st_log st' = WarnBatchFailed NoValuesToSet (length batch) :: st_log st
  | UpdateThrew t us =>
      t = texts /\ validBatch <> []
      /\ (exists embs, generateEmbeddings E it texts = Some embs
                       /\ buildUpdates 0 validBatch embs = Some us)
      /\ runUpdates E it 0 us (st_db st) = (st_db st', false)
      /\ failed st' = failed st + length batch
      /\ st_log st' = WarnBatchFailed UpdateError (length batch) :: st_log st
  end.

Definition endedByBreak (st : LoopState) : Prop :=
  exists tr, st_trace st = mkIter [] EmptyFetch :: tr.

(** No [await Promise.all] of the run rejected. *)
Definition noUpdateThrew (st : LoopState) : Prop :=
  Forall (fun i => match it_outcome i with
                   | UpdateThrew _ _ => False
                   | _ => True
                   end) (st_trace st).

(** [l] lists batch sizes fetched one after the other, [acc] rows having
    been processed before: each batch is fetched while rows remain to be
    processed, is not empty, and is full unless it reaches [count]. *)
Fixpoint fullBatches (bs count acc : nat) (l : list nat) : Prop :=
  match l with
  | [] => True
  | f :: l' =>
      acc < count /\ 0 < f <= bs /\ (f = bs \/ count <= acc + f)
      /\ fullBatches bs count (acc + f) l'
  end.

Definition distinctInv (scope : option Z) (bs count : nat)
    (st : LoopState) : Prop :=
  NoDup (map msg_id (eligibleRows scope (st_db st)))
  /\ count <= length (eligibleRows scope (st_db st)) + processed st
  /\ processed st = sum_list (fetchSizes st)
  /\ fullBatches bs count 0 (fetchSizes st)
  /\ ~ endedByBreak st.

(** Content absent, empty or made of white space only. *)
Definition rowBlank (m : Message) : bool :=
  blank (mkBatchRow (msg_id m) (msg_content m)).

(** Every query and statement succeeds and the provider answers each call
    with one vector per text. *)
Definition noErrors (E : Env) : Prop :=
  count_ok E = true
  /\ (forall it, fetch_ok E it = true)
  /\ (forall it texts, exists embs,
        generateEmbeddings E it texts = Some embs
        /\ length embs = length texts)
  /\ (forall it idx, update_ok E it idx = true).

Definition happyInv (scope : option Z) (count : nat) (st : LoopState)
  : Prop :=
  (forall m, In m (eligibleRows scope (st_db st)) -> rowBlank m = false)
  /\ length (eligibleRows scope (st_db st)) + processed st <= count
  /\ (endedByBreak st -> eligibleRows scope (st_db st) = [])
  /\ Forall (fun i => isCaught i = false /\ it_outcome i <> AllSkipped)
            (st_trace st).

(** [m'] is [m], up to its embedding. *)
Definition sameButEmbedding (m m' : Message) : Prop :=
  msg_id m' = msg_id m /\ msg_chatId m' = msg_chatId m
  /\ msg_type m' = msg_type m /\ msg_content m' = msg_content m
  /\ msg_mediaInfo m' = msg_mediaInfo m /\ msg_createdAt m' = msg_createdAt m
  /\ msg_fromId m' = msg_fromId m /\ msg_replyToId m' = msg_replyToId m
  /\ msg_forwardFromChatId m' = msg_forwardFromChatId m
  /\ msg_forwardFromMessageId m' = msg_forwardFromMessageId m
  /\ msg_views m' = msg_views m /\ msg_forwards m' = msg_forwards m.

(** [data] supplies one of the columns [cols] at least: the property is
    there, with a value or with null. *)
Definition suppliesOneOf (cols : list string) (data : Row) : Prop :=
  exists c v, c ∈ cols /\ data !! c = Some v.


Definition withChatId (c : option Z) (o : SearchOptions) : SearchOptions :=
  {| so_chatId := c; so_type := so_type o; so_startTime := so_startTime o;
     so_endTime := so_endTime o; so_limit := so_limit o;
     so_offset := so_offset o |}.

Definition withType (t : option string) (o : SearchOptions) : SearchOptions :=
  {| so_chatId := so_chatId o; so_type := t; so_startTime := so_startTime o;
     so_endTime := so_endTime o; so_limit := so_limit o;
     so_offset := so_offset o |}.

(** ** Test data *)

Definition row (id chat : Z) (content : option jsstring) (e : option Vec)
  : Message :=
  {| msg_id := id; msg_chatId := chat; msg_type := "text";
     msg_content := content; msg_embedding := e; msg_mediaInfo := None;
     msg_createdAt := 0%Z; msg_fromId := None; msg_replyToId := None;
     msg_forwardFromChatId := None; msg_forwardFromMessageId := None;
     msg_views := None; msg_forwards := None |}.

(** A provider that returns one vector per text and never throws, and a
    store whose statements all succeed. *)
Definition goodEnv : Env :=
  {| count_ok := true;
     fetch_ok := fun _ => true;
     generateEmbeddings := fun _ texts => Some (map (fun _ => [1%Q]) texts);
     update_ok := fun _ _ => true |}.

(** The provider is fine, every update statement fails. *)
Definition updateFailsEnv : Env :=
  {| count_ok := true;
     fetch_ok := fun _ => true;
     generateEmbeddings := fun _ texts => Some (map (fun _ => [1%Q]) texts);
     update_ok := fun _ _ => false |}.

(** The provider throws on every call. *)
Definition providerDownEnv : Env :=
  {| count_ok := true;
     fetch_ok := fun _ => true;
     generateEmbeddings := fun _ _ => None;
     update_ok := fun _ _ => true |}.

Definition noCli : CliOpts := {| cli_batchSize := 100; cli_chatId := None |}.

Definition withBatch (n : nat) : EmbedOptions :=
  {| batchSize := Some n; chatId := None |}.

Definition demoDb : Store :=
  [row 1 1 (Some (js "hi")) None;
   row 2 1 (Some (js "  ")) None;
   row 3 1 (Some (js " yo ")) None].

(** The state after the first iteration on [demoDb] with batches of two. *)
Definition demoState : LoopState :=
  match loopBody goodEnv None 2 3 (initState demoDb 3) with
  | Break st | Continue st | Throw st => st
  end.

Definition oneRowDb : Store := [row 1 1 (Some (js "hi")) None].

Definition finalState (o : option Outcome) : LoopState :=
  match o with
  | Some (Completed st) => st
  | _ => initState [] 0
  end.

Definition blankDb : Store := [row 1 1 (Some (js "  ")) None].

(** 250 rows without content, ids 1 to 250, one chat. *)
Definition blank250 : Store :=
  map (fun i => row (Z.of_nat i) 1 None None) (seq 1 250).

(** 250 rows with content, ids 1 to 250, one chat. *)
Definition valid250 : Store :=
  map (fun i => row (Z.of_nat i) 1 (Some (js "hello")) None) (seq 1 250).

(** Five rows of two chats; the ids 1 and 3 occur in both, row 2 is blank. *)
Definition sharedIdsDb : Store :=
  [row 1 1 (Some (js "a")) None;
   row 2 1 None None;
   row 3 1 (Some (js "c")) None;
   row 1 2 (Some (js "d")) None;
   row 3 2 (Some (js "e")) None].

(** Two chats in which the message id 1 occurs; the second chat is
    outside the scope [Some 1]. *)
Definition twoChatsDb : Store :=
  [row 1 1 (Some (js "a")) None; row 1 2 (Some (js "b")) None;
   row 2 2 (Some (js "c")) None].

(** Rows of two chats with embeddings, and one without. *)
Definition searchDb : Store :=
  [row 1 5 (Some (js "a")) (Some [(1 # 2)%Q]);
   row 2 7 (Some (js "b")) (Some [(1 # 4)%Q]);
   row 3 5 None None].

(** A stand-in for the distance operator: the first component of the
    stored vector. *)
Definition firstComponent (e query : Vec) : Q :=
  match e with
  | x :: _ => x
  | [] => 0%Q
  end.

Definition chatZero : SearchOptions :=
  {| so_chatId := Some 0%Z; so_type := None; so_startTime := None;
     so_endTime := None; so_limit := None; so_offset := None |}.

(** Column defaults, a stored chat and an update of its name. *)
Definition chatDefaults : Row := {[ "messageCount"%string := VNum 0 ]}.

Definition storedChat : Row :=
  {[ "id"%string := VNum 7; "name"%string := VStr "old";
     "messageCount"%string := VNum 3; "createdAt"%string := VNum 100 ]}.

Definition chatData : Row :=
  {[ "id"%string := VNum 7; "name"%string := VStr "new" ]}.

(** ** The db module: reads *)

(** [findMessagesByChatId]:
    [db.select().from(messages).where(eq(messages.chatId, chatId))]. *)
Definition findMessagesByChatId (chatId : Z) (db : Store) : list Message :=
  List.filter (fun m => (msg_chatId m =? chatId)%Z) db.

(** [findMessageById]: [...where(eq(messages.id, id)).limit(1)
    .then(res => res[0])]; [undefined] when no row has the id. *)
Definition findMessageById (id : Z) (db : Store) : option Message :=
  head (take 1 (List.filter (fun m => (msg_id m =? id)%Z) db)).

(** [select({ type, count: count() })...groupBy(type)]: one row per type that
    occurs, with the number of its rows. *)
Definition countByType (rows : list Message) : list (string * nat) :=
  map (fun t => (t, length (List.filter
                              (fun m => String.eqb (msg_type m) t) rows)))
      (remove_dups (map msg_type rows)).

(** What [getChatStats] returns: [{ total, byType }], [byType] being the
    object [Object.fromEntries] builds. *)
Record ChatStats := mkChatStats {
  total : nat;
  byType : gmap string nat
}.

Definition getChatStats (chatId : Z) (db : Store) : ChatStats :=
  let rows := List.filter (fun m => (msg_chatId m =? chatId)%Z) db in
  {| total := length rows;
     byType := list_to_map (countByType rows) |}.

(** The rows of a table of chats or folders, as a scan returns them. *)
Definition tableRows (t : Table) : list Row := (map_to_list t).*2.

(** The timestamp in the column [lastMessageDate]; [None] for NULL. *)
Definition lastMessageDate (r : Row) : option Z :=
  match r !! "lastMessageDate"%string with
  | Some (VNum z) => Some z
  | _ => None
  end.

(** [ORDER BY last_message_date]: ascending, NULL after every value. *)
Definition byLastMessageDate (a b : Row) : Prop :=
  match lastMessageDate a, lastMessageDate b with
  | Some x, Some y => (x <= y)%Z
  | Some _, None => True
  | None, Some _ => False
  | None, None => True
  end.

#[global] Instance byLastMessageDate_dec (a b : Row) :
  Decision (byLastMessageDate a b).
Proof.
  unfold byLastMessageDate.
  destruct (lastMessageDate a), (lastMessageDate b); apply _.
Defined.

(** [getAllChats]: [db.select().from(chats).orderBy(chats.lastMessageDate)] *)
Definition getAllChats (chats : Table) : list Row :=
  merge_sort byLastMessageDate (tableRows chats).

(** [getAllFolders]: [db.select().from(folders)] *)
Definition getAllFolders (folders : Table) : list Row := tableRows folders.

(** [getChatsInFolder]: [...where(eq(chats.folderId, folderId))
    .orderBy(chats.lastMessageDate)] *)
Definition inFolder (folderId : Z) (r : Row) : bool :=
  match r !! "folderId"%string with
  | Some (VNum f) => (f =? folderId)%Z
  | _ => false
  end.

Definition getChatsInFolder (folderId : Z) (chats : Table) : list Row :=
  merge_sort byLastMessageDate
    (List.filter (inFolder folderId) (tableRows chats)).

(** ** The watcher: the message handler of [watchChat] *)

Inductive WatchLog :=
| LogSaved (count : nat)          (* 已保存 count 条新消息 *)
| LogMedia (path : string)        (* 已下载媒体文件 *)
| LogSaveFailed (e : DbError)     (* 保存消息失败 *)
| LogNoDialog                     (* 找不到该对话 *)
| LogNoFolders                    (* 该对话没有文件夹 *)
| LogWatching.

(** The table, the counter [count] of the closure, and the log. *)
Record WatchState := mkWatchState {
  w_db : Store;
  w_count : nat;
  w_log : list WatchLog
}.

(** The object the handler passes to [createMessage]: the fields of the
    message but [mediaInfo], which it does not copy. *)
Definition handlerInput (message : NewMessage) : NewMessage :=
  {| nm_id := nm_id message;
     nm_chatId := nm_chatId message;
     nm_type := nm_type message;
     nm_content := nm_content message;
     nm_mediaInfo := None;
     nm_createdAt := nm_createdAt message;
     nm_fromId := nm_fromId message;
     nm_replyToId := nm_replyToId message;
     nm_forwardFromChatId := nm_forwardFromChatId message;
     nm_forwardFromMessageId := nm_forwardFromMessageId message;
     nm_views := nm_views message;
     nm_forwards := nm_forwards message |}.

(** The callback of [adapter.onMessage]. A [TelegramMessage] has the
    fields of [NewMessage]; [localPath] reads [mediaInfo?.localPath]
    ([None] when it is absent or empty); [insert_ok] is whether the store
    accepts the insert of this message.  An error of [createMessage] goes
    to the [catch]: it is logged, and [count++] is skipped. *)
Definition onMessage (insert_ok : bool)
    (conflicts : Message -> Message -> bool)
    (localPath : MediaInfo -> option string) (chatId : Z)
    (message : NewMessage) (st : WatchState) : WatchState :=
  if negb (nm_chatId message =? chatId)%Z then st else
  match createMessage insert_ok conflicts (inl (handlerInput message))
          (w_db st) with
  | DbOk (db', _) =>
      let count := S (w_count st) in
      {| w_db := db';
         w_count := count;
         w_log :=
           match nm_mediaInfo message ≫= localPath with
           | Some p => [LogMedia p]
           | None => []
           end ++ LogSaved count :: w_log st |}
  | DbErr e =>
      {| w_db := w_db st; w_count := w_count st;
         w_log := LogSaveFailed e :: w_log st |}
  end.

(** The handler runs once for each incoming message, in the order of
    arrival; [insert_ok n] is whether the store accepts the insert made
    for the message that arrives [n]-th. *)
Fixpoint handleAll (insert_ok : nat -> bool)
    (conflicts : Message -> Message -> bool)
    (localPath : MediaInfo -> option string) (chatId : Z) (n : nat)
    (incoming : list NewMessage) (st : WatchState) : WatchState :=
  match incoming with
  | [] => st
  | m :: rest =>
      handleAll insert_ok conflicts localPath chatId (S n) rest
        (onMessage (insert_ok n) conflicts localPath chatId m st)
  end.

(** [watchChat]: the dialog must be among the dialogs the adapter lists
    and have a folder, or nothing is watched; then every incoming message
    goes through the handler. *)
Definition watchChat (insert_ok : nat -> bool)
    (conflicts : Message -> Message -> bool)
    (localPath : MediaInfo -> option string) (dialogs : list Z)
    (folders : list Z) (chatId : Z) (incoming : list NewMessage)
    (db : Store) : WatchState :=
  if negb (existsb (Z.eqb chatId) dialogs) then
    {| w_db := db; w_count := 0; w_log := [LogNoDialog] |}
  else
    match folders with
    | [] => {| w_db := db; w_count := 0; w_log := [LogNoFolders] |}
    | _ =>
        handleAll insert_ok conflicts localPath chatId 0 incoming
          {| w_db := db; w_count := 0; w_log := [LogWatching] |}
    end.

(** The lines of the log that report a message that could not be saved. *)
Definition isSaveFailed (l : WatchLog) : bool :=
  match l with
  | LogSaveFailed _ => true
  | _ => false
  end.

Definition saveFailures (log : list WatchLog) : nat :=
  length (List.filter isSaveFailed log).

(** ** More predicates *)

(** No two rows of the table collide on the unique key. *)
Fixpoint uniqueKeys (conflicts : Message -> Message -> bool)
    (tbl : list Message) : Prop :=
  match tbl with
  | [] => True
  | a :: rest =>
      Forall (fun b => conflicts a b = false /\ conflicts b a = false) rest
      /\ uniqueKeys conflicts rest
  end.

(** What [createMessage] never stores: an embedding, an empty content, an
    empty type, a zero in an optional number. *)
Definition normalizedRow (r : Message) : Prop :=
  msg_embedding r = None
  /\ msg_content r <> Some []
  /\ msg_type r <> ""%string
  /\ msg_fromId r <> Some 0%Z /\ msg_replyToId r <> Some 0%Z
  /\ msg_forwardFromChatId r <> Some 0%Z
  /\ msg_forwardFromMessageId r <> Some 0%Z
  /\ msg_views r <> Some 0%Z /\ msg_forwards r <> Some 0%Z.

(** [db'] has the rows of [db] in the same places, each one with at most
    its embedding changed, and never cleared. *)
Definition sameRowsButEmbeddings (db db' : Store) : Prop :=
  length db' = length db
  /\ forall i m, db !! i = Some m ->
       exists m', db' !! i = Some m'
                  /\ sameButEmbedding m m'
                  /\ (msg_embedding m <> None -> msg_embedding m' <> None).

Definition withLimit (limit offset : nat) (o : SearchOptions)
  : SearchOptions :=
  {| so_chatId := so_chatId o; so_type := so_type o;
     so_startTime := so_startTime o; so_endTime := so_endTime o;
     so_limit := Some limit; so_offset := Some offset |}.

(** Five rows of one chat: two blank rows, then three rows with text. *)
Definition blankFirstDb : Store :=
  [row 1 1 None None;
   row 2 1 (Some (js " ")) None;
   row 3 1 (Some (js "c")) None;
   row 4 1 (Some (js "d")) None;
   row 5 1 (Some (js "e")) None].

(** ** Facts about [trim] *)

Section Trim.

Lemma trimStart_split (s : jsstring) :
  exists pre, s = pre ++ trimStart s /\ forallb isWhiteSpace pre = true.
Proof.
  induction s as [|c s IH]; simpl.
  - exists []. split; reflexivity.
  - destruct (isWhiteSpace c) eqn:Hc.
    + destruct IH as (pre & Hs & Hpre).
      exists (c :: pre). simpl. rewrite Hc, Hpre. split; [congruence | reflexivity].
    + exists []. split; reflexivity.
Qed.

Lemma trimStart_head (s : jsstring) (c : N) :
  head (trimStart s) = Some c -> isWhiteSpace c = false.
Proof.
  induction s as [|d s IH]; simpl; [discriminate|].
  destruct (isWhiteSpace d) eqn:Hd; [exact IH|].
  simpl. intros [= <-]. exact Hd.
Qed.

Lemma trimStart_nil_iff (s : jsstring) :
  trimStart s = [] <-> forallb isWhiteSpace s = true.
Proof.
  induction s as [|c s IH]; simpl; [tauto|].
  destruct (isWhiteSpace c); simpl; [exact IH|].
  split; discriminate.
Qed.

Lemma trimStart_fixed (s : jsstring) :
  (forall c, head s = Some c -> isWhiteSpace c = false) -> trimStart s = s.
Proof.
  destruct s as [|c s]; simpl; [reflexivity|].
  intros H. rewrite (H c eq_refl). reflexivity.
Qed.

Lemma forallb_rev {A} (f : A -> bool) (l : list A) :
  forallb f (rev l) = forallb f l.
Proof.
  induction l as [|a l IH]; simpl; [reflexivity|].
  rewrite forallb_app, IH. simpl. rewrite andb_true_r. apply andb_comm.
Qed.

Lemma last_rev_head {A} (l : list A) : last (rev l) = head l.
Proof.
  destruct l as [|a l]; [reflexivity|]. simpl. apply last_snoc.
Qed.

Lemma trimEnd_split (s : jsstring) :
  exists post, s = trimEnd s ++ post /\ forallb isWhiteSpace post = true.
Proof.
  unfold trimEnd.
  destruct (trimStart_split (rev s)) as (pre & Hs & Hpre).
  exists (rev pre). split.
  - rewrite <- rev_app_distr, <- Hs, rev_involutive. reflexivity.
  - rewrite forallb_rev. exact Hpre.
Qed.

Lemma trimEnd_last (s : jsstring) (c : N) :
  last (trimEnd s) = Some c -> isWhiteSpace c = false.
Proof.
  unfold trimEnd. rewrite last_rev_head. apply trimStart_head.
Qed.

Lemma trimEnd_nil_iff (s : jsstring) :
  trimEnd s = [] <-> forallb isWhiteSpace s = true.
Proof.
  unfold trimEnd. rewrite <- (forallb_rev _ s), <- trimStart_nil_iff.
  split; intros H.
  - apply (f_equal (@rev N)) in H. rewrite rev_involutive in H. exact H.
  - rewrite H. reflexivity.
Qed.

(** White space is only taken from the end: a non-blank first code unit
    stays first. *)
Lemma trimEnd_head (s : jsstring) (c : N) :
  head s = Some c -> isWhiteSpace c = false -> head (trimEnd s) = Some c.
Proof.
  intros Hh Hc.
  destruct (trimEnd_split s) as (post & Hs & Hpost).
  destruct (trimEnd s) as [|d t] eqn:Ht.
  - simpl in Hs. subst post. destruct s as [|e s]; [discriminate|].
    simpl in Hh, Hpost. injection Hh as ->. rewrite Hc in Hpost. discriminate.
  - rewrite Hs in Hh. simpl in Hh. simpl. exact Hh.
Qed.

Lemma trim_nil_iff (s : jsstring) :
  trim s = [] <-> forallb isWhiteSpace s = true.
Proof.
  unfold trim. rewrite trimEnd_nil_iff, <- (trimStart_nil_iff s).
  split; intros H.
  - destruct (trimStart s) as [|c t] eqn:Hs; [reflexivity|].
    pose proof (trimStart_head s c) as Hc. rewrite Hs in Hc.
    simpl in H. rewrite (Hc eq_refl) in H. discriminate.
  - rewrite H. reflexivity.
Qed.

(** [trim s] is [s] without a white prefix and a white suffix, and it
    neither starts nor ends with white space. *)
Lemma trim_spec (s : jsstring) :
  (exists pre post, s = pre ++ trim s ++ post
                    /\ forallb isWhiteSpace pre = true
                    /\ forallb isWhiteSpace post = true)
  /\ (forall c, head (trim s) = Some c -> isWhiteSpace c = false)
  /\ (forall c, last (trim s) = Some c -> isWhiteSpace c = false).
Proof.
  unfold trim. split; [|split].
  - destruct (trimStart_split s) as (pre & Hs & Hpre).
    destruct (trimEnd_split (trimStart s)) as (post & Ht & Hpost).
    exists pre, post. rewrite <- Ht. auto.
  - intros c Hc.
    destruct (trimStart s) as [|d t] eqn:Hs; [discriminate|].
    pose proof (trimStart_head s d) as Hd. rewrite Hs in Hd.
    specialize (Hd eq_refl).
    rewrite (trimEnd_head (d :: t) d eq_refl Hd) in Hc.
    injection Hc as <-. exact Hd.
  - apply trimEnd_last.
Qed.

Lemma trim_idempotent (s : jsstring) : trim (trim s) = trim s.
Proof.
  destruct (trim_spec s) as (_ & Hh & Hl).
  unfold trim at 1. rewrite (trimStart_fixed _ Hh).
  unfold trimEnd. rewrite trimStart_fixed.
  - apply rev_involutive.
  - intros c Hc. apply Hl.
    rewrite <- (rev_involutive (trim s)), last_rev_head. exact Hc.
Qed.

End Trim.

(** The filter of the loop keeps exactly the rows that are not blank. *)
Lemma validContent_blank (r : BatchRow) : validContent r = negb (blank r).
Proof.
  unfold validContent, blank. destruct (b_content r) as [s|]; [|reflexivity].
  destruct (forallb isWhiteSpace s) eqn:Hb.
  - apply trim_nil_iff in Hb. rewrite Hb. simpl. apply andb_false_r.
  - destruct s as [|c s]; [discriminate|].
    destruct (trim (c :: s)) as [|d t] eqn:Ht; [|reflexivity].
    apply trim_nil_iff in Ht. congruence.
Qed.

(** ** One iteration of the loop *)

Lemma buildUpdates_ids (idx : nat) (vb : list BatchRow) (embs : list Vec)
    (us : list (Z * Vec)) :
  buildUpdates idx vb embs = Some us -> map fst us = map b_id vb.
Proof.
  revert idx us. induction vb as [|r vb IH]; simpl; intros idx us H.
  - injection H as <-. reflexivity.
  - destruct (embs !! idx) as [v|]; [|discriminate].
    destruct (buildUpdates (S idx) vb embs) as [us'|] eqn:Hus; [|discriminate].
    injection H as <-. simpl. f_equal. eapply IH, Hus.
Qed.

Lemma buildUpdates_length (idx : nat) (vb : list BatchRow) (embs : list Vec)
    (us : list (Z * Vec)) :
  buildUpdates idx vb embs = Some us -> length us = length vb.
Proof.
  intros H. apply buildUpdates_ids in H.
  rewrite <- (length_map fst us), H. apply length_map.
Qed.

(** With one vector per text, every statement can be built. *)
Lemma buildUpdates_enough (idx : nat) (vb : list BatchRow) (embs : list Vec) :
  idx + length vb <= length embs -> exists us, buildUpdates idx vb embs = Some us.
Proof.
  revert idx. induction vb as [|r vb IH]; simpl; intros idx Hlen.
  - eauto.
  - destruct (lookup_lt_is_Some_2 embs idx) as [v Hv]; [lia|].
    rewrite Hv. destruct (IH (S idx)) as [us Hus]; [lia|].
    rewrite Hus. eauto.
Qed.

Lemma length_zero_nil {A} (l : list A) : (length l =? 0) = true -> l = [].
Proof. destruct l; [reflexivity | discriminate]. Qed.

Lemma length_nonzero_cons {A} (l : list A) : (length l =? 0) = false -> l <> [].
Proof. destruct l; [discriminate | congruence]. Qed.

Lemma loopBody_spec (E : Env) (scope : option Z) (bs count : nat)
    (st : LoopState) :
  let it := length (st_trace st) in
  let batch := fetchBatch scope bs (st_db st) in
  match loopBody E scope bs count st with
  | Throw st' => fetch_ok E it = false /\ st' = st
  | Break st' =>
      fetch_ok E it = true /\ batch = []
      /\ st_db st' = st_db st /\ processed st' = processed st
      /\ failed st' = failed st /\ st_log st' = st_log st
      /\ st_trace st' = mkIter [] EmptyFetch :: st_trace st
  | Continue st' =>
      fetch_ok E it = true /\ batch <> []
      /\ processed st' = processed st + length batch
      /\ exists o, st_trace st' = mkIter batch o :: st_trace st
                   /\ iterSpec E scope bs st st' o
  end.
Proof.
  intros it batch. unfold loopBody. fold it. fold batch.
  destruct (fetch_ok E it) eqn:Hf; simpl; [|auto].
  destruct (length batch =? 0) eqn:Hb.
  { apply length_zero_nil in Hb. simpl. rewrite Hb. auto 10. }
  apply length_nonzero_cons in Hb.
  destruct (length (List.filter validContent batch) =? 0) eqn:Hv.
  { apply length_zero_nil in Hv. simpl.
    do 3 (split; [done|]). exists AllSkipped. split; [done|].
    unfold iterSpec. fold batch. auto. }
  apply length_nonzero_cons in Hv.
  destruct (generateEmbeddings E it _) as [embs|] eqn:Hg.
  2:{ simpl. do 3 (split; [done|]). eexists. split; [reflexivity|].
      unfold iterSpec. fold it. fold batch. simpl. auto 10. }
  destruct (buildUpdates 0 _ embs) as [us|] eqn:Hus.
  2:{ simpl. do 3 (split; [done|]). eexists. split; [reflexivity|].
      unfold iterSpec. fold it. fold batch. simpl. eauto 10. }
  destruct (runUpdates E it 0 us (st_db st)) as [db' ok] eqn:Hr.
  destruct ok; simpl.
  - do 3 (split; [done|]). eexists. split; [reflexivity|].
    unfold iterSpec. fold it. fold batch. simpl. rewrite Hr. eauto 12.
  - do 3 (split; [done|]). eexists. split; [reflexivity|].
    unfold iterSpec. fold it. fold batch. simpl. rewrite Hr. eauto 12.
Qed.

(** The three results, as inversion lemmas. *)
Lemma loopBody_Continue (E : Env) (scope : option Z) (bs count : nat)
    (st st' : LoopState) :
  loopBody E scope bs count st = Continue st' ->
  fetch_ok E (length (st_trace st)) = true
  /\ fetchBatch scope bs (st_db st) <> []
  /\ processed st' = processed st + length (fetchBatch scope bs (st_db st))
  /\ exists o, st_trace st' = mkIter (fetchBatch scope bs (st_db st)) o
                                :: st_trace st
               /\ iterSpec E scope bs st st' o.
Proof.
  intros H. pose proof (loopBody_spec E scope bs count st) as S.
  rewrite H in S. exact S.
Qed.

Lemma loopBody_Break (E : Env) (scope : option Z) (bs count : nat)
    (st st' : LoopState) :
  loopBody E scope bs count st = Break st' ->
  fetchBatch scope bs (st_db st) = []
  /\ st_db st' = st_db st /\ processed st' = processed st
  /\ failed st' = failed st
  /\ st_trace st' = mkIter [] EmptyFetch :: st_trace st.
Proof.
  intros H. pose proof (loopBody_spec E scope bs count st) as S.
  rewrite H in S. simpl in S. destruct S as (_ & ? & ? & ? & ? & _ & ?).
  auto.
Qed.

(** ** The whole loop *)

(** Every iteration that continues fetched at least one row, so [count]
    units of fuel are never used up. *)
Lemma whileLoop_total (fuel : nat) (E : Env) (scope : option Z)
    (bs count : nat) (st : LoopState) :
  count - processed st <= fuel ->
  exists r, whileLoop fuel E scope bs count st = Some r.
Proof.
  revert st. induction fuel as [|fuel IH]; intros st Hfuel; simpl.
  - destruct (Nat.ltb_spec (processed st) count); [lia | eauto].
  - destruct (Nat.ltb_spec (processed st) count); [|eauto].
    destruct (loopBody E scope bs count st) as [st'|st'|st'] eqn:Hb; eauto.
    apply loopBody_Continue in Hb as (_ & Hne & Hp & _).
    apply IH. destruct (fetchBatch scope bs (st_db st)); [done|].
    simpl in Hp. lia.
Qed.

Lemma whileLoop_Finished (fuel : nat) (E : Env) (scope : option Z)
    (bs count : nat) (s0 st st' : LoopState) :
  Reachable E scope bs count s0 st ->
  whileLoop fuel E scope bs count st = Some (Finished st') ->
  Reachable E scope bs count s0 st'
  /\ (count <= processed st' \/ endedByBreak st').
Proof.
  revert st. induction fuel as [|fuel IH]; intros st Hr; simpl.
  - destruct (Nat.ltb_spec (processed st) count); [discriminate|].
    intros [= <-]. auto.
  - destruct (Nat.ltb_spec (processed st) count) as [Hlt|Hge].
    2:{ intros [= <-]. auto. }
    destruct (loopBody E scope bs count st) as [s|s|s] eqn:Hb.
    + intros [= <-]. split; [eapply reach_break; eauto|].
      right. apply loopBody_Break in Hb as (_ & _ & _ & _ & Ht).
      eexists. exact Ht.
    + apply IH. eapply reach_continue; eauto.
    + discriminate.
Qed.

Lemma whileLoop_Thrown (fuel : nat) (E : Env) (scope : option Z)
    (bs count : nat) (s0 st st' : LoopState) :
  Reachable E scope bs count s0 st ->
  whileLoop fuel E scope bs count st = Some (Thrown st') ->
  Reachable E scope bs count s0 st'
  /\ fetch_ok E (length (st_trace st')) = false.
Proof.
  revert st. induction fuel as [|fuel IH]; intros st Hr; simpl.
  - destruct (processed st <? count); discriminate.
  - destruct (Nat.ltb_spec (processed st) count) as [Hlt|Hge]; [|discriminate].
    destruct (loopBody E scope bs count st) as [s|s|s] eqn:Hb.
    + discriminate.
    + apply IH. eapply reach_continue; eauto.
    + intros [= <-]. pose proof (loopBody_spec E scope bs count st) as S.
      rewrite Hb in S. simpl in S. destruct S as (Hf & ->). auto.
Qed.

(** [embed] always returns: the fuel it gives the loop is enough. *)
Lemma embed_total (E : Env) (cli : CliOpts) (options : EmbedOptions)
    (db : Store) :
  exists o, embed E cli options db = Some o.
Proof.
  unfold embed. destruct (count_ok E); simpl; [|eauto].
  destruct (countEligible _ db =? 0); [eauto|].
  edestruct (whileLoop_total (countEligible (chatId (resolveOptions cli options)) db))
    as [r Hr]; [|rewrite Hr; destruct r; eauto].
  simpl. lia.
Qed.

(** A completed run went through the loop and left it by its condition or
    by the [break]. *)
Lemma embed_Completed (E : Env) (cli : CliOpts) (options : EmbedOptions)
    (db : Store) (st' : LoopState) :
  embed E cli options db = Some (Completed st') ->
  let o := resolveOptions cli options in
  let count := countEligible (chatId o) db in
  exists st,
    st' = finish st /\ count <> 0 /\ count_ok E = true
    /\ Reachable E (chatId o) (effectiveBatchSize o) count
                 (initState db count) st
    /\ (count <= processed st \/ endedByBreak st).
Proof.
  intros H. cbv zeta. unfold embed in H.
  set (o := resolveOptions cli options) in *.
  set (count := countEligible (chatId o) db) in *.
  destruct (count_ok E); simpl in H; [|discriminate].
  destruct (Nat.eqb_spec count 0) as [|Hc]; [discriminate|].
  destruct (whileLoop count E _ _ count _) as [[st|st]|] eqn:Hw;
    [|discriminate..].
  injection H as <-. exists st.
  eapply whileLoop_Finished in Hw as (Hr & Hend); [|apply reach_init].
  auto.
Qed.

Lemma embed_NothingToDo (E : Env) (cli : CliOpts) (options : EmbedOptions)
    (db : Store) :
  embed E cli options db = Some NothingToDo <->
  count_ok E = true
  /\ countEligible (chatId (resolveOptions cli options)) db = 0.
Proof.
  unfold embed. destruct (count_ok E); simpl.
  2:{ split; [discriminate | intros [? _]; discriminate]. }
  destruct (Nat.eqb_spec (countEligible (chatId (resolveOptions cli options)) db) 0)
    as [Hc|Hc].
  - tauto.
  - split; [|tauto].
    destruct (whileLoop _ _ _ _ _ _) as [[?|?]|]; discriminate.
Qed.

(** When a fetch failed, the loop had reached the state the run ends in. *)
Lemma embed_Exit1 (E : Env) (cli : CliOpts) (options : EmbedOptions)
    (db : Store) (st : LoopState) :
  embed E cli options db = Some (Exit1 (Some st)) ->
  let o := resolveOptions cli options in
  let count := countEligible (chatId o) db in
  Reachable E (chatId o) (effectiveBatchSize o) count (initState db count) st.
Proof.
  intros H. cbv zeta. unfold embed in H.
  set (o := resolveOptions cli options) in *.
  set (count := countEligible (chatId o) db) in *.
  destruct (count_ok E); simpl in H; [|discriminate].
  destruct (Nat.eqb_spec count 0) as [|Hc]; [discriminate|].
  destruct (whileLoop count E _ _ count _) as [[s|s]|] eqn:Hw;
    try discriminate.
  injection H as <-.
  eapply whileLoop_Thrown in Hw as (Hr & _); [exact Hr | apply reach_init].
Qed.

(** ** The counters *)

Lemma succeeded_cons (st st' : LoopState) (i : Iter) :
  st_trace st' = i :: st_trace st -> succeeded st' = succeededIn i + succeeded st.
Proof. unfold succeeded. intros ->. reflexivity. Qed.

Lemma issued_cons (st st' : LoopState) (i : Iter) :
  st_trace st' = i :: st_trace st -> issued st' = issuedIn i + issued st.
Proof. unfold issued. intros ->. reflexivity. Qed.

Lemma fetchSizes_cons (st st' : LoopState) (i : Iter) :
  st_trace st' = i :: st_trace st ->
  fetchSizes st' = fetchSizes st ++ [length (it_batch i)].
Proof. unfold fetchSizes. intros ->. reflexivity. Qed.

Lemma sum_list_snoc (l : list nat) (n : nat) :
  sum_list (l ++ [n]) = sum_list l + n.
Proof. rewrite sum_list_with_app. simpl. lia. Qed.

(** One step keeps the relations between the counters and the history. *)
Lemma counters_step (E : Env) (scope : option Z) (bs count : nat)
    (st st' : LoopState) :
  loopBody E scope bs count st = Continue st' ->
  succeeded st' + failed st'
    = succeeded st + failed st + length (fetchBatch scope bs (st_db st))
  /\ fetchSizes st' = fetchSizes st ++ [length (fetchBatch scope bs (st_db st))]
  /\ (noUpdateThrew st' ->
      noUpdateThrew st /\ issued st' - issued st = succeeded st' - succeeded st
      /\ issued st <= issued st' /\ succeeded st <= succeeded st').
Proof.
  intros Hb. apply loopBody_Continue in Hb as (_ & _ & Hp & o & Ht & Ho).
  rewrite (succeeded_cons _ _ _ Ht), (issued_cons _ _ _ Ht),
    (fetchSizes_cons _ _ _ Ht).
  unfold noUpdateThrew. rewrite Ht, Forall_cons.
  unfold succeededIn, issuedIn. simpl.
  pose proof (List.filter_length_le validContent
                (fetchBatch scope bs (st_db st))) as Hle.
  destruct o; simpl in Ho; try (exfalso; exact Ho).
  - destruct Ho as (_ & _ & -> & _). repeat split; try tauto; lia.
  - destruct Ho as (_ & _ & (embs & _ & Hus) & _ & -> & _).
    apply buildUpdates_length in Hus. rewrite Hus.
    repeat split; try tauto; lia.
  - destruct Ho as (_ & _ & _ & _ & -> & _). repeat split; try tauto; lia.
  - destruct Ho as (_ & _ & _ & _ & -> & _). repeat split; try tauto; lia.
  - destruct Ho as (_ & _ & _ & _ & -> & _). repeat split; tauto || lia.
Qed.

Lemma counters_reachable (E : Env) (scope : option Z) (bs count : nat)
    (db : Store) (st : LoopState) :
  Reachable E scope bs count (initState db count) st ->
  processed st = failed st + succeeded st
  /\ processed st = sum_list (fetchSizes st)
  /\ (noUpdateThrew st -> issued st = succeeded st).
Proof.
  induction 1 as [|st st' _ IH _ Hb|st st' _ IH _ Hb].
  - repeat split.
  - destruct IH as (IH1 & IH2 & IH3).
    pose proof (counters_step _ _ _ _ _ _ Hb) as (Hs & Hf & Hi).
    apply loopBody_Continue in Hb as (_ & _ & Hp & _).
    rewrite Hf, sum_list_snoc. repeat split; [lia | lia |].
    intros Hn. destruct (Hi Hn) as (Hn' & ? & ? & ?).
    specialize (IH3 Hn'). lia.
  - destruct IH as (IH1 & IH2 & IH3).
    apply loopBody_Break in Hb as (_ & _ & Hp & Hfl & Ht).
    rewrite (succeeded_cons _ _ _ Ht), (issued_cons _ _ _ Ht),
      (fetchSizes_cons _ _ _ Ht), sum_list_snoc, Hp, Hfl.
    unfold noUpdateThrew. rewrite Ht, Forall_cons. simpl.
    repeat split; [lia | lia |]. intros [_ Hn]. exact (IH3 Hn).
Qed.

(** ** How the updates change the set of eligible rows *)

Lemma eligible_set_embedding (scope : option Z) (v : Vec) (m : Message) :
  eligible scope (set_embedding v m) = false.
Proof. reflexivity. Qed.

Lemma filter_ext_in {A} (f g : A -> bool) (l : list A) :
  (forall x, In x l -> f x = g x) -> List.filter f l = List.filter g l.
Proof.
  induction l as [|a l IH]; simpl; intros H; [reflexivity|].
  rewrite (H a) by auto. rewrite IH by auto. reflexivity.
Qed.

Lemma filter_twice {A} (f g : A -> bool) (l : list A) :
  List.filter f (List.filter g l) = List.filter (fun x => g x && f x) l.
Proof.
  induction l as [|a l IH]; simpl; [reflexivity|].
  destruct (g a); simpl; [destruct (f a)|]; rewrite IH; reflexivity.
Qed.

Lemma eligibleRows_updateEmbedding (scope : option Z) (id : Z) (v : Vec)
    (db : Store) :
  eligibleRows scope (updateEmbedding id v db)
  = List.filter (fun m => negb (written [id] m)) (eligibleRows scope db).
Proof.
  unfold eligibleRows, updateEmbedding, written.
  induction db as [|m db IH]; simpl; [reflexivity|].
  destruct (msg_id m =? id)%Z eqn:Hid.
  - rewrite eligible_set_embedding.
    destruct (eligible scope m); simpl; [rewrite Hid; simpl|]; exact IH.
  - destruct (eligible scope m); simpl; [rewrite Hid; simpl|]; rewrite IH;
      reflexivity.
Qed.

Lemma written_cons (id : Z) (W : list Z) (m : Message) :
  written (id :: W) m = written [id] m || written W m.
Proof. unfold written. simpl. rewrite orb_false_r. reflexivity. Qed.

Lemma filter_written_nil (l : list Message) :
  List.filter (fun m => negb (written [] m)) l = l.
Proof.
  induction l as [|m l IH]; [reflexivity|].
  change (m :: List.filter (fun m => negb (written [] m)) l = m :: l).
  rewrite IH. reflexivity.
Qed.

(** The statements that succeeded are some of the ones sent, all of them
    when the [await] did not reject, and the rows they wrote are the ones
    that left the eligible set. *)
Lemma runUpdates_eligible (E : Env) (scope : option Z) (it idx : nat)
    (us : list (Z * Vec)) (db : Store) :
  exists W,
    incl W (map fst us)
    /\ (snd (runUpdates E it idx us db) = true -> W = map fst us)
    /\ eligibleRows scope (fst (runUpdates E it idx us db))
       = List.filter (fun m => negb (written W m)) (eligibleRows scope db).
Proof.
  revert idx db. induction us as [|[id v] us IH]; intros idx db; simpl.
  - exists []. repeat split; [apply incl_refl|].
    symmetry. apply filter_written_nil.
  - destruct (update_ok E it idx).
    + destruct (IH (S idx) (updateEmbedding id v db)) as (W & Hin & Hall & Hel).
      exists (id :: W). split; [|split].
      * intros x [->|Hx]; [left; reflexivity | right; auto].
      * intros Hok. f_equal. auto.
      * rewrite Hel, eligibleRows_updateEmbedding, filter_twice.
        apply filter_ext_in. intros m _. rewrite (written_cons id W m).
        destruct (written [id] m), (written W m); reflexivity.
    + destruct (IH (S idx) db) as (W & Hin & Hall & Hel).
      exists W. simpl. split; [|split].
      * intros x Hx. right. auto.
      * discriminate.
      * exact Hel.
Qed.

Lemma runUpdates_all_ok (E : Env) (it idx : nat) (us : list (Z * Vec))
    (db : Store) :
  (forall i, update_ok E it i = true) -> snd (runUpdates E it idx us db) = true.
Proof.
  intros Hok. revert idx db.
  induction us as [|[id v] us IH]; intros idx db; simpl; [reflexivity|].
  rewrite Hok. apply IH.
Qed.

Lemma fetchBatch_ids (scope : option Z) (bs : nat) (db : Store) :
  map b_id (fetchBatch scope bs db)
  = map msg_id (take bs (eligibleRows scope db)).
Proof. unfold fetchBatch. rewrite map_map. reflexivity. Qed.

Lemma fetchBatch_length (scope : option Z) (bs : nat) (db : Store) :
  length (fetchBatch scope bs db) = Nat.min bs (length (eligibleRows scope db)).
Proof. unfold fetchBatch. rewrite length_map, length_take. reflexivity. Qed.

(** One iteration removes from the eligible set the rows whose id is among
    [W], a subset of the ids of the valid rows of the batch; all of them
    when the iteration completed. *)
Lemma loopBody_eligible (E : Env) (scope : option Z) (bs count : nat)
    (st st' : LoopState) :
  loopBody E scope bs count st = Continue st' ->
  exists W,
    incl W (map b_id (List.filter validContent
                        (fetchBatch scope bs (st_db st))))
    /\ eligibleRows scope (st_db st')
       = List.filter (fun m => negb (written W m))
                     (eligibleRows scope (st_db st))
    /\ (forall t us, head (st_trace st') = Some
          (mkIter (fetchBatch scope bs (st_db st)) (Embedded t us)) ->
        W = map b_id (List.filter validContent
                        (fetchBatch scope bs (st_db st)))).
Proof.
  intros Hb. apply loopBody_Continue in Hb as (_ & _ & _ & o & Ht & Ho).
  assert (Hnone : forall db, db = st_db st ->
            eligibleRows scope db
            = List.filter (fun m => negb (written [] m))
                          (eligibleRows scope (st_db st))).
  { intros db ->. symmetry. apply filter_written_nil. }
  rewrite Ht. simpl.
  destruct o as [| |t us|t|t|t us]; simpl in Ho; try (exfalso; exact Ho).
  - destruct Ho as (_ & Hdb & _). exists []. split; [intros x []|].
    split; [auto | discriminate].
  - destruct Ho as (_ & _ & (embs & _ & Hus) & Hr & _).
    destruct (runUpdates_eligible E scope (length (st_trace st)) 0 us (st_db st))
      as (W & Hin & Hall & Hel).
    rewrite Hr in Hall, Hel. simpl in Hall, Hel.
    apply buildUpdates_ids in Hus. rewrite Hus in Hin, Hall.
    exists W. auto.
  - destruct Ho as (_ & _ & _ & Hdb & _). exists []. split; [intros x []|].
    split; [auto | discriminate].
  - destruct Ho as (_ & _ & _ & Hdb & _). exists []. split; [intros x []|].
    split; [auto | discriminate].
  - destruct Ho as (_ & _ & (embs & _ & Hus) & Hr & _).
    destruct (runUpdates_eligible E scope (length (st_trace st)) 0 us (st_db st))
      as (W & Hin & Hall & Hel).
    rewrite Hr in Hall, Hel. simpl in Hall, Hel.
    apply buildUpdates_ids in Hus. rewrite Hus in Hin.
    exists W. split; [exact Hin|]. split; [exact Hel | discriminate].
Qed.

(** ** Sizes of the fetched batches *)

Lemma fullBatches_snoc (bs count acc f : nat) (l : list nat) :
  fullBatches bs count acc l ->
  acc + sum_list l < count -> 0 < f <= bs ->
  (f = bs \/ count <= acc + sum_list l + f) ->
  fullBatches bs count acc (l ++ [f]).
Proof.
  revert acc. induction l as [|g l IH]; simpl; intros acc Hl Hlt Hf Hfull.
  - rewrite Nat.add_0_r in *. auto.
  - destruct Hl as (? & ? & ? & Hl). repeat split; try tauto; try lia.
    apply IH; [exact Hl | lia | exact Hf |].
    destruct Hfull; [auto | right; lia].
Qed.

(** At most [ceil((count - acc) / bs)] batches. *)
Lemma fullBatches_bound (bs count acc : nat) (l : list nat) :
  fullBatches bs count acc l -> l <> [] ->
  length l * bs < (count - acc) + bs.
Proof.
  revert acc. induction l as [|f l IH]; intros acc Hl Hne; [done|].
  destruct Hl as (Hacc & Hf & Hfull & Hl).
  destruct l as [|g l].
  - simpl. lia.
  - assert (Hlt : acc + f < count) by (destruct Hl; assumption).
    assert (f = bs) as -> by lia.
    specialize (IH (acc + bs) Hl ltac:(done)).
    change (length (bs :: g :: l)) with (S (length (g :: l))).
    rewrite Nat.mul_succ_l. lia.
Qed.

Lemma fullBatches_ceil (bs count : nat) (l : list nat) :
  0 < bs -> fullBatches bs count 0 l ->
  length l <= (count + bs - 1) / bs.
Proof.
  intros Hbs Hl. destruct l as [|f l].
  - simpl. lia.
  - apply fullBatches_bound in Hl; [|done]. rewrite Nat.sub_0_r in Hl.
    apply Nat.div_le_lower_bound; lia.
Qed.

(** [count = 250] and [bs = 100]: three batches, the first two full. *)
Lemma fullBatches_250 (l : list nat) :
  fullBatches 100 250 0 l -> 250 <= sum_list l ->
  exists k, l = [100; 100; k] /\ 50 <= k <= 100.
Proof.
  intros Hl Hsum.
  destruct l as [|f1 [|f2 [|f3 [|f4 l]]]]; simpl in *.
  - lia.
  - lia.
  - lia.
  - exists f3. assert (f1 = 100) by lia. assert (f2 = 100) by lia.
    subst. split; [reflexivity | lia].
  - exfalso. lia.
Qed.

(** ** Rows with pairwise distinct ids *)

Lemma NoDup_map_filter {A B} (f : A -> B) (p : A -> bool) (l : list A) :
  NoDup (map f l) -> NoDup (map f (List.filter p l)).
Proof.
  induction l as [|a l IH]; simpl; intros Hnd; [constructor|].
  inversion Hnd as [|? ? Hnotin Hnd']; subst.
  destruct (p a); simpl; [|auto].
  constructor; [|auto].
  intros Hin. apply Hnotin.
  apply list_elem_of_In in Hin. apply list_elem_of_In.
  apply in_map_iff in Hin as (x & Hx & Hin).
  apply in_map_iff. exists x. split; [exact Hx|].
  apply filter_In in Hin. tauto.
Qed.

Lemma written_true (W : list Z) (m : Message) :
  written W m = true <-> In (msg_id m) W.
Proof.
  unfold written. rewrite existsb_exists. split.
  - intros (x & Hx & Heq). apply Z.eqb_eq in Heq. congruence.
  - intros Hin. exists (msg_id m). split; [exact Hin | apply Z.eqb_refl].
Qed.

(** Rows behind the batch keep their place when ids are distinct. *)
Lemma filter_written_length_ge (W : list Z) (n : nat) (el : list Message) :
  NoDup (map msg_id el) ->
  incl W (map msg_id (take n el)) ->
  length el - length (take n el)
  <= length (List.filter (fun m => negb (written W m)) el).
Proof.
  intros Hnd HW.
  rewrite <- (take_drop n el) at 3.
  rewrite List.filter_app, length_app.
  assert (Hdrop : List.filter (fun m => negb (written W m)) (drop n el)
                  = drop n el).
  { rewrite <- (take_drop n el), map_app in Hnd.
    apply NoDup_app in Hnd as (_ & Hdisj & _).
    rewrite <- (filter_written_nil (drop n el)) at 2.
    apply filter_ext_in. intros m Hm.
    destruct (written W m) eqn:Hw; [|reflexivity].
    exfalso. apply written_true in Hw. apply HW in Hw.
    apply (Hdisj (msg_id m)); apply list_elem_of_In; [exact Hw|].
    apply in_map. exact Hm. }
  rewrite Hdrop, length_drop, length_take. lia.
Qed.

(** All the rows of the batch leave when all of them were written. *)
Lemma filter_written_length_le (n : nat) (el : list Message) :
  length (List.filter (fun m => negb (written (map msg_id (take n el)) m)) el)
  <= length el - length (take n el).
Proof.
  set (W := map msg_id (take n el)).
  rewrite <- (take_drop n el) at 1.
  rewrite List.filter_app, length_app.
  assert (Htake : List.filter (fun m => negb (written W m)) (take n el) = []).
  { assert (H : forall l, incl l (take n el) ->
                  List.filter (fun m => negb (written W m)) l = []).
    { induction l as [|m l IH]; simpl; intros Hincl; [reflexivity|].
      assert (Hw : written W m = true).
      { apply written_true. apply in_map. apply Hincl. left. reflexivity. }
      rewrite Hw. simpl. apply IH. intros x Hx. apply Hincl. right. exact Hx. }
    apply H, incl_refl. }
  rewrite Htake. simpl.
  pose proof (List.filter_length_le (fun m => negb (written W m)) (drop n el)).
  rewrite length_drop in *. rewrite length_take. lia.
Qed.

(** ** Invariant of the loop on a table whose eligible rows have distinct ids *)

Section DistinctIds.

Variables (E : Env) (scope : option Z) (bs count : nat) (db : Store).
Hypothesis bs_pos : 0 < bs.
Hypothesis count_eq : count = countEligible scope db.
Hypothesis ids_distinct : NoDup (map msg_id (eligibleRows scope db)).

Lemma valid_ids_incl (batch : list BatchRow) :
  incl (map b_id (List.filter validContent batch)) (map b_id batch).
Proof.
  intros x Hx. apply in_map_iff in Hx as (r & <- & Hr).
  apply in_map. apply filter_In in Hr. tauto.
Qed.

Lemma distinct_reachable (st : LoopState) :
  Reachable E scope bs count (initState db count) st ->
  distinctInv scope bs count st.
Proof.
  induction 1 as [|st st' _ IH Hlt Hb|st st' _ IH Hlt Hb].
  - unfold distinctInv. simpl. repeat split; auto.
    + unfold countEligible, eligibleRows in *. lia.
    + intros (tr & Htr). discriminate.
  - destruct IH as (Hnd & Hcount & Hsum & Hfull & _).
    destruct (loopBody_eligible _ _ _ _ _ _ Hb) as (W & HW & Hel & _).
    pose proof (counters_step _ _ _ _ _ _ Hb) as (_ & Hsizes & _).
    apply loopBody_Continue in Hb as (_ & Hne & Hp & o & Ht & Ho).
    pose proof (fetchBatch_length scope bs (st_db st)) as Hlen.
    assert (HW' : incl W (map msg_id (take bs (eligibleRows scope (st_db st))))).
    { rewrite <- fetchBatch_ids. intros x Hx. apply valid_ids_incl, HW, Hx. }
    pose proof (filter_written_length_ge W bs _ Hnd HW') as Hge.
    rewrite <- Hel, length_take in Hge.
    unfold distinctInv. rewrite Hel at 1. rewrite Hsizes, sum_list_snoc.
    split; [apply NoDup_map_filter, Hnd|].
    split; [lia|]. split; [lia|]. split.
    + apply fullBatches_snoc; [exact Hfull | lia | lia | lia].
    + intros (tr & Htr). rewrite Ht in Htr. injection Htr as Hbatch _ _.
      contradiction.
  - exfalso. destruct IH as (_ & Hcount & _).
    apply loopBody_Break in Hb as (Hnil & _).
    apply (f_equal length) in Hnil. rewrite fetchBatch_length in Hnil.
    simpl in Hnil. lia.
Qed.

End DistinctIds.

(** ** Invariant of the loop when nothing fails and no eligible row is blank *)

Section NothingFails.

Variables (E : Env) (scope : option Z) (bs count : nat) (db : Store).
Hypothesis bs_pos : 0 < bs.
Hypothesis count_eq : count = countEligible scope db.
Hypothesis env_ok : noErrors E.
Hypothesis no_blank :
  forall m, In m (eligibleRows scope db) -> rowBlank m = false.

Lemma all_valid (st : LoopState) :
  (forall m, In m (eligibleRows scope (st_db st)) -> rowBlank m = false) ->
  List.filter validContent (fetchBatch scope bs (st_db st))
  = fetchBatch scope bs (st_db st).
Proof.
  intros Hnb. unfold fetchBatch. fold (eligibleRows scope (st_db st)).
  assert (H : forall l, incl l (eligibleRows scope (st_db st)) ->
    List.filter validContent
      (map (fun m => mkBatchRow (msg_id m) (msg_content m)) l)
    = map (fun m => mkBatchRow (msg_id m) (msg_content m)) l).
  { induction l as [|m l IH]; simpl; intros Hincl; [reflexivity|].
    rewrite validContent_blank.
    change (blank _) with (rowBlank m).
    rewrite (Hnb m) by (apply Hincl; left; reflexivity). simpl.
    f_equal. apply IH. intros x Hx. apply Hincl. right. exact Hx. }
  apply H. intros x Hx. apply list_elem_of_In in Hx.
  apply list_elem_of_In. eapply elem_of_sublist; [exact Hx|].
  apply sublist_take.
Qed.

(** Such an iteration embeds the whole batch. *)
Lemma loopBody_happy (st st' : LoopState) :
  (forall m, In m (eligibleRows scope (st_db st)) -> rowBlank m = false) ->
  loopBody E scope bs count st = Continue st' ->
  exists t us,
    st_trace st' = mkIter (fetchBatch scope bs (st_db st)) (Embedded t us)
                     :: st_trace st.
Proof.
  intros Hnb Hb. destruct env_ok as (_ & _ & Hgen & Hupd).
  apply loopBody_Continue in Hb as (_ & Hne & _ & o & Ht & Ho).
  rewrite Ht. unfold iterSpec in Ho. rewrite (all_valid st Hnb) in Ho.
  destruct (Hgen (length (st_trace st))
              (map contentText (fetchBatch scope bs (st_db st))))
    as (embs & Hembs & Hlen).
  rewrite length_map in Hlen.
  destruct o as [| |t us|t|t|t us]; try (exfalso; exact Ho).
  - destruct Ho as (Hnil & _). contradiction.
  - eauto.
  - destruct Ho as (_ & _ & Hnone & _). congruence.
  - destruct Ho as (_ & _ & (embs' & Hembs' & Hnone) & _).
    rewrite Hembs in Hembs'. injection Hembs' as <-.
    destruct (buildUpdates_enough 0 (fetchBatch scope bs (st_db st)) embs)
      as [us Hus]; [simpl; lia | congruence].
  - destruct Ho as (_ & _ & _ & Hr & _).
    pose proof (runUpdates_all_ok E (length (st_trace st)) 0 us (st_db st)
                  (Hupd _)) as Hok.
    rewrite Hr in Hok. discriminate.
Qed.

Lemma happy_reachable (st : LoopState) :
  Reachable E scope bs count (initState db count) st ->
  happyInv scope count st.
Proof.
  induction 1 as [|st st' _ IH Hlt Hb|st st' _ IH Hlt Hb].
  - unfold happyInv. simpl. repeat split; auto.
    + unfold countEligible, eligibleRows in *. lia.
    + intros (tr & Htr). discriminate.
  - destruct IH as (Hnb & Hcount & _ & Htr).
    destruct (loopBody_happy st st' Hnb Hb) as (t & us & Ht).
    destruct (loopBody_eligible _ _ _ _ _ _ Hb) as (W & _ & Hel & HW).
    rewrite Ht in HW. specialize (HW t us eq_refl).
    rewrite (all_valid st Hnb), fetchBatch_ids in HW. subst W.
    pose proof (filter_written_length_le bs (eligibleRows scope (st_db st)))
      as Hle.
    rewrite <- Hel in Hle.
    apply loopBody_Continue in Hb as (_ & Hne & Hp & _).
    rewrite fetchBatch_length in Hp. rewrite length_take in Hle.
    unfold happyInv. rewrite Ht. repeat split.
    + intros m Hm. rewrite Hel in Hm. apply filter_In in Hm. apply Hnb. tauto.
    + lia.
    + intros (tr & Heq). rewrite Ht in Heq. congruence.
    + constructor; [|exact Htr]. simpl. split; [reflexivity | discriminate].
  - destruct IH as (Hnb & Hcount & _ & Htr).
    apply loopBody_Break in Hb as (Hnil & Hdb & Hp & _ & Ht).
    unfold happyInv. rewrite Hdb, Hp, Ht.
    split; [exact Hnb|]. split; [exact Hcount|]. split.
    + intros _. apply (f_equal length) in Hnil.
      rewrite fetchBatch_length in Hnil. simpl in Hnil.
      destruct (eligibleRows scope (st_db st)); [reflexivity|].
      simpl in Hnil. lia.
    + constructor; [|exact Htr]. simpl. split; [reflexivity | discriminate].
Qed.

End NothingFails.

(** ** Claims about the counters *)

(** C1, the claim as stated fails: with [succeeded] the number of rows whose
    embedding write was issued, [processed = failed + succeeded] is broken
    by a batch whose writes were sent and then rejected: the [catch] counts
    the whole batch as failed. One row, one update statement that fails:
    [processed = 1], [failed = 1], one write issued. *)
Lemma counters_issued_counterexample :
  exists st,
    embed updateFailsEnv noCli (withBatch 2) oneRowDb = Some (Completed st)
    /\ processed st = 1 /\ failed st = 1 /\ issued st = 1
    /\ processed st <> failed st + issued st.
Proof.
  eexists. split; [vm_compute; reflexivity|].
  repeat split; vm_compute; lia.
Qed.

(** C1 (amended): in every state the loop reaches,
    [processed = failed + succeeded] where [succeeded] counts the rows whose
    embedding write was issued by a batch that completed without a caught
    error (which is every issued write when no update statement was
    rejected); and every iteration increases [processed] by exactly the
    length of the batch it fetched, whether it embeds, skips or catches an
    error (the [break] on an empty batch adds the length 0). *)
Theorem counters_invariant (E : Env) (scope : option Z) (bs count : nat)
    (db : Store) (st : LoopState) :
  Reachable E scope bs count (initState db count) st ->
  processed st = failed st + succeeded st
  /\ (noUpdateThrew st -> issued st = succeeded st)
  /\ processed st = sum_list (fetchSizes st)
  /\ (forall st', loopBody E scope bs count st = Continue st' ->
        processed st' = processed st + length (fetchBatch scope bs (st_db st)))
  /\ (forall st', loopBody E scope bs count st = Break st' ->
        processed st' = processed st + length (fetchBatch scope bs (st_db st))).
Proof.
  intros Hr. destruct (counters_reachable _ _ _ _ _ _ Hr) as (H1 & H2 & H3).
  repeat split; auto.
  - intros st' Hb. apply loopBody_Continue in Hb. tauto.
  - intros st' Hb. apply loopBody_Break in Hb as (-> & _ & -> & _).
    simpl. lia.
Qed.

(** In particular at the end of a completed run. *)
Lemma counters_at_completion (E : Env) (cli : CliOpts)
    (options : EmbedOptions) (db : Store) (st : LoopState) :
  embed E cli options db = Some (Completed st) ->
  processed st = failed st + succeeded st
  /\ processed st = sum_list (fetchSizes st).
Proof.
  intros H. apply embed_Completed in H as (s & -> & _ & _ & Hr & _).
  destruct (counters_reachable _ _ _ _ _ _ Hr) as (H1 & H2 & _).
  split; [exact H1 | exact H2].
Qed.

Lemma counters_invariant_witness :
  Reachable goodEnv None 2 3 (initState demoDb 3) demoState
  /\ processed demoState = 2 /\ failed demoState = 1
  /\ succeeded demoState = 1
  /\ processed demoState = failed demoState + succeeded demoState.
Proof.
  assert (Hr : Reachable goodEnv None 2 3 (initState demoDb 3) demoState).
  { eapply reach_continue; [apply reach_init | simpl; lia |].
    vm_compute. reflexivity. }
  split; [exact Hr|].
  do 3 (split; [vm_compute; reflexivity|]).
  exact (proj1 (counters_invariant goodEnv None 2 3 demoDb demoState Hr)).
Defined.

(** ** Claims about a batch whose provider call throws *)

(** C4: when the provider call of an iteration throws, the iteration is
    caught: a warning is logged, [processed] and [failed] both grow by the
    length of the whole batch, no update statement is issued and the table
    is unchanged, and the loop goes on with the next evaluation of its
    condition. *)
Theorem provider_error_fails_whole_batch (E : Env) (scope : option Z)
    (bs count : nat) (st : LoopState) :
  let it := length (st_trace st) in
  let batch := fetchBatch scope bs (st_db st) in
  let texts := map contentText (List.filter validContent batch) in
  fetch_ok E it = true ->
  texts <> [] ->
  generateEmbeddings E it texts = None ->
  exists st',
    loopBody E scope bs count st = Continue st'
    /\ processed st' = processed st + length batch
    /\ failed st' = failed st + length batch
    /\ st_db st' = st_db st
    /\ issued st' = issued st
    /\ st_trace st' = mkIter batch (ProviderThrew texts) :: st_trace st
    /\ st_log st' = WarnBatchFailed ProviderError (length batch) :: st_log st
    /\ (forall fuel, processed st < count ->
          whileLoop (S fuel) E scope bs count st
          = whileLoop fuel E scope bs count st').
Proof.
  intros it batch texts Hf Hne Hgen.
  assert (Hbody : loopBody E scope bs count st
                  = Continue (caught ProviderError batch (ProviderThrew texts)
                                     (st_db st) st)).
  { unfold loopBody. fold it. fold batch. rewrite Hf. simpl.
    destruct (length batch =? 0) eqn:Hb.
    { apply length_zero_nil in Hb. exfalso. apply Hne.
      unfold texts. rewrite Hb. reflexivity. }
    destruct (length (List.filter validContent batch) =? 0) eqn:Hv.
    { apply length_zero_nil in Hv. exfalso. apply Hne.
      unfold texts. rewrite Hv. reflexivity. }
    fold texts. rewrite Hgen. reflexivity. }
  eexists. split; [exact Hbody|].
  repeat split.
  intros fuel Hlt. simpl. rewrite Hbody.
  destruct (Nat.ltb_spec (processed st) count); [reflexivity | lia].
Qed.

Lemma provider_error_fails_whole_batch_witness :
  exists st',
    loopBody providerDownEnv None 2 3 (initState demoDb 3) = Continue st'
    /\ processed st' = 2 /\ failed st' = 2
    /\ st_db st' = demoDb /\ issued st' = 0.
Proof.
  destruct (provider_error_fails_whole_batch providerDownEnv None 2 3
              (initState demoDb 3))
    as (st' & Hb & Hp & Hf & Hdb & Hi & _).
  - reflexivity.
  - vm_compute. discriminate.
  - reflexivity.
  - exists st'. repeat split; assumption.
Defined.

(** ** Claims about blank rows *)

Lemma filter_valid_not_blank (batch : list BatchRow) :
  List.filter validContent batch
  = List.filter (fun r => negb (blank r)) batch.
Proof. apply filter_ext_in. intros r _. apply validContent_blank. Qed.

Lemma blank_count (batch : list BatchRow) :
  length batch - length (List.filter validContent batch)
  = length (List.filter blank batch).
Proof.
  rewrite filter_valid_not_blank.
  induction batch as [|r l IH]; simpl; [reflexivity|].
  pose proof (List.filter_length_le (fun r => negb (blank r)) l).
  destruct (blank r); simpl; lia.
Qed.

(** The text sent for a kept row is its trimmed content, which is not empty
    and has no white space left at either end. *)
Lemma kept_texts (l : list BatchRow) :
  Forall (fun r => blank r = false) l ->
  Forall2 (fun r t => exists s, b_content r = Some s /\ t = trim s)
          l (map contentText l)
  /\ Forall (fun t => t <> [] /\ trim t = t) (map contentText l).
Proof.
  induction 1 as [|r l Hr _ [IH1 IH2]]; simpl.
  - split; constructor.
  - unfold blank in Hr. unfold contentText at 1 3.
    destruct (b_content r) as [s|] eqn:Hs; [|discriminate].
    split.
    + constructor; [exists s; split; [exact Hs | reflexivity] | exact IH1].
    + constructor; [|exact IH2].
      split; [|apply trim_idempotent].
      intros Hnil. apply trim_nil_iff in Hnil. congruence.
Qed.

Lemma filter_not_blank_Forall (batch : list BatchRow) :
  Forall (fun r => blank r = false)
         (List.filter (fun r => negb (blank r)) batch).
Proof.
  apply Forall_forall. intros r Hr. apply list_elem_of_In in Hr.
  apply filter_In in Hr as [_ Hr]. destruct (blank r); [discriminate | reflexivity].
Qed.

(** C5: in every iteration that fetched a batch, the rows whose content is
    absent, empty or white space only are exactly the ones the filter
    drops; the texts sent to the provider (if a call is made) are the
    trimmed contents of the other rows, in order, none of them empty; a
    batch of blank rows only is skipped without any provider call and
    without passing through the [catch]; blank rows add to the counter of
    failed-or-skipped rows as skipped rows (the number the debug line
    reports), and the iteration continues the loop. *)
Theorem blank_rows_skipped (E : Env) (scope : option Z) (bs count : nat)
    (st : LoopState) :
  let it := length (st_trace st) in
  let batch := fetchBatch scope bs (st_db st) in
  let kept := List.filter (fun r => negb (blank r)) batch in
  fetch_ok E it = true ->
  batch <> [] ->
  exists st' o,
    loopBody E scope bs count st = Continue st'
    /\ st_trace st' = mkIter batch o :: st_trace st
    /\ List.filter validContent batch = kept
    /\ (forall texts, sentIn (mkIter batch o) = Some texts ->
          Forall2 (fun r t => exists s, b_content r = Some s /\ t = trim s)
                  kept texts
          /\ Forall (fun t => t <> [] /\ trim t = t) texts)
    /\ (kept = [] ->
          o = AllSkipped /\ st_db st' = st_db st
          /\ st_log st' = WarnNoValidContent :: st_log st)
    /\ (isCaught (mkIter batch o) = false ->
          failed st' = failed st + length (List.filter blank batch)
          /\ (kept <> [] -> exists p c,
                st_log st' = DebugProgress p c (length (List.filter blank batch))
                               :: st_log st)).
Proof.
  intros it batch kept Hf Hne.
  pose proof (loopBody_spec E scope bs count st) as S. cbv zeta in S.
  fold it in S. fold batch in S.
  destruct (loopBody E scope bs count st) as [st'|st'|st'].
  { destruct S as (_ & Hnil & _). contradiction. }
  2:{ destruct S as (Hf' & _). congruence. }
  destruct S as (_ & _ & Hp & o & Ht & Ho).
  exists st', o. split; [reflexivity|]. split; [exact Ht|].
  pose proof (filter_valid_not_blank batch) as Hkept. fold kept in Hkept.
  split; [exact Hkept|].
  unfold iterSpec in Ho. fold batch in Ho. rewrite Hkept in Ho.
  pose proof (blank_count batch) as Hcount. rewrite Hkept in Hcount.
  pose proof (kept_texts kept (filter_not_blank_Forall batch)) as Htexts.
  destruct o as [| |t us|t|t|t us]; simpl; try (exfalso; exact Ho).
  - destruct Ho as (Hnil & Hdb & Hfl & Hlog).
    split; [discriminate|]. split; [auto|]. intros _.
    rewrite Hnil in Hcount. simpl in Hcount. rewrite Hfl.
    split; [lia | contradiction].
  - destruct Ho as (-> & Hk & _ & _ & Hfl & p & c & Hlog).
    split; [intros texts [= <-]; exact Htexts|].
    split; [contradiction|]. intros _. rewrite Hfl, Hlog, Hcount. eauto.
  - destruct Ho as (-> & Hk & _).
    split; [intros texts [= <-]; exact Htexts|].
    split; [contradiction | discriminate].
  - destruct Ho as (-> & Hk & _).
    split; [intros texts [= <-]; exact Htexts|].
    split; [contradiction | discriminate].
  - destruct Ho as (-> & Hk & _).
    split; [intros texts [= <-]; exact Htexts|].
    split; [contradiction | discriminate].
Qed.

Lemma blank_rows_skipped_witness :
  exists st',
    loopBody goodEnv None 2 3 (initState demoDb 3) = Continue st'
    /\ st_trace st'
       = [mkIter [mkBatchRow 1 (Some (js "hi")); mkBatchRow 2 (Some (js "  "))]
                 (Embedded [js "hi"] [(1%Z, [1%Q])])]
    /\ failed st' = 1.
Proof.
  destruct (blank_rows_skipped goodEnv None 2 3 (initState demoDb 3))
    as (st' & o & Hb & Ht & _ & _ & _ & Hfl).
  - reflexivity.
  - vm_compute. discriminate.
  - exists st'. split; [exact Hb|].
    assert (Hst : Continue st' = Continue demoState)
      by (rewrite <- Hb; vm_compute; reflexivity).
    injection Hst as ->. split; vm_compute; reflexivity.
Defined.

(** ** Claims about running the backfill twice *)

Lemma effectiveBatchSize_pos (options : EmbedOptions) :
  0 < effectiveBatchSize options.
Proof.
  unfold effectiveBatchSize. destruct (batchSize options) as [n|]; [|lia].
  destruct (Nat.eqb_spec n 0); lia.
Qed.

Lemma goodEnv_noErrors : noErrors goodEnv.
Proof.
  repeat split; try reflexivity.
  intros it texts. exists (map (fun _ => [1%Q]) texts).
  split; [reflexivity | apply length_map].
Qed.

(** C2, the claim as stated fails: an eligible row whose content is blank
    is skipped by the filter of the loop and never gets an embedding, so it
    is eligible again on the second run, although nothing failed. *)
Lemma backfill_twice_counterexample :
  noErrors goodEnv
  /\ exists st,
       embed goodEnv noCli (withBatch 100) blankDb = Some (Completed st)
       /\ countEligible None (st_db st) = 1
       /\ exists st2,
            embed goodEnv noCli (withBatch 100) (st_db st)
            = Some (Completed st2)
            /\ fetchSizes st2 = [1].
Proof.
  split; [exact goodEnv_noErrors|].
  eexists. split; [vm_compute; reflexivity|].
  split; [vm_compute; reflexivity|].
  eexists. split; vm_compute; reflexivity.
Qed.

(** C2 (amended): when no eligible row of the scope is blank, a run in which
    no query, provider call or update fails ends (it does not exit with an
    error) with an embedding on every row of the scope, so a second run with
    the same chat scope finds zero eligible rows and returns at once. *)
Theorem backfill_idempotent (E E' : Env) (cli cli' : CliOpts)
    (options options' : EmbedOptions) (db : Store) :
  let scope := chatId (resolveOptions cli options) in
  noErrors E ->
  count_ok E' = true ->
  chatId (resolveOptions cli' options') = scope ->
  (forall m, In m (eligibleRows scope db) -> rowBlank m = false) ->
  exists o,
    embed E cli options db = Some o
    /\ match o with
       | NothingToDo => countEligible scope db = 0
       | Completed st =>
           countEligible scope (st_db st) = 0
           /\ (forall m, In m (st_db st) -> eligible scope m = false)
           /\ embed E' cli' options' (st_db st) = Some NothingToDo
       | Exit1 _ => False
       end.
Proof.
  intros scope HE HE' Hscope Hnb.
  destruct (embed_total E cli options db) as [o Ho]. exists o.
  split; [exact Ho|].
  destruct o as [|st'|st'].
  - apply embed_NothingToDo in Ho. tauto.
  - apply embed_Completed in Ho as (st & -> & Hc & _ & Hr & Hend).
    fold scope in Hr, Hend, Hc.
    pose proof (happy_reachable E scope _ _ db
                  (effectiveBatchSize_pos _) eq_refl HE Hnb st Hr)
      as (_ & Hle & Hbreak & _).
    assert (Hnil : eligibleRows scope (st_db st) = []).
    { destruct Hend as [Hge|Hb]; [|auto].
      destruct (eligibleRows scope (st_db st)); [reflexivity|].
      simpl in Hle. lia. }
    assert (Hzero : countEligible scope (st_db (finish st)) = 0).
    { unfold countEligible. simpl. fold (eligibleRows scope (st_db st)).
      rewrite Hnil. reflexivity. }
    split; [exact Hzero|]. split.
    + intros m Hm. simpl in Hm.
      destruct (eligible scope m) eqn:Hel; [|reflexivity].
      assert (Hin : In m (eligibleRows scope (st_db st)))
        by (apply filter_In; auto).
      rewrite Hnil in Hin. destruct Hin.
    + apply embed_NothingToDo. rewrite Hscope. auto.
  - unfold embed in Ho. destruct HE as (Hcok & Hfok & _).
    rewrite Hcok in Ho. simpl in Ho.
    destruct (countEligible _ db =? 0); [discriminate|].
    destruct (whileLoop _ E _ _ _ _) as [[st|st]|] eqn:Hw; try discriminate.
    eapply whileLoop_Thrown in Hw as (_ & Habs); [|apply reach_init].
    rewrite Hfok in Habs. discriminate.
Qed.

Lemma backfill_idempotent_witness :
  exists st,
    embed goodEnv noCli (withBatch 2) oneRowDb = Some (Completed st)
    /\ countEligible None (st_db st) = 0
    /\ embed goodEnv noCli (withBatch 2) (st_db st) = Some NothingToDo.
Proof.
  destruct (backfill_idempotent goodEnv goodEnv noCli noCli
              (withBatch 2) (withBatch 2) oneRowDb)
    as (o & Ho & Hspec).
  - exact goodEnv_noErrors.
  - reflexivity.
  - reflexivity.
  - intros m [<-|[]]. reflexivity.
  - assert (Heq : Some o = embed goodEnv noCli (withBatch 2) oneRowDb)
      by (symmetry; exact Ho).
    vm_compute in Heq. injection Heq as ->.
    eexists. split; [vm_compute; reflexivity|].
    destruct Hspec as (Hz & _ & H2). split; [exact Hz | exact H2].
Defined.

(** ** Claims about the number of fetches *)

Lemma fullBatches_Forall (bs count acc : nat) (l : list nat) :
  fullBatches bs count acc l -> Forall (fun f => 0 < f <= bs) l.
Proof.
  revert acc. induction l as [|f l IH]; simpl; intros acc Hl; constructor.
  - tauto.
  - apply (IH (acc + f)). tauto.
Qed.

(** C3, the claim as stated fails twice.  With 250 eligible rows and batches
    of 100, the three fetches return 100, 100 and 100 rows when the rows are
    skipped (they stay eligible and are fetched again), not 100, 100 and 50.
    And the number of fetches can exceed [ceil(total/batchSize)] when
    eligible rows share an id: an update by id takes more rows out of the
    eligible set than the batch counted, the following batches are short:
    5 rows, batches of 3, three fetches (3, 1, 1) where [ceil(5/3) = 2]. *)
Lemma fetch_sizes_counterexample :
  (exists st,
     embed goodEnv noCli (withBatch 100) blank250 = Some (Completed st)
     /\ countEligible None blank250 = 250
     /\ fetchSizes st = [100; 100; 100])
  /\ (exists st,
        embed goodEnv noCli (withBatch 3) sharedIdsDb = Some (Completed st)
        /\ countEligible None sharedIdsDb = 5
        /\ fetchSizes st = [3; 1; 1]
        /\ (5 + 3 - 1) / 3 = 2).
Proof.
  split.
  - eexists. split; [vm_compute; reflexivity|].
    split; vm_compute; reflexivity.
  - eexists. split; [vm_compute; reflexivity|].
    repeat split; vm_compute; reflexivity.
Qed.

(** C3 (amended): when the eligible rows of the scope have pairwise distinct
    ids, every run ends, and in a run that went through the loop (it
    completed, or a fetch failed) every iteration fetched a batch that is
    not empty and not longer than the batch size, [processed] is the sum of
    the lengths of the fetched batches (each iteration adds the full length,
    also when the batch fails or is skipped), and there are at most
    [ceil(total/batchSize)] fetches.  A completed run has counted every
    eligible row; with 250 eligible rows and batches of 100 it makes exactly
    three fetches, of 100, 100 and [k] rows with [50 <= k <= 100], and
    [k = 50] when nothing fails and no eligible row is blank. *)
Theorem fetch_iterations_bound (E : Env) (cli : CliOpts)
    (options : EmbedOptions) (db : Store) :
  let scope := chatId (resolveOptions cli options) in
  let bs := effectiveBatchSize (resolveOptions cli options) in
  let total := countEligible scope db in
  NoDup (map msg_id (eligibleRows scope db)) ->
  exists o,
    embed E cli options db = Some o
    /\ forall st, o = Completed st \/ o = Exit1 (Some st) ->
         processed st = sum_list (fetchSizes st)
         /\ Forall (fun f => 0 < f <= bs) (fetchSizes st)
         /\ length (fetchSizes st) <= (total + bs - 1) / bs
         /\ (o = Completed st ->
             total <= processed st
             /\ (total = 250 -> bs = 100 ->
                 exists k, fetchSizes st = [100; 100; k] /\ 50 <= k <= 100
                           /\ (noErrors E ->
                               (forall m, In m (eligibleRows scope db) ->
                                          rowBlank m = false) ->
                               k = 50))).
Proof.
  intros scope bs total Hnd.
  destruct (embed_total E cli options db) as [o Ho]. exists o.
  split; [exact Ho|]. intros st Hst.
  assert (Hreach : exists s,
            Reachable E scope bs total (initState db total) s
            /\ fetchSizes st = fetchSizes s /\ processed st = processed s
            /\ (o = Completed st -> total <= processed s \/ endedByBreak s)).
  { destruct Hst as [->| ->].
    - apply embed_Completed in Ho as (s & -> & _ & _ & Hr & Hend).
      exists s. auto.
    - apply embed_Exit1 in Ho as Hr. exists st.
      repeat split; [exact Hr | discriminate]. }
  destruct Hreach as (s & Hr & -> & -> & Hend).
  pose proof (distinct_reachable E scope bs total db
                (effectiveBatchSize_pos _) eq_refl Hnd s Hr)
    as (_ & _ & Hsum & Hfull & Hnobreak).
  split; [exact Hsum|].
  split; [eapply fullBatches_Forall; exact Hfull|].
  split; [apply fullBatches_ceil; [apply effectiveBatchSize_pos | exact Hfull]|].
  intros Hdone. destruct (Hend Hdone) as [Hge|Hb]; [|contradiction].
  split; [exact Hge|].
  intros Htotal Hbs. rewrite Htotal, Hbs in *.
  destruct (fullBatches_250 _ Hfull) as (k & Hk & Hrange); [lia|].
  exists k. split; [exact Hk|]. split; [exact Hrange|].
  intros HE Hnb.
  pose proof (happy_reachable E scope 100 250 db ltac:(lia)
                (eq_sym Htotal) HE Hnb s Hr) as (_ & Hle & _).
  rewrite Hk in Hsum. simpl in Hsum. lia.
Qed.

Lemma eligibleRows_In (scope : option Z) (db : Store) (m : Message) :
  In m (eligibleRows scope db) -> In m db.
Proof. unfold eligibleRows. intros H. apply filter_In in H. tauto. Qed.

Lemma valid250_not_blank (m : Message) : In m valid250 -> rowBlank m = false.
Proof.
  unfold valid250. intros H. apply in_map_iff in H as (i & <- & _).
  reflexivity.
Qed.

Lemma fetch_iterations_bound_witness :
  fetchSizes (finalState (embed goodEnv noCli (withBatch 100) valid250))
  = [100; 100; 50].
Proof.
  destruct (fetch_iterations_bound goodEnv noCli (withBatch 100) valid250)
    as (o & Ho & Hspec).
  - apply (bool_decide_unpack _). vm_compute. exact I.
  - assert (Hfin : o = Completed (finalState
                     (embed goodEnv noCli (withBatch 100) valid250))).
    { destruct (embed goodEnv noCli (withBatch 100) valid250)
        as [[|s|s]|] eqn:He.
      - vm_compute in He. discriminate He.
      - injection Ho as <-. reflexivity.
      - vm_compute in He. discriminate He.
      - vm_compute in He. discriminate He. }
    subst o.
    destruct (Hspec _ (or_introl eq_refl)) as (_ & _ & _ & Hdone).
    destruct (Hdone eq_refl) as (_ & H250).
    destruct H250 as (k & Hk & _ & Hk50); [vm_compute; reflexivity..|].
    rewrite Hk. rewrite Hk50; [reflexivity | exact goodEnv_noErrors |].
    intros m Hm. apply valid250_not_blank.
    exact (eligibleRows_In _ _ _ Hm).
Defined.

(** ** Claims about the update statement of the backfill *)

Lemma sameButEmbedding_refl (m : Message) : sameButEmbedding m m.
Proof. unfold sameButEmbedding. tauto. Qed.

Lemma sameButEmbedding_set (v : Vec) (m : Message) :
  sameButEmbedding m (set_embedding v m).
Proof. unfold sameButEmbedding. simpl. tauto. Qed.

Lemma sameButEmbedding_trans (a b c : Message) :
  sameButEmbedding a b -> sameButEmbedding b c -> sameButEmbedding a c.
Proof. unfold sameButEmbedding. intuition congruence. Qed.

Lemma updateEmbedding_lookup (id : Z) (v : Vec) (db : Store) (i : nat) :
  updateEmbedding id v db !! i
  = (fun m => if (msg_id m =? id)%Z then set_embedding v m else m) <$> db !! i.
Proof. unfold updateEmbedding. apply list_lookup_fmap. Qed.

(** The rows after the statements of one batch. *)
Lemma runUpdates_rows (E : Env) (it idx : nat) (us : list (Z * Vec))
    (db : Store) (i : nat) (m : Message) :
  db !! i = Some m ->
  exists m',
    fst (runUpdates E it idx us db) !! i = Some m'
    /\ sameButEmbedding m m'
    /\ (~ In (msg_id m) (map fst us) -> m' = m)
    /\ (snd (runUpdates E it idx us db) = true ->
        In (msg_id m) (map fst us) ->
        exists v, In (msg_id m, v) us /\ msg_embedding m' = Some v).
Proof.
  revert idx db m. induction us as [|[id v] us IH]; intros idx db m Hm; simpl.
  - exists m. split; [exact Hm|]. split; [apply sameButEmbedding_refl|].
    split; [reflexivity | intros _ []].
  - destruct (update_ok E it idx) eqn:Hok.
    + set (m1 := if (msg_id m =? id)%Z then set_embedding v m else m).
      assert (Hm1 : updateEmbedding id v db !! i = Some m1).
      { rewrite updateEmbedding_lookup, Hm. reflexivity. }
      assert (Hid1 : msg_id m1 = msg_id m).
      { unfold m1. destruct (msg_id m =? id)%Z; reflexivity. }
      destruct (IH (S idx) _ m1 Hm1) as (m' & Hm' & Hsame & Hnot & Hall).
      rewrite Hid1 in Hnot, Hall.
      exists m'. split; [exact Hm'|]. split; [|split].
      * eapply sameButEmbedding_trans; [|exact Hsame].
        unfold m1. destruct (msg_id m =? id)%Z;
          [apply sameButEmbedding_set | apply sameButEmbedding_refl].
      * intros Hni. rewrite Hnot by tauto. unfold m1.
        destruct (Z.eqb_spec (msg_id m) id); [|reflexivity].
        exfalso. apply Hni. left. auto.
      * intros Hsnd Hin.
        destruct (in_dec Z.eq_dec (msg_id m) (map fst us)) as [Hin'|Hni].
        { destruct (Hall Hsnd Hin') as (w & Hw & He). exists w. auto. }
        destruct Hin as [Heq|Hin']; [|contradiction]. simpl in Heq.
        rewrite (Hnot Hni). exists v. split; [left; congruence|].
        unfold m1. rewrite <- Heq, Z.eqb_refl. reflexivity.
    + destruct (IH (S idx) db m Hm) as (m' & Hm' & Hsame & Hnot & _).
      exists m'. simpl. split; [exact Hm'|]. split; [exact Hsame|].
      split; [intros Hni; apply Hnot; tauto | discriminate].
Qed.

(** C9: the update statement of the backfill selects by message id alone.
    It keeps the table's rows in place, gives the embedding to every row
    whose id is the given one, whatever its chat, and leaves every other
    row as it is and every other field of every row unchanged.  So after an
    iteration that completed, every row whose id is the id of a valid row of
    the batch has an embedding computed in this iteration, also outside the
    scope of the run, as on a table where two chats share the id 1. *)
Theorem update_matches_id_only (E : Env) (scope : option Z) (bs count : nat)
    (id : Z) (v : Vec) (db : Store) (st st' : LoopState) :
  (length (updateEmbedding id v db) = length db
   /\ forall i m, db !! i = Some m ->
        exists m', updateEmbedding id v db !! i = Some m'
                   /\ sameButEmbedding m m'
                   /\ (msg_id m = id -> msg_embedding m' = Some v)
                   /\ (msg_id m <> id -> m' = m))
  /\ (forall t us,
        loopBody E scope bs count st = Continue st' ->
        head (st_trace st') = Some
          (mkIter (fetchBatch scope bs (st_db st)) (Embedded t us)) ->
        map fst us = map b_id (List.filter validContent
                                 (fetchBatch scope bs (st_db st)))
        /\ forall i m, st_db st !! i = Some m ->
             exists m', st_db st' !! i = Some m'
                        /\ sameButEmbedding m m'
                        /\ (In (msg_id m) (map fst us) ->
                            exists w, In (msg_id m, w) us
                                      /\ msg_embedding m' = Some w)
                        /\ (~ In (msg_id m) (map fst us) -> m' = m))
  /\ (exists m', updateEmbedding 1 [1%Q] twoChatsDb !! 1 = Some m'
                 /\ msg_chatId m' = 2%Z /\ eligible (Some 1%Z) m' = false
                 /\ msg_embedding m' = Some [1%Q]).
Proof.
  split; [split|split].
  - unfold updateEmbedding. apply length_map.
  - intros i m Hm. rewrite updateEmbedding_lookup, Hm. simpl.
    eexists. split; [reflexivity|].
    destruct (Z.eqb_spec (msg_id m) id) as [Heq|Hne].
    + split; [apply sameButEmbedding_set|]. split; [reflexivity | contradiction].
    + split; [apply sameButEmbedding_refl|]. split; [contradiction | reflexivity].
  - intros t us Hb Hhead.
    apply loopBody_Continue in Hb as (_ & _ & _ & o & Ht & Ho).
    rewrite Ht in Hhead. injection Hhead as ->.
    destruct Ho as (_ & _ & (embs & _ & Hus) & Hr & _).
    split; [eapply buildUpdates_ids; exact Hus|].
    intros i m Hm.
    destruct (runUpdates_rows E (length (st_trace st)) 0 us (st_db st) i m Hm)
      as (m' & Hm' & Hsame & Hnot & Hall).
    rewrite Hr in Hm', Hall. simpl in Hm', Hall.
    exists m'. auto.
  - eexists. split; [reflexivity|]. repeat split.
Qed.

(** ** Claims about the similarity search *)

#[global] Instance bySimilarityDesc_total : Total bySimilarityDesc.
Proof.
  intros a b. unfold bySimilarityDesc. rewrite !Qle_bool_iff.
  destruct (Qlt_le_dec (sr_similarity a) (sr_similarity b)) as [Hlt|Hle].
  - right. apply Qlt_le_weak, Hlt.
  - left. exact Hle.
Qed.

#[global] Instance bySimilarityDesc_trans : Transitive bySimilarityDesc.
Proof.
  intros a b c. unfold bySimilarityDesc. rewrite !Qle_bool_iff.
  intros Hab Hbc. eapply Qle_trans; eauto.
Qed.

Lemma StronglySorted_sublist {A} (R : relation A) (l1 l2 : list A) :
  l1 `sublist_of` l2 -> StronglySorted R l2 -> StronglySorted R l1.
Proof.
  induction 1 as [|x l1 l2 Hsub IH|x l1 l2 Hsub IH]; intros Hs.
  - constructor.
  - apply StronglySorted_cons in Hs as [Hall Hs].
    apply StronglySorted_cons. split; [|auto].
    rewrite Forall_forall in *. intros y Hy. apply Hall.
    eapply elem_of_sublist; eauto.
  - apply StronglySorted_cons in Hs as [_ Hs]. auto.
Qed.

(** What the WHERE clause of the search tests. *)
Lemma searchWhere_spec (o : SearchOptions) (m : Message) :
  searchWhere o m = true <->
  msg_embedding m <> None
  /\ (forall c, so_chatId o = Some c -> c <> 0%Z -> msg_chatId m = c)
  /\ (forall t, so_type o = Some t -> t <> ""%string -> msg_type m = t)
  /\ (forall t, so_startTime o = Some t -> (t < msg_createdAt m)%Z)
  /\ (forall t, so_endTime o = Some t -> (msg_createdAt m < t)%Z).
Proof.
  unfold searchWhere. rewrite !andb_true_iff.
  assert (Hchat :
    (if truthy_num (so_chatId o)
     then match so_chatId o with
          | Some c => (msg_chatId m =? c)%Z
          | None => true
          end
     else true) = true
    <-> (forall c, so_chatId o = Some c -> c <> 0%Z -> msg_chatId m = c)).
  { destruct (so_chatId o) as [c|]; simpl; [|split; [discriminate | reflexivity]].
    destruct (Z.eqb_spec c 0) as [->|Hc]; simpl.
    - split; [intros _ c [= <-] Hc; contradiction | reflexivity].
    - rewrite Z.eqb_eq. split.
      + intros -> c' [= <-] _. reflexivity.
      + intros H. apply (H c eq_refl Hc). }
  assert (Htype :
    (if truthy_str (so_type o)
     then match so_type o with
          | Some t => String.eqb (msg_type m) t
          | None => true
          end
     else true) = true
    <-> (forall t, so_type o = Some t -> t <> ""%string -> msg_type m = t)).
  { destruct (so_type o) as [t|]; simpl; [|split; [discriminate | reflexivity]].
    destruct (String.eqb_spec t "") as [->|Ht]; simpl.
    - split; [intros _ t [= <-] Ht; contradiction | reflexivity].
    - rewrite String.eqb_eq. split.
      + intros -> t' [= <-] _. reflexivity.
      + intros H. apply (H t eq_refl Ht). }
  assert (Hstart :
    match so_startTime o with
    | Some t => (t <? msg_createdAt m)%Z
    | None => true
    end = true
    <-> (forall t, so_startTime o = Some t -> (t < msg_createdAt m)%Z)).
  { destruct (so_startTime o) as [t|]; [|split; [discriminate | reflexivity]].
    rewrite Z.ltb_lt. split; [intros H t' [= <-]; exact H | auto]. }
  assert (Hend :
    match so_endTime o with
    | Some t => (msg_createdAt m <? t)%Z
    | None => true
    end = true
    <-> (forall t, so_endTime o = Some t -> (msg_createdAt m < t)%Z)).
  { destruct (so_endTime o) as [t|]; [|split; [discriminate | reflexivity]].
    rewrite Z.ltb_lt. split; [intros H t' [= <-]; exact H | auto]. }
  rewrite Hchat, Htype, Hstart, Hend.
  destruct (msg_embedding m); intuition congruence.
Qed.

(** C6, the claim as stated fails: a supplied chat id of 0 is a supplied
    filter that the returned rows do not satisfy; for a query of the
    dimension of the stored vectors, the rows of the chats 7 and 5 are
    returned. *)
Lemma findSimilar_chat_zero_counterexample :
  so_chatId chatZero = Some 0%Z
  /\ map sr_chatId
       (findSimilarMessages firstComponent [1%Q] chatZero searchDb)
     = [7%Z; 5%Z].
Proof. split; vm_compute; reflexivity. Qed.

(** C6 (amended): [findSimilarMessages] returns the page
    [offset, offset + limit) (limit 10 and offset 0 by default) of the rows
    that have an embedding and pass every supplied truthy filter (a chat id
    other than 0, a type other than the empty string, a creation time
    strictly after the start time and strictly before the end time),
    ordered by descending cosine similarity, the similarity of a row being
    1 minus the distance of its embedding to the query vector, for the
    cosine distance [<=>] as for any other [distance]. *)
Theorem findSimilarMessages_spec (distance : Vec -> Vec -> Q) (query : Vec)
    (o : SearchOptions) (db : Store) :
  (exists sorted,
     sorted ≡ₚ map (selectSimilar distance query)
                   (List.filter (searchWhere o) db)
     /\ StronglySorted bySimilarityDesc sorted
     /\ findSimilarMessages distance query o db
        = take (default 10 (so_limit o)) (drop (default 0 (so_offset o)) sorted))
  /\ StronglySorted bySimilarityDesc (findSimilarMessages distance query o db)
  /\ length (findSimilarMessages distance query o db) <= default 10 (so_limit o)
  /\ (forall r, In r (findSimilarMessages distance query o db) ->
        exists m e,
          In m db /\ r = selectSimilar distance query m
          /\ msg_embedding m = Some e
          /\ sr_similarity r = (1 - distance e query)%Q
          /\ (forall c, so_chatId o = Some c -> c <> 0%Z -> msg_chatId m = c)
          /\ (forall t, so_type o = Some t -> t <> ""%string -> msg_type m = t)
          /\ (forall t, so_startTime o = Some t -> (t < msg_createdAt m)%Z)
          /\ (forall t, so_endTime o = Some t -> (msg_createdAt m < t)%Z)).
Proof.
  set (rows := map (selectSimilar distance query)
                   (List.filter (searchWhere o) db)).
  set (sorted := merge_sort bySimilarityDesc rows).
  assert (Hperm : sorted ≡ₚ rows) by apply merge_sort_Permutation.
  assert (Hsorted : StronglySorted bySimilarityDesc sorted)
    by (apply StronglySorted_merge_sort; apply _).
  assert (Hres : findSimilarMessages distance query o db
                 = take (default 10 (so_limit o))
                        (drop (default 0 (so_offset o)) sorted))
    by reflexivity.
  split; [exists sorted; auto|].
  assert (Hsub : findSimilarMessages distance query o db `sublist_of` sorted).
  { rewrite Hres. etrans; [apply sublist_take | apply sublist_drop]. }
  split; [|split].
  - eapply StronglySorted_sublist; eauto.
  - rewrite Hres, length_take. lia.
  - intros r Hr. apply list_elem_of_In in Hr.
    eapply elem_of_sublist in Hr; [|exact Hsub].
    rewrite Hperm in Hr. apply list_elem_of_In in Hr.
    apply in_map_iff in Hr as (m & <- & Hm).
    apply filter_In in Hm as (Hm & Hw).
    apply searchWhere_spec in Hw as (He & Hfilters).
    destruct (msg_embedding m) as [e|] eqn:Hemb; [|contradiction].
    exists m, e. split; [exact Hm|]. split; [reflexivity|].
    split; [exact Hemb|]. split; [|exact Hfilters].
    unfold selectSimilar, similarityOf. simpl. rewrite Hemb. reflexivity.
Qed.

(** ** Claims about inserting messages *)

(** With [onConflictDoNothing] the statement never fails: it appends the
    rows that collide with nothing and returns them. *)
Lemma insertRows_doNothing (conflicts : Message -> Message -> bool)
    (rows : list Message) (tbl ret : list Message) :
  exists ins,
    insertRows conflicts true rows (tbl, ret) = DbOk (tbl ++ ins, ret ++ ins)
    /\ forall r, In r ins ->
         In r rows /\ forall old, In old tbl -> conflicts r old = false.
Proof.
  revert tbl ret. induction rows as [|r rows IH]; intros tbl ret; simpl.
  - exists []. rewrite !app_nil_r. split; [reflexivity | intros r []].
  - unfold insertRow. simpl.
    destruct (existsb (conflicts r) tbl) eqn:Hex.
    + destruct (IH tbl ret) as (ins & Hins & Hspec).
      exists ins. split; [exact Hins|].
      intros x Hx. destruct (Hspec x Hx). auto.
    + destruct (IH (tbl ++ [r]) (ret ++ [r])) as (ins & Hins & Hspec).
      exists (r :: ins). rewrite Hins, <- !app_assoc. split; [reflexivity|].
      intros x [<-|Hx].
      * split; [left; reflexivity|]. intros old Hold.
        destruct (conflicts r old) eqn:Hc; [|reflexivity].
        assert (existsb (conflicts r) tbl = true)
          by (apply existsb_exists; eauto).
        congruence.
      * destruct (Hspec x Hx) as [Hin Hno]. split; [right; exact Hin|].
        intros old Hold. apply Hno. apply in_or_app. left. exact Hold.
Qed.

(** C7: on a table whose unique key is the message id, [createMessage] of a
    message whose id is already stored raises no error, returns no row and
    leaves the table as it is; and of several messages it adds and returns
    only rows whose id was not stored, keeping every stored row.  This is
    so whenever the store accepts the statement; the one error the call
    can then raise is the store's own refusal of the statement, never an
    error for the duplicate. *)
Theorem createMessage_existing_id_noop
    (conflicts : Message -> Message -> bool) (tbl : Store) :
  (forall a b, msg_id a = msg_id b -> conflicts a b = true) ->
  (forall insert_ok m old, In old tbl -> msg_id old = nm_id m ->
     createMessage insert_ok conflicts (inl m) tbl
     = if insert_ok then DbOk (tbl, []) else DbErr InsertRejected)
  /\ (forall insert_ok data, messageArray data <> [] ->
        exists ins,
          createMessage insert_ok conflicts data tbl
          = (if insert_ok then DbOk (tbl ++ ins, ins)
             else DbErr InsertRejected)
          /\ forall r old, In r ins -> In old tbl -> msg_id r <> msg_id old).
Proof.
  intros Hkey. split.
  - intros insert_ok m old Hold Hid. unfold createMessage, insertMessages.
    simpl. destruct insert_ok; [|reflexivity].
    unfold insertRow. simpl.
    assert (Hex : existsb (conflicts (toRow m)) tbl = true).
    { apply existsb_exists. exists old. split; [exact Hold|].
      apply Hkey. simpl. congruence. }
    rewrite Hex. reflexivity.
  - intros insert_ok data Hne. unfold createMessage, insertMessages.
    destruct (map toRow (messageArray data)) as [|r rows] eqn:Hrows.
    { destruct (messageArray data); [contradiction | discriminate]. }
    destruct (insertRows_doNothing conflicts (r :: rows) tbl [])
      as (ins & Hins & Hspec).
    exists ins. split; [destruct insert_ok; [exact Hins | reflexivity]|].
    intros x old Hx Hold Heq.
    destruct (Hspec x Hx) as [_ Hno]. specialize (Hno old Hold).
    rewrite (Hkey x old Heq) in Hno. discriminate.
Qed.

Lemma createMessage_existing_id_noop_witness :
  createMessage true sameId
    (inl (mkNewMessage 1 9 None (Some (js "again")) None 0
            None None None None None None))
    oneRowDb
  = DbOk (oneRowDb, []).
Proof.
  refine (proj1 (createMessage_existing_id_noop sameId oneRowDb _) true _
                (row 1 1 (Some (js "hi")) None) _ _).
  - intros a b Hab. unfold sameId. rewrite Hab. apply Z.eqb_refl.
  - left. reflexivity.
  - reflexivity.
Defined.

(** Were the key the pair (id, chatId), the same call, a message of
    another chat with a stored id, would add a row. *)
Lemma createMessage_pair_key_other_chat :
  exists r,
    createMessage true sameIdAndChat
      (inl (mkNewMessage 1 9 None (Some (js "again")) None 0
              None None None None None None))
      oneRowDb
    = DbOk (oneRowDb ++ [r], [r])
    /\ msg_id r = 1%Z /\ msg_chatId r = 9%Z.
Proof. eexists. split; [reflexivity|]. split; reflexivity. Qed.

(** The earlier copy of [createMessage] has no conflict clause: the same
    call raises the unique violation. *)
Lemma Legacy_createMessage_duplicate_raises (defaultType : string) :
  Legacy.createMessage true sameId defaultType
    (mkNewMessage 1 9 None (Some (js "again")) None 0
       None None None None None None)
    oneRowDb
  = DbErr UniqueViolation.
Proof. reflexivity. Qed.

(** The earlier copy of [findSimilarMessages] orders by ascending distance
    and has no WHERE clause: the row without embedding is returned too. *)
Lemma Legacy_findSimilarMessages_keeps_null :
  map msg_id (Legacy.findSimilarMessages firstComponent [1%Q] None searchDb)
  = [2%Z; 1%Z; 3%Z].
Proof. vm_compute. reflexivity. Qed.

(** ** Claims about chats and folders *)

Lemma setClause_lookup (cols : list string) (data : Row) (c : string) :
  setClause cols data !! c = if decide (c ∈ cols) then data !! c else None.
Proof.
  unfold setClause. rewrite map_lookup_filter.
  destruct (data !! c) as [v|]; simpl.
  - case_guard; reflexivity.
  - destruct (decide (c ∈ cols)); reflexivity.
Qed.


Lemma setClause_supplied (cols : list string) (data : Row) :
  suppliesOneOf cols data -> setClause cols data <> ∅.
Proof.
  intros (c & v & Hc & Hv) Habs.
  apply (f_equal (fun m => m !! c)) in Habs.
  rewrite setClause_lookup, lookup_empty in Habs.
  case_decide; [congruence | contradiction].
Qed.


Lemma chatData_supplies : suppliesOneOf chatSetColumns chatData.
Proof.
  exists "name"%string, (VStr "new"). split; [|reflexivity].
  apply (bool_decide_unpack _). vm_compute. exact I.
Qed.

Lemma setClause_chatData : setClause chatSetColumns chatData <> ∅.
Proof. apply setClause_supplied, chatData_supplies. Qed.






(** ** Claims about falsy filter values *)

Lemma loopBody_scope_zero (E : Env) (bs count : nat) (st : LoopState) :
  loopBody E (Some 0%Z) bs count st = loopBody E None bs count st.
Proof. reflexivity. Qed.

Lemma whileLoop_scope_zero (fuel : nat) (E : Env) (bs count : nat)
    (st : LoopState) :
  whileLoop fuel E (Some 0%Z) bs count st = whileLoop fuel E None bs count st.
Proof.
  revert st. induction fuel as [|fuel IH]; intros st; simpl; [reflexivity|].
  rewrite loopBody_scope_zero.
  destruct (processed st <? count); [|reflexivity].
  destruct (loopBody E None bs count st); auto.
Qed.

Lemma embed_scope_zero (E : Env) (cli : CliOpts) (o1 o2 : EmbedOptions)
    (db : Store) :
  effectiveBatchSize (resolveOptions cli o1)
  = effectiveBatchSize (resolveOptions cli o2) ->
  chatId (resolveOptions cli o1) = Some 0%Z ->
  chatId (resolveOptions cli o2) = None ->
  embed E cli o1 db = embed E cli o2 db.
Proof.
  intros Hbs H1 H2. unfold embed. rewrite Hbs, H1, H2.
  change (countEligible (Some 0%Z) db) with (countEligible None db).
  rewrite whileLoop_scope_zero. reflexivity.
Qed.

(** C10: a chat id of 0 in the options of [findSimilarMessages] or of the
    backfill (given by the caller or on the command line) adds no condition
    on the chat: the query and the whole run are the ones of an absent chat
    id, and rows of other chats than 0 are selected. The same holds for the
    only other falsy filter value of the search, an empty type. *)
Theorem falsy_chatId_is_absent (distance : Vec -> Vec -> Q) (query : Vec)
    (o : SearchOptions) (db : Store) (E : Env) (cli : CliOpts)
    (bsz : option nat) (cbs : nat) (m : Message) :
  findSimilarMessages distance query (withChatId (Some 0%Z) o) db
  = findSimilarMessages distance query (withChatId None o) db
  /\ findSimilarMessages distance query (withType (Some ""%string) o) db
     = findSimilarMessages distance query (withType None o) db
  /\ searchWhere (withChatId (Some 0%Z) o) m = searchWhere (withChatId None o) m
  /\ eligible (Some 0%Z) m = eligible None m
  /\ fetchBatch (Some 0%Z) cbs db = fetchBatch None cbs db
  /\ embed E cli (mkEmbedOptions bsz (Some 0%Z)) db
     = embed E cli (mkEmbedOptions bsz None) db
  /\ embed E (mkCliOpts cbs (Some 0%Z)) (mkEmbedOptions None None) db
     = embed E (mkCliOpts cbs None) (mkEmbedOptions None None) db
  /\ map sr_chatId
       (findSimilarMessages firstComponent [1%Q]
          (withChatId (Some 0%Z) noOptions) searchDb)
     = [7%Z; 5%Z].
Proof.
  repeat split; try reflexivity.
  - destruct bsz as [[|n]|]; try reflexivity.
    apply embed_scope_zero; reflexivity.
  - unfold embed. simpl.
    change (countEligible (Some 0%Z) db) with (countEligible None db).
    rewrite whileLoop_scope_zero. reflexivity.
Qed.

(** ** What a run of the backfill does to the table *)

Lemma runUpdates_length (E : Env) (it idx : nat) (us : list (Z * Vec))
    (db : Store) :
  length (fst (runUpdates E it idx us db)) = length db.
Proof.
  revert idx db. induction us as [|[id v] us IH]; intros idx db; simpl.
  - reflexivity.
  - destruct (update_ok E it idx); simpl.
    + rewrite IH. unfold updateEmbedding. apply length_map.
    + apply IH.
Qed.

Lemma runUpdates_embedding (E : Env) (it idx : nat) (us : list (Z * Vec))
    (db : Store) (i : nat) (m m' : Message) :
  db !! i = Some m ->
  fst (runUpdates E it idx us db) !! i = Some m' ->
  msg_embedding m <> None -> msg_embedding m' <> None.
Proof.
  revert idx db m. induction us as [|[id v] us IH]; intros idx db m Hm; simpl.
  - intros Hm'. congruence.
  - destruct (update_ok E it idx); simpl.
    + intros Hm' Hne.
      eapply (IH (S idx) (updateEmbedding id v db)
                 (if (msg_id m =? id)%Z then set_embedding v m else m));
        [rewrite updateEmbedding_lookup, Hm; reflexivity | exact Hm' |].
      destruct (msg_id m =? id)%Z; [discriminate | exact Hne].
    + apply IH. exact Hm.
Qed.

Lemma filter_map_comm {A B} (f : B -> bool) (g : A -> B) (l : list A) :
  List.filter f (map g l) = map g (List.filter (fun x => f (g x)) l).
Proof.
  induction l as [|a l IH]; simpl; [reflexivity|].
  destruct (f (g a)); simpl; rewrite IH; reflexivity.
Qed.

Lemma filter_sublist {A} (f : A -> bool) (l : list A) :
  List.filter f l `sublist_of` l.
Proof.
  induction l as [|a l IH]; simpl; [constructor|].
  destruct (f a); [apply sublist_skip | apply sublist_cons]; exact IH.
Qed.

(** The ids an iteration can write are ids of rows it fetched. *)
Lemma batch_ids_eligible (scope : option Z) (bs : nat) (db : Store) (x : Z) :
  In x (map b_id (fetchBatch scope bs db)) ->
  In x (map msg_id (eligibleRows scope db)).
Proof.
  rewrite fetchBatch_ids. intros Hx.
  apply in_map_iff in Hx as (m & <- & Hm). apply in_map.
  apply list_elem_of_In. apply list_elem_of_In in Hm.
  eapply elem_of_sublist; [exact Hm | apply sublist_take].
Qed.

(** One iteration keeps every row in place, changes at most embeddings,
    clears none, and touches only rows whose id is the id of a row of the
    batch. *)
Lemma loopBody_rows (E : Env) (scope : option Z) (bs count : nat)
    (st st' : LoopState) :
  loopBody E scope bs count st = Continue st' ->
  length (st_db st') = length (st_db st)
  /\ forall i m, st_db st !! i = Some m ->
       exists m', st_db st' !! i = Some m'
                  /\ sameButEmbedding m m'
                  /\ (msg_embedding m <> None -> msg_embedding m' <> None)
                  /\ (~ In (msg_id m)
                          (map b_id (fetchBatch scope bs (st_db st))) ->
                      m' = m).
Proof.
  intros Hb. apply loopBody_Continue in Hb as (_ & _ & _ & o & _ & Ho).
  assert (Hsame : st_db st' = st_db st ->
    length (st_db st') = length (st_db st)
    /\ forall i m, st_db st !! i = Some m ->
         exists m', st_db st' !! i = Some m'
                    /\ sameButEmbedding m m'
                    /\ (msg_embedding m <> None -> msg_embedding m' <> None)
                    /\ (~ In (msg_id m)
                            (map b_id (fetchBatch scope bs (st_db st))) ->
                        m' = m)).
  { intros ->. split; [reflexivity|]. intros i m Hm. exists m.
    split; [exact Hm|]. split; [apply sameButEmbedding_refl|]. auto. }
  assert (Hrun : forall us ok,
    map fst us = map b_id (List.filter validContent
                             (fetchBatch scope bs (st_db st))) ->
    runUpdates E (length (st_trace st)) 0 us (st_db st) = (st_db st', ok) ->
    length (st_db st') = length (st_db st)
    /\ forall i m, st_db st !! i = Some m ->
         exists m', st_db st' !! i = Some m'
                    /\ sameButEmbedding m m'
                    /\ (msg_embedding m <> None -> msg_embedding m' <> None)
                    /\ (~ In (msg_id m)
                            (map b_id (fetchBatch scope bs (st_db st))) ->
                        m' = m)).
  { intros us ok Hids Hr. split.
    - rewrite <- (runUpdates_length E (length (st_trace st)) 0 us (st_db st)),
        Hr. reflexivity.
    - intros i m Hm.
      destruct (runUpdates_rows E (length (st_trace st)) 0 us (st_db st) i m Hm)
        as (m' & Hm' & Hs & Hnot & _).
      exists m'. split; [rewrite Hr in Hm'; exact Hm'|].
      split; [exact Hs|]. split.
      + eapply runUpdates_embedding; eauto.
      + intros Hni. apply Hnot. rewrite Hids. intros Hin. apply Hni.
        apply valid_ids_incl. exact Hin. }
  destruct o as [| |t us|t|t|t us]; simpl in Ho; try (exfalso; exact Ho).
  - apply Hsame. tauto.
  - destruct Ho as (_ & _ & (embs & _ & Hus) & Hr & _).
    eapply Hrun; [eapply buildUpdates_ids; exact Hus | exact Hr].
  - apply Hsame. tauto.
  - apply Hsame. tauto.
  - destruct Ho as (_ & _ & (embs & _ & Hus) & Hr & _).
    eapply Hrun; [eapply buildUpdates_ids; exact Hus | exact Hr].
Qed.


Lemma filter_disjoint_length {A} (p q : A -> bool) (l : list A) :
  (forall x, In x l -> p x = true -> q x = false) ->
  length (List.filter q l) + length (List.filter p l) <= length l.
Proof.
  induction l as [|a l IH]; simpl; intros H; [lia|].
  specialize (IH (fun x Hx => H x (or_intror Hx))).
  pose proof (H a (or_introl eq_refl)) as Ha.
  destruct (p a); [rewrite Ha by reflexivity|]; simpl; [lia|].
  destruct (q a); simpl; lia.
Qed.

(** An iteration that completed took at least its valid rows out of the
    eligible set. *)
Lemma loopBody_progress (E : Env) (scope : option Z) (bs count : nat)
    (st st' : LoopState) (t : list jsstring) (us : list (Z * Vec)) :
  loopBody E scope bs count st = Continue st' ->
  head (st_trace st') = Some
    (mkIter (fetchBatch scope bs (st_db st)) (Embedded t us)) ->
  length (eligibleRows scope (st_db st')) + length us
  <= length (eligibleRows scope (st_db st)).
Proof.
  intros Hb Hhead.
  destruct (loopBody_eligible _ _ _ _ _ _ Hb) as (W & _ & Hel & HW).
  specialize (HW t us Hhead).
  apply loopBody_Continue in Hb as (_ & _ & _ & o & Ht & Ho).
  rewrite Ht in Hhead. injection Hhead as ->.
  destruct Ho as (_ & _ & (embs & _ & Hus) & _).
  apply buildUpdates_length in Hus. rewrite Hus, Hel. clear Hus Hel.
  set (el := eligibleRows scope (st_db st)) in *.
  set (brow := fun m => mkBatchRow (msg_id m) (msg_content m)).
  assert (Hvb : List.filter validContent (fetchBatch scope bs (st_db st))
                = map brow (List.filter (fun m => validContent (brow m))
                                        (take bs el))).
  { unfold fetchBatch. fold el. apply filter_map_comm. }
  rewrite Hvb in *. rewrite length_map.
  rewrite <- (take_drop bs el) at 1 3.
  rewrite List.filter_app, !length_app.
  pose proof (List.filter_length_le (fun m => negb (written W m)) (drop bs el)).
  pose proof (filter_disjoint_length (fun m => validContent (brow m))
                (fun m => negb (written W m)) (take bs el)) as Hd.
  assert (forall x, In x (take bs el) -> validContent (brow x) = true ->
                    negb (written W x) = false).
  { intros x Hx Hv. apply negb_false_iff, written_true. rewrite HW.
    rewrite map_map. apply in_map_iff. exists x. split; [reflexivity|].
    apply filter_In. auto. }
  specialize (Hd ltac:(assumption)). lia.
Qed.

(** What holds of the table in every state of the loop: the rows are
    those of the start, in place, with at most embeddings changed and none
    cleared; rows whose id is not the id of a row that was eligible at the
    start are untouched; no row became eligible; and every row counted as
    succeeded has left the eligible set. *)
Lemma table_reachable (E : Env) (scope : option Z) (bs count : nat)
    (db : Store) (st : LoopState) :
  Reachable E scope bs count (initState db count) st ->
  sameRowsButEmbeddings db (st_db st)
  /\ (forall i m m', db !! i = Some m -> st_db st !! i = Some m' ->
        ~ In (msg_id m) (map msg_id (eligibleRows scope db)) -> m' = m)
  /\ eligibleRows scope (st_db st) `sublist_of` eligibleRows scope db
  /\ length (eligibleRows scope (st_db st)) + succeeded st
     <= length (eligibleRows scope db).
Proof.
  induction 1 as [|st st' _ IH _ Hb|st st' _ IH _ Hb].
  - simpl. split; [|split; [|split]].
    + split; [reflexivity|]. intros i m Hm. exists m.
      split; [exact Hm|]. split; [apply sameButEmbedding_refl | auto].
    + intros i m m' Hm Hm' _. congruence.
    + reflexivity.
    + unfold succeeded. simpl. lia.
  - destruct IH as ((Hlen & Hrows) & Hframe & Hsub & Hprog).
    destruct (loopBody_rows _ _ _ _ _ _ Hb) as (Hlen' & Hstep).
    destruct (loopBody_eligible _ _ _ _ _ _ Hb) as (W & _ & Hel & _).
    split; [|split; [|split]].
    + split; [congruence|]. intros i m Hm.
      destruct (Hrows i m Hm) as (m1 & Hm1 & Hs1 & He1).
      destruct (Hstep i m1 Hm1) as (m2 & Hm2 & Hs2 & He2 & _).
      exists m2. split; [exact Hm2|].
      split; [eapply sameButEmbedding_trans; eauto | auto].
    + intros i m m' Hm Hm' Hni.
      destruct (Hrows i m Hm) as (m1 & Hm1 & Hs1 & _).
      destruct (Hstep i m1 Hm1) as (m2 & Hm2 & _ & _ & Hun).
      assert (m1 = m) as -> by (eapply Hframe; eauto).
      rewrite Hm' in Hm2. injection Hm2 as <-. apply Hun.
      intros Hin. apply Hni. apply batch_ids_eligible in Hin.
      apply in_map_iff in Hin as (x & <- & Hx). apply in_map.
      apply list_elem_of_In. apply list_elem_of_In in Hx.
      eapply elem_of_sublist; eauto.
    + rewrite Hel. etrans; [apply filter_sublist | exact Hsub].
    + pose proof (sublist_length _ _ (filter_sublist
                    (fun m => negb (written W m))
                    (eligibleRows scope (st_db st)))) as Hle.
      rewrite <- Hel in Hle.
      pose proof (loopBody_Continue _ _ _ _ _ _ Hb) as (_ & _ & _ & o & Ht & _).
      rewrite (succeeded_cons _ _ _ Ht). unfold succeededIn. simpl.
      destruct o as [| |t us|t|t|t us]; simpl; try lia.
      pose proof (loopBody_progress _ _ _ _ _ _ t us Hb) as Hp.
      rewrite Ht in Hp. specialize (Hp eq_refl). lia.
  - apply loopBody_Break in Hb as (_ & Hdb & _ & _ & Ht).
    rewrite Hdb. rewrite (succeeded_cons _ _ _ Ht). exact IH.
Qed.

(** The state a run ends in, when it went through the loop. *)
Lemma embed_end_reachable (E : Env) (cli : CliOpts) (options : EmbedOptions)
    (db : Store) (o : Outcome) (st : LoopState) :
  embed E cli options db = Some o ->
  o = Completed st \/ o = Exit1 (Some st) ->
  exists s,
    Reachable E (chatId (resolveOptions cli options))
      (effectiveBatchSize (resolveOptions cli options))
      (countEligible (chatId (resolveOptions cli options)) db)
      (initState db (countEligible (chatId (resolveOptions cli options)) db))
      s
    /\ st_db st = st_db s /\ processed st = processed s
    /\ failed st = failed s /\ st_trace st = st_trace s
    /\ (o = Completed st ->
        countEligible (chatId (resolveOptions cli options)) db
        <= processed s \/ endedByBreak s).
Proof.
  intros Ho [->| ->].
  - apply embed_Completed in Ho as (s & -> & _ & _ & Hr & Hend).
    exists s. simpl. auto 10.
  - apply embed_Exit1 in Ho as Hr. exists st.
    repeat split; [exact Hr | discriminate].
Qed.

(** X1: whatever fails, a run of the backfill neither adds, removes nor
    moves a row: the table it leaves has the rows it found, each with at
    most its embedding changed and no embedding cleared, and a row whose id
    is not the id of a row eligible at the start is left exactly as it
    was. *)
Theorem embed_changes_only_embeddings (E : Env) (cli : CliOpts)
    (options : EmbedOptions) (db : Store) :
  exists o,
    embed E cli options db = Some o
    /\ forall st, o = Completed st \/ o = Exit1 (Some st) ->
         sameRowsButEmbeddings db (st_db st)
         /\ forall i m m',
              db !! i = Some m -> st_db st !! i = Some m' ->
              ~ In (msg_id m)
                   (map msg_id
                        (eligibleRows (chatId (resolveOptions cli options))
                                      db)) ->
              m' = m.
Proof.
  destruct (embed_total E cli options db) as [o Ho]. exists o.
  split; [exact Ho|]. intros st Hst.
  destruct (embed_end_reachable _ _ _ _ _ _ Ho Hst)
    as (s & Hr & -> & _).
  destruct (table_reachable _ _ _ _ _ _ Hr) as (H1 & H2 & _).
  split; [exact H1 | exact H2].
Qed.

(** X2: a run never makes a row eligible: the rows without embedding that
    it leaves in the scope are some of those it found, in the same order,
    and every row it counted as written has left them, so that
    [remaining + succeeded <= total]. *)
Theorem embed_eligible_only_shrinks (E : Env) (cli : CliOpts)
    (options : EmbedOptions) (db : Store) :
  let scope := chatId (resolveOptions cli options) in
  exists o,
    embed E cli options db = Some o
    /\ forall st, o = Completed st \/ o = Exit1 (Some st) ->
         eligibleRows scope (st_db st) `sublist_of` eligibleRows scope db
         /\ countEligible scope (st_db st) + succeeded st
            <= countEligible scope db.
Proof.
  intros scope.
  destruct (embed_total E cli options db) as [o Ho]. exists o.
  split; [exact Ho|]. intros st Hst.
  destruct (embed_end_reachable _ _ _ _ _ _ Ho Hst)
    as (s & Hr & Hdb & _ & _ & Htr & _).
  destruct (table_reachable _ _ _ _ _ _ Hr) as (_ & _ & H3 & H4).
  unfold countEligible, succeeded. rewrite Hdb, Htr.
  split; [exact H3 | exact H4].
Qed.

Lemma bounds_reachable (E : Env) (scope : option Z) (bs count : nat)
    (db : Store) (st : LoopState) :
  0 < bs ->
  Reachable E scope bs count (initState db count) st ->
  processed st < count + bs
  /\ (endedByBreak st -> eligibleRows scope (st_db st) = []).
Proof.
  intros Hbs. induction 1 as [|st st' _ IH Hlt Hb|st st' _ IH Hlt Hb].
  - simpl. split; [lia|]. intros (tr & Htr). discriminate.
  - apply loopBody_Continue in Hb as (_ & Hne & Hp & o & Ht & _).
    rewrite fetchBatch_length in Hp. split; [lia|].
    intros (tr & Htr). rewrite Ht in Htr. injection Htr as Hnil _ _.
    contradiction.
  - apply loopBody_Break in Hb as (Hnil & Hdb & Hp & _).
    rewrite Hdb, Hp. split; [lia|]. intros _.
    apply (f_equal length) in Hnil. rewrite fetchBatch_length in Hnil.
    destruct (eligibleRows scope (st_db st)); [reflexivity|].
    simpl in Hnil. lia.
Qed.

(** X3: a completed run has counted at least as many rows as it found
    eligible, unless it stopped because no eligible row was left, and it
    overshoots the total by less than one batch; the rows it reports as
    failed or skipped are never more than the rows it processed. *)
Theorem embed_processed_bounds (E : Env) (cli : CliOpts)
    (options : EmbedOptions) (db : Store) :
  let scope := chatId (resolveOptions cli options) in
  let bs := effectiveBatchSize (resolveOptions cli options) in
  exists o,
    embed E cli options db = Some o
    /\ forall st, o = Completed st ->
         failed st <= processed st
         /\ processed st < countEligible scope db + bs
         /\ (countEligible scope db <= processed st
             \/ countEligible scope (st_db st) = 0).
Proof.
  intros scope bs.
  destruct (embed_total E cli options db) as [o Ho]. exists o.
  split; [exact Ho|]. intros st ->.
  destruct (embed_end_reachable _ _ _ _ _ _ Ho (or_introl eq_refl))
    as (s & Hr & Hdb & Hp & Hf & _ & Hend).
  destruct (counters_reachable _ _ _ _ _ _ Hr) as (Hc & _).
  destruct (bounds_reachable _ _ _ _ _ _ (effectiveBatchSize_pos _) Hr)
    as (Hlt & Hbreak).
  rewrite Hp, Hf, Hdb.
  split; [lia|]. split; [exact Hlt|].
  destruct (Hend eq_refl) as [Hge|Hb]; [left; exact Hge | right].
  unfold countEligible. fold (eligibleRows scope (st_db s)).
  unfold scope. rewrite (Hbreak Hb). reflexivity.
Qed.

(** An iteration that sent no update left the table as it was and counted
    its whole batch as failed or skipped. *)
Lemma loopBody_idle (E : Env) (scope : option Z) (bs count : nat)
    (st st' : LoopState) (o : IterOutcome) :
  loopBody E scope bs count st = Continue st' ->
  head (st_trace st') = Some (mkIter (fetchBatch scope bs (st_db st)) o) ->
  issuedIn (mkIter (fetchBatch scope bs (st_db st)) o) = 0 ->
  st_db st' = st_db st
  /\ failed st' = failed st + length (fetchBatch scope bs (st_db st)).
Proof.
  intros Hb Hhead Hi.
  apply loopBody_Continue in Hb as (_ & Hne & _ & o' & Ht & Ho).
  rewrite Ht in Hhead. injection Hhead as ->.
  assert (Hvalid : forall us embs,
            List.filter validContent (fetchBatch scope bs (st_db st)) <> [] ->
            buildUpdates 0 (List.filter validContent
                              (fetchBatch scope bs (st_db st))) embs
            = Some us ->
            length us <> 0).
  { intros us embs Hv Hus. apply buildUpdates_length in Hus. rewrite Hus.
    destruct (List.filter validContent _); [contradiction | discriminate]. }
  destruct o as [| |t us|t|t|t us]; simpl in Ho; try (exfalso; exact Ho).
  - tauto.
  - destruct Ho as (_ & Hv & (embs & _ & Hus) & _).
    exfalso. eapply Hvalid; eauto.
  - tauto.
  - tauto.
  - destruct Ho as (_ & Hv & (embs & _ & Hus) & _).
    exfalso. eapply Hvalid; eauto.
Qed.

(** When every iteration on the table [db] is idle (sends no update), the
    loop fetches the same batch again and again and the table stays [db]. *)
Lemma idle_reachable (E : Env) (scope : option Z) (bs count : nat)
    (db : Store) (P : Iter -> Prop) (st : LoopState) :
  fetchBatch scope bs db <> [] ->
  (forall s s', st_db s = db -> loopBody E scope bs count s = Continue s' ->
     exists o, head (st_trace s') = Some (mkIter (fetchBatch scope bs db) o)
               /\ issuedIn (mkIter (fetchBatch scope bs db) o) = 0
               /\ P (mkIter (fetchBatch scope bs db) o)) ->
  Reachable E scope bs count (initState db count) st ->
  st_db st = db /\ failed st = processed st
  /\ Forall (fun i => issuedIn i = 0 /\ P i) (st_trace st)
  /\ ~ endedByBreak st.
Proof.
  intros Hne Hidle.
  induction 1 as [|st st' _ IH Hlt Hb|st st' _ IH Hlt Hb].
  - simpl. repeat split; [constructor|]. intros (tr & Htr). discriminate.
  - destruct IH as (Hdb & Hfp & Hall & _).
    destruct (Hidle st st' Hdb Hb) as (o & Hhead & Hi & HP).
    rewrite <- Hdb in Hhead, Hi.
    destruct (loopBody_idle _ _ _ _ _ _ o Hb Hhead Hi) as (Hdb' & Hf).
    apply loopBody_Continue in Hb as (_ & _ & Hp & o' & Ht & _).
    rewrite Ht in Hhead. injection Hhead as ->.
    split; [congruence|]. split; [lia|]. rewrite Ht. split.
    + constructor; [|exact Hall]. rewrite Hdb in *. auto.
    + intros (tr & Htr). rewrite Ht in Htr. injection Htr as Hnil _ _.
      rewrite Hdb in Hnil. contradiction.
  - exfalso. destruct IH as (Hdb & _).
    apply loopBody_Break in Hb as (Hnil & _). rewrite Hdb in Hnil.
    contradiction.
Qed.

(** A run whose queries all succeed ends by [Completed] or returns at
    once. *)
Lemma embed_no_exit (E : Env) (cli : CliOpts) (options : EmbedOptions)
    (db : Store) :
  count_ok E = true -> (forall it, fetch_ok E it = true) ->
  embed E cli options db = Some NothingToDo
  \/ exists st, embed E cli options db = Some (Completed st).
Proof.
  intros Hc Hf. destruct (embed_total E cli options db) as [[|st|st] Ho];
    [left; exact Ho | right; eauto |].
  exfalso. unfold embed in Ho. rewrite Hc in Ho. simpl in Ho.
  destruct (countEligible _ db =? 0); [discriminate|].
  destruct (whileLoop _ E _ _ _ _) as [[s|s]|] eqn:Hw; try discriminate.
  eapply whileLoop_Thrown in Hw as (_ & Habs); [|apply reach_init].
  rewrite Hf in Habs. discriminate.
Qed.

Lemma all_blank_no_valid (l : list BatchRow) :
  Forall (fun r => blank r = true) l -> List.filter validContent l = [].
Proof.
  rewrite filter_valid_not_blank.
  induction 1 as [|r l Hr _ IH]; simpl; [reflexivity|].
  rewrite Hr. simpl. exact IH.
Qed.

(** X4: when the first batch the loop fetches holds blank rows only, the
    run fetches that batch again in every iteration: it completes without
    a provider call and without a write, leaves the table as it found it,
    and reports every processed row as failed or skipped, whatever rows
    with text lie behind the batch. *)
Theorem blank_first_batch_starves (E : Env) (cli : CliOpts)
    (options : EmbedOptions) (db : Store) :
  let scope := chatId (resolveOptions cli options) in
  let bs := effectiveBatchSize (resolveOptions cli options) in
  count_ok E = true ->
  (forall it, fetch_ok E it = true) ->
  fetchBatch scope bs db <> [] ->
  Forall (fun r => blank r = true) (fetchBatch scope bs db) ->
  exists st,
    embed E cli options db = Some (Completed st)
    /\ st_db st = db
    /\ failed st = processed st
    /\ countEligible scope db <= processed st
    /\ Forall (fun i => it_batch i = fetchBatch scope bs db
                        /\ it_outcome i = AllSkipped) (st_trace st).
Proof.
  intros scope bs Hc Hf Hne Hblank.
  destruct (embed_no_exit E cli options db Hc Hf) as [Hn|(st & Ho)].
  { exfalso. apply embed_NothingToDo in Hn as (_ & Hz). apply Hne.
    apply length_zero_iff_nil. rewrite fetchBatch_length.
    fold scope in Hz. unfold countEligible in Hz.
    fold (eligibleRows scope db) in Hz. rewrite Hz. lia. }
  exists st. split; [exact Ho|].
  destruct (embed_end_reachable _ _ _ _ _ _ Ho (or_introl eq_refl))
    as (s & Hr & -> & -> & -> & -> & Hend).
  fold scope in Hr, Hend. fold bs in Hr.
  pose proof (all_blank_no_valid _ Hblank) as Hnovalid.
  destruct (idle_reachable E scope bs (countEligible scope db) db
              (fun i => it_batch i = fetchBatch scope bs db
                        /\ it_outcome i = AllSkipped) s Hne)
    as (Hdb & Hfp & Hall & Hnb); [|exact Hr|].
  - intros s0 s1 Hdb Hb.
    apply loopBody_Continue in Hb as (_ & _ & _ & o & Ht & Ho').
    rewrite Hdb in Ht. unfold iterSpec in Ho'. rewrite Hdb in Ho'.
    rewrite Hnovalid in Ho'.
    exists o. rewrite Ht. split; [reflexivity|].
    destruct o as [| |t us|t|t|t us]; try (exfalso; exact Ho');
      try (destruct Ho' as (_ & Habs & _); contradiction).
    split; [reflexivity|]. split; reflexivity.
  - split; [exact Hdb|]. split; [exact Hfp|]. split.
    + destruct (Hend eq_refl) as [Hge|Hb]; [exact Hge | contradiction].
    + eapply Forall_impl; [exact Hall|]. intros i [_ Hi]. exact Hi.
Qed.

Lemma blank_first_batch_starves_witness :
  exists st,
    embed goodEnv noCli (withBatch 2) blankFirstDb = Some (Completed st)
    /\ st_db st = blankFirstDb
    /\ failed st = processed st
    /\ 5 <= processed st.
Proof.
  destruct (blank_first_batch_starves goodEnv noCli (withBatch 2) blankFirstDb)
    as (st & Ho & Hdb & Hfp & Hge & _).
  - reflexivity.
  - reflexivity.
  - vm_compute. discriminate.
  - vm_compute. repeat constructor.
  - exists st. auto.
Defined.

(** X5: when the provider throws on every call, a run whose queries
    succeed still completes: no update is sent, the table is left as it
    was, and every processed row is reported as failed or skipped. *)
Theorem provider_down_run (E : Env) (cli : CliOpts)
    (options : EmbedOptions) (db : Store) :
  let scope := chatId (resolveOptions cli options) in
  count_ok E = true ->
  (forall it, fetch_ok E it = true) ->
  (forall it texts, generateEmbeddings E it texts = None) ->
  countEligible scope db <> 0 ->
  exists st,
    embed E cli options db = Some (Completed st)
    /\ st_db st = db
    /\ issued st = 0
    /\ failed st = processed st
    /\ countEligible scope db <= processed st.
Proof.
  intros scope Hc Hf Hdown Hcount.
  set (bs := effectiveBatchSize (resolveOptions cli options)).
  assert (Hne : fetchBatch scope bs db <> []).
  { intros Hnil. apply (f_equal length) in Hnil.
    rewrite fetchBatch_length in Hnil. simpl in Hnil.
    pose proof (effectiveBatchSize_pos (resolveOptions cli options)).
    fold bs in H. unfold countEligible in Hcount.
    fold (eligibleRows scope db) in Hcount. lia. }
  destruct (embed_no_exit E cli options db Hc Hf) as [Hn|(st & Ho)].
  { apply embed_NothingToDo in Hn as (_ & Hz). contradiction. }
  exists st. split; [exact Ho|].
  destruct (embed_end_reachable _ _ _ _ _ _ Ho (or_introl eq_refl))
    as (s & Hr & -> & -> & -> & Htr & Hend).
  fold scope in Hr, Hend. fold bs in Hr.
  destruct (idle_reachable E scope bs (countEligible scope db) db
              (fun _ => True) s Hne)
    as (Hdb & Hfp & Hall & Hnb); [|exact Hr|].
  - intros s0 s1 Hdb Hb.
    apply loopBody_Continue in Hb as (_ & _ & _ & o & Ht & Ho').
    rewrite Hdb in Ht. exists o. rewrite Ht. split; [reflexivity|].
    split; [|exact I].
    destruct o as [| |t us|t|t|t us]; simpl in Ho'; try reflexivity.
    + destruct Ho' as (_ & _ & (embs & Habs & _) & _).
      rewrite Hdown in Habs. discriminate.
    + destruct Ho' as (_ & _ & (embs & Habs & _) & _).
      rewrite Hdown in Habs. discriminate.
  - split; [exact Hdb|]. split.
    + unfold issued. rewrite Htr. clear - Hall.
      induction Hall as [|i l [Hi _] _ IH]; simpl; [reflexivity|].
      rewrite Hi. exact IH.
    + split; [exact Hfp|].
      destruct (Hend eq_refl) as [Hge|Hb]; [exact Hge | contradiction].
Qed.

Lemma provider_down_run_witness :
  exists st,
    embed providerDownEnv noCli (withBatch 2) demoDb = Some (Completed st)
    /\ st_db st = demoDb /\ issued st = 0 /\ failed st = processed st.
Proof.
  destruct (provider_down_run providerDownEnv noCli (withBatch 2) demoDb)
    as (st & Ho & Hdb & Hi & Hfp & _).
  - reflexivity.
  - reflexivity.
  - reflexivity.
  - vm_compute. discriminate.
  - exists st. auto.
Defined.

(** ** Which options a run of the backfill uses *)

(** X6: the options come from one place only. With a truthy batch size
    from the caller the command line is not read; with none (absent or 0)
    both the batch size and the chat scope are those of the command line,
    and a chat id the caller passed is dropped. *)
Theorem embed_options_source (E : Env) (cli cli' : CliOpts) (n : nat)
    (c c' : option Z) (db : Store) :
  embed E cli (mkEmbedOptions (Some (S n)) c) db
  = embed E cli' (mkEmbedOptions (Some (S n)) c) db
  /\ embed E cli (mkEmbedOptions None c) db
     = embed E cli (mkEmbedOptions None c') db
  /\ embed E cli (mkEmbedOptions (Some 0) c) db
     = embed E cli (mkEmbedOptions None c') db
  /\ embed E cli (mkEmbedOptions None c) db
     = embed E cli (mkEmbedOptions (Some (cli_batchSize cli)) (cli_chatId cli))
             db.
Proof.
  repeat split; try reflexivity.
  unfold embed, resolveOptions. simpl.
  destruct (cli_batchSize cli) as [|k]; reflexivity.
Qed.

(** ** More on inserting messages *)

Lemma uniqueKeys_snoc (conflicts : Message -> Message -> bool)
    (tbl : list Message) (r : Message) :
  uniqueKeys conflicts tbl ->
  (forall old, In old tbl ->
     conflicts old r = false /\ conflicts r old = false) ->
  uniqueKeys conflicts (tbl ++ [r]).
Proof.
  induction tbl as [|a tbl IH]; simpl; intros Hu Hr.
  - split; constructor.
  - destruct Hu as [Ha Hu]. split.
    + apply Forall_app. split; [exact Ha|]. constructor; [|constructor].
      apply Hr. left. reflexivity.
    + apply IH; [exact Hu|]. intros old Hold. apply Hr. right. exact Hold.
Qed.

Lemma insertRows_uniqueKeys (conflicts : Message -> Message -> bool)
    (dn : bool) (rows : list Message) (tbl ret tbl' ret' : list Message) :
  (forall a b, conflicts a b = conflicts b a) ->
  uniqueKeys conflicts tbl ->
  insertRows conflicts dn rows (tbl, ret) = DbOk (tbl', ret') ->
  uniqueKeys conflicts tbl'.
Proof.
  intros Hsym. revert tbl ret.
  induction rows as [|r rows IH]; intros tbl ret Hu; simpl.
  - intros [= <- _]. exact Hu.
  - unfold insertRow. simpl.
    destruct (existsb (conflicts r) tbl) eqn:Hex.
    + destruct dn; [apply IH; exact Hu | discriminate].
    + apply IH. apply uniqueKeys_snoc; [exact Hu|].
      intros old Hold.
      assert (Hc : conflicts r old = false).
      { destruct (conflicts r old) eqn:Hc; [|reflexivity].
        assert (existsb (conflicts r) tbl = true)
          by (apply existsb_exists; eauto).
        congruence. }
      rewrite (Hsym old r). auto.
Qed.

(** X7: the inserts keep the unique key unique: on a table where no two
    rows collide, a successful [createMessage] (of one message or of many,
    with duplicates among them or not) leaves a table where no two rows
    collide, and so does the earlier [createMessage] when it does not
    raise. *)
Theorem createMessage_keeps_keys_unique
    (conflicts : Message -> Message -> bool) (tbl : Store) :
  (forall a b, conflicts a b = conflicts b a) ->
  uniqueKeys conflicts tbl ->
  (forall insert_ok data tbl' ins,
     createMessage insert_ok conflicts data tbl = DbOk (tbl', ins) ->
     uniqueKeys conflicts tbl')
  /\ (forall insert_ok defaultType data tbl' ins,
        Legacy.createMessage insert_ok conflicts defaultType data tbl
        = DbOk (tbl', ins) ->
        uniqueKeys conflicts tbl').
Proof.
  intros Hsym Hu. split.
  - intros insert_ok data tbl' ins. unfold createMessage, insertMessages.
    destruct (map toRow (messageArray data)) as [|r rows]; [discriminate|].
    destruct insert_ok; [|discriminate].
    apply insertRows_uniqueKeys; assumption.
  - intros insert_ok dt data tbl' ins.
    unfold Legacy.createMessage, insertMessages.
    destruct insert_ok; [|discriminate].
    apply insertRows_uniqueKeys; assumption.
Qed.

Lemma sameIdAndChat_sym (a b : Message) :
  sameIdAndChat a b = sameIdAndChat b a.
Proof.
  unfold sameIdAndChat.
  rewrite (Z.eqb_sym (msg_id a)), (Z.eqb_sym (msg_chatId a)). reflexivity.
Qed.

Lemma createMessage_keeps_keys_unique_witness :
  createMessage true sameIdAndChat
    (inr [mkNewMessage 1 1 None None None 0 None None None None None None;
          mkNewMessage 2 1 None None None 0 None None None None None None;
          mkNewMessage 2 1 None None None 5 None None None None None None])
    oneRowDb
  = DbOk (oneRowDb ++ [row 2 1 None None], [row 2 1 None None])
  /\ uniqueKeys sameIdAndChat (oneRowDb ++ [row 2 1 None None]).
Proof.
  split; [reflexivity|].
  assert (Hu : uniqueKeys sameIdAndChat oneRowDb)
    by (simpl; split; [constructor | exact I]).
  apply (proj1 (createMessage_keeps_keys_unique sameIdAndChat oneRowDb
                  sameIdAndChat_sym Hu)
           true
           (inr [mkNewMessage 1 1 None None None 0 None None None None None
                   None;
                 mkNewMessage 2 1 None None None 0 None None None None None
                   None;
                 mkNewMessage 2 1 None None None 5 None None None None None
                   None])
           _ [row 2 1 None None]).
  reflexivity.
Defined.

Lemma insertRows_covered (conflicts : Message -> Message -> bool)
    (rows : list Message) (tbl ret tbl' ret' : list Message) :
  (forall r, conflicts r r = true) ->
  insertRows conflicts true rows (tbl, ret) = DbOk (tbl', ret') ->
  (forall r, In r rows -> existsb (conflicts r) tbl' = true)
  /\ (forall f, existsb f tbl = true -> existsb f tbl' = true).
Proof.
  intros Hrefl. revert tbl ret.
  induction rows as [|r rows IH]; intros tbl ret; simpl.
  - intros [= <- _]. split; [intros r [] | auto].
  - unfold insertRow. simpl.
    destruct (existsb (conflicts r) tbl) eqn:Hex; intros Hins.
    + destruct (IH _ _ Hins) as (Hcov & Hmono). split; [|exact Hmono].
      intros x [<-|Hx]; [apply Hmono; exact Hex | apply Hcov; exact Hx].
    + destruct (IH _ _ Hins) as (Hcov & Hmono). split.
      * intros x [<-|Hx]; [|apply Hcov; exact Hx].
        apply Hmono. rewrite existsb_app. simpl. rewrite Hrefl.
        apply orb_true_iff. right. reflexivity.
      * intros f Hf. apply Hmono. rewrite existsb_app, Hf. reflexivity.
Qed.

Lemma insertRows_all_conflict (conflicts : Message -> Message -> bool)
    (rows : list Message) (acc : Store * list Message) :
  (forall r, In r rows -> existsb (conflicts r) (fst acc) = true) ->
  insertRows conflicts true rows acc = DbOk acc.
Proof.
  induction rows as [|r rows IH]; simpl; intros H; [reflexivity|].
  unfold insertRow. rewrite (H r (or_introl eq_refl)).
  apply IH. intros x Hx. apply H. right. exact Hx.
Qed.

(** X8: [createMessage] is idempotent: when a row collides with itself on
    the key, repeating a call that succeeded, on the table it left,
    inserts nothing, returns no row and leaves that table as it is (the
    store accepting the statement; the one error the repeat can raise is
    the store's refusal of it). *)
Theorem createMessage_idempotent (insert_ok insert_ok' : bool)
    (conflicts : Message -> Message -> bool)
    (data : NewMessage + list NewMessage) (tbl tbl' : Store)
    (ins : list Message) :
  (forall r, conflicts r r = true) ->
  createMessage insert_ok conflicts data tbl = DbOk (tbl', ins) ->
  createMessage insert_ok' conflicts data tbl'
  = if insert_ok' then DbOk (tbl', []) else DbErr InsertRejected.
Proof.
  intros Hrefl. unfold createMessage, insertMessages.
  destruct (map toRow (messageArray data)) as [|r rows] eqn:Hrows;
    [discriminate|].
  destruct insert_ok; [|discriminate].
  intros Hins. apply insertRows_covered in Hins as (Hcov & _); [|exact Hrefl].
  destruct insert_ok'; [|reflexivity].
  apply (insertRows_all_conflict conflicts (r :: rows) (tbl', [])).
  exact Hcov.
Qed.

Lemma createMessage_idempotent_witness :
  createMessage true sameId
    (inl (mkNewMessage 2 1 None (Some (js "new")) None 0
            None None None None None None))
    (oneRowDb ++ [row 2 1 (Some (js "new")) None])
  = DbOk (oneRowDb ++ [row 2 1 (Some (js "new")) None], []).
Proof.
  apply (createMessage_idempotent true true sameId _ oneRowDb _
           [row 2 1 (Some (js "new")) None]).
  - intros r. apply Z.eqb_refl.
  - reflexivity.
Defined.

Lemma orNullNum_not_zero (o : option Z) : orNullNum o <> Some 0%Z.
Proof.
  unfold orNullNum, truthy_num. destruct o as [z|]; [|discriminate].
  destruct (Z.eqb_spec z 0); simpl; [discriminate | congruence].
Qed.

Lemma toRow_normalized (msg : NewMessage) : normalizedRow (toRow msg).
Proof.
  unfold normalizedRow, toRow. simpl.
  split; [reflexivity|]. split.
  { unfold orNullStr. destruct (nm_content msg) as [[|c s]|]; discriminate. }
  split.
  { destruct (nm_type msg) as [t|]; [|discriminate].
    destruct (String.eqb_spec t ""); [discriminate | assumption]. }
  repeat split; apply orNullNum_not_zero.
Qed.

(** X9: the outcomes of [createMessage]. It raises for an empty array,
    before anything is sent, and when the store refuses the statement, and
    in no other case: a collision on the key is never an error. When it
    returns, it has kept the stored rows and appended the rows it returns,
    each of them the row of one of the messages given, without embedding,
    with NULL in place of an empty content or of a 0 in an optional number
    (a view count of 0 is stored as NULL), and with the type text in place
    of an empty type. *)
Theorem createMessage_result (insert_ok : bool)
    (conflicts : Message -> Message -> bool)
    (data : NewMessage + list NewMessage) (tbl : Store) :
  match createMessage insert_ok conflicts data tbl with
  | DbOk (tbl', ins) =>
      insert_ok = true /\ messageArray data <> []
      /\ tbl' = tbl ++ ins
      /\ Forall (fun r => normalizedRow r
                          /\ exists msg, In msg (messageArray data)
                                         /\ r = toRow msg) ins
  | DbErr e =>
      (e = NoValues /\ messageArray data = [])
      \/ (e = InsertRejected /\ insert_ok = false
          /\ messageArray data <> [])
  end.
Proof.
  unfold createMessage, insertMessages.
  destruct (map toRow (messageArray data)) as [|r rows] eqn:Hrows.
  - left. split; [reflexivity|]. destruct (messageArray data); [reflexivity|].
    discriminate.
  - assert (Hne : messageArray data <> [])
      by (intros Habs; rewrite Habs in Hrows; discriminate).
    destruct insert_ok; [|right; auto].
    destruct (insertRows_doNothing conflicts (r :: rows) tbl [])
      as (ins & Hins & Hspec).
    match goal with
    | |- match ?x with _ => _ end =>
        replace x with (DbOk (tbl ++ ins, [] ++ ins))
          by (symmetry; exact Hins)
    end.
    simpl. split; [reflexivity|]. split; [exact Hne|].
    split; [reflexivity|].
    apply Forall_forall. intros x Hx. apply list_elem_of_In in Hx.
    destruct (Hspec x Hx) as [Hin _]. rewrite <- Hrows in Hin.
    apply in_map_iff in Hin as (msg & <- & Hmsg).
    split; [apply toRow_normalized | eauto].
Qed.

(** ** Reading messages back *)

Lemma findMessageById_spec (id : Z) (db : Store) :
  match findMessageById id db with
  | Some m => In m db /\ msg_id m = id
  | None => forall m, In m db -> msg_id m <> id
  end.
Proof.
  unfold findMessageById.
  destruct (List.filter (fun m => (msg_id m =? id)%Z) db) as [|m l] eqn:Hf;
    simpl.
  - intros m Hm Hid.
    assert (Hin : In m (List.filter (fun m => (msg_id m =? id)%Z) db)).
    { apply filter_In. split; [exact Hm|]. apply Z.eqb_eq. exact Hid. }
    rewrite Hf in Hin. destruct Hin.
  - assert (Hin : In m (List.filter (fun m => (msg_id m =? id)%Z) db))
      by (rewrite Hf; left; reflexivity).
    apply filter_In in Hin as [Hin Hid]. split; [exact Hin|].
    apply Z.eqb_eq. exact Hid.
Qed.

Lemma filter_none (A : Type) (f : A -> bool) (l : list A) :
  (forall x, In x l -> f x = false) -> List.filter f l = [].
Proof.
  induction l as [|a l IH]; simpl; intros H; [reflexivity|].
  rewrite (H a (or_introl eq_refl)). apply IH. intros x Hx. apply H.
  right. exact Hx.
Qed.

(** X10: writing a message and reading it back. When rows collide only if
    they have the same id and no stored row has the id of the message,
    [createMessage] appends its row and returns it (unless the store
    refuses the statement, which is then the error of the call),
    [findMessageById] then finds that row under its id and answers for
    every other id as before, and [findMessagesByChatId] lists the chat's
    earlier rows followed by the new one. *)
Theorem createMessage_then_find (conflicts : Message -> Message -> bool)
    (msg : NewMessage) (tbl : Store) :
  (forall a b, conflicts a b = true -> msg_id a = msg_id b) ->
  (forall old, In old tbl -> msg_id old <> nm_id msg) ->
  (forall insert_ok,
     createMessage insert_ok conflicts (inl msg) tbl
     = if insert_ok then DbOk (tbl ++ [toRow msg], [toRow msg])
       else DbErr InsertRejected)
  /\ findMessageById (nm_id msg) (tbl ++ [toRow msg]) = Some (toRow msg)
  /\ (forall id, id <> nm_id msg ->
        findMessageById id (tbl ++ [toRow msg]) = findMessageById id tbl)
  /\ findMessagesByChatId (nm_chatId msg) (tbl ++ [toRow msg])
     = findMessagesByChatId (nm_chatId msg) tbl ++ [toRow msg].
Proof.
  intros Hkey Hfresh.
  assert (Hex : existsb (conflicts (toRow msg)) tbl = false).
  { destruct (existsb (conflicts (toRow msg)) tbl) eqn:Hex; [|reflexivity].
    apply existsb_exists in Hex as (old & Hold & Hc).
    apply Hkey in Hc. exfalso. apply (Hfresh old Hold). symmetry. exact Hc. }
  split.
  { intros insert_ok. unfold createMessage, insertMessages. simpl.
    destruct insert_ok; [|reflexivity].
    unfold insertRow. simpl. rewrite Hex. reflexivity. }
  split.
  { unfold findMessageById. rewrite List.filter_app.
    rewrite (filter_none _ _ tbl).
    - simpl. rewrite Z.eqb_refl. reflexivity.
    - intros x Hx. apply Z.eqb_neq. apply Hfresh. exact Hx. }
  split.
  { intros id Hid. unfold findMessageById. rewrite List.filter_app. simpl.
    destruct (Z.eqb_spec (nm_id msg) id) as [He|_]; [congruence|].
    rewrite app_nil_r. reflexivity. }
  unfold findMessagesByChatId. rewrite List.filter_app. simpl.
  rewrite Z.eqb_refl. reflexivity.
Qed.

Lemma createMessage_then_find_witness :
  createMessage true sameIdAndChat
    (inl (mkNewMessage 2 1 None (Some (js "new")) None 0
            None None None None None None))
    oneRowDb
  = DbOk (oneRowDb ++ [row 2 1 (Some (js "new")) None],
          [row 2 1 (Some (js "new")) None])
  /\ findMessageById 2 (oneRowDb ++ [row 2 1 (Some (js "new")) None])
     = Some (row 2 1 (Some (js "new")) None).
Proof.
  assert (Hkey : forall a b, sameIdAndChat a b = true -> msg_id a = msg_id b).
  { intros a b H. unfold sameIdAndChat in H.
    apply andb_true_iff in H as [H _]. apply Z.eqb_eq. exact H. }
  assert (Hfresh : forall old, In old oneRowDb -> msg_id old <> 2%Z).
  { intros old [<-|[]]. discriminate. }
  destruct (createMessage_then_find sameIdAndChat
              (mkNewMessage 2 1 None (Some (js "new")) None 0
                 None None None None None None)
              oneRowDb Hkey Hfresh) as (H1 & H2 & _).
  split; [exact (H1 true) | exact H2].
Defined.

(** ** Statistics of a chat *)

Lemma sum_list_Permutation (l k : list nat) :
  l ≡ₚ k -> sum_list l = sum_list k.
Proof.
  induction 1; simpl; lia.
Qed.

Lemma indicator_sum (t : string) (ts : list string) :
  NoDup ts -> t ∈ ts ->
  sum_list (map (fun t' => if String.eqb t t' then 1 else 0) ts) = 1.
Proof.
  induction 1 as [|a ts Ha Hnd IH]; intros Hin.
  - apply elem_of_nil in Hin. destruct Hin.
  - simpl. destruct (String.eqb_spec t a) as [->|Hne].
    + assert (Hz : sum_list
                     (map (fun t' => if String.eqb a t' then 1 else 0) ts)
                   = 0).
      { clear IH Hin Hnd. induction ts as [|b ts IH]; [reflexivity|].
        simpl. destruct (String.eqb_spec a b) as [->|_].
        - exfalso. apply Ha. left.
        - apply IH. intros Hin. apply Ha. right. exact Hin. }
      rewrite Hz. reflexivity.
    + apply elem_of_cons in Hin as [Heq|Hin]; [contradiction|].
      rewrite (IH Hin). reflexivity.
Qed.

Lemma counts_sum (rows : list Message) (ts : list string) :
  NoDup ts ->
  (forall m, In m rows -> msg_type m ∈ ts) ->
  sum_list (map (fun t => length (List.filter
                                    (fun m => String.eqb (msg_type m) t)
                                    rows)) ts)
  = length rows.
Proof.
  intros Hnd. induction rows as [|m rows IH]; intros Hall.
  - simpl. clear. induction ts as [|t ts IHts]; [reflexivity | exact IHts].
  - assert (Hsplit : forall l : list string,
      sum_list (map (fun t => length (List.filter
                                        (fun m' => String.eqb (msg_type m') t)
                                        (m :: rows))) l)
      = sum_list (map (fun t' => if String.eqb (msg_type m) t' then 1 else 0)
                      l)
        + sum_list (map (fun t => length (List.filter
                                            (fun m' => String.eqb (msg_type m')
                                                         t)
                                            rows)) l)).
    { induction l as [|t l IHl]; [reflexivity|].
      simpl in IHl |- *. rewrite IHl.
      destruct (String.eqb (msg_type m) t); simpl; lia. }
    rewrite Hsplit, IH, indicator_sum.
    + reflexivity.
    + exact Hnd.
    + apply Hall. left. reflexivity.
    + intros x Hx. apply Hall. right. exact Hx.
Qed.

Lemma countByType_keys (rows : list Message) :
  (countByType rows).*1 = remove_dups (map msg_type rows).
Proof.
  unfold countByType. rewrite <- list_fmap_compose.
  apply list_fmap_id.
Qed.

(** X11: the statistics of a chat, read from one state of the table.
    [total] is the number of rows [findMessagesByChatId] lists; [byType]
    has a key for each type that occurs among them and no other, with the
    number of the chat's rows of that type, never 0; and the numbers of
    [byType] add up to [total]. *)
Theorem getChatStats_spec (chatId : Z) (db : Store) :
  total (getChatStats chatId db) = length (findMessagesByChatId chatId db)
  /\ (forall t,
        let n := length (List.filter (fun m => String.eqb (msg_type m) t)
                           (findMessagesByChatId chatId db)) in
        byType (getChatStats chatId db) !! t
        = if (n =? 0)%nat then None else Some n)
  /\ sum_list (map_to_list (byType (getChatStats chatId db))).*2
     = total (getChatStats chatId db).
Proof.
  unfold getChatStats, findMessagesByChatId. simpl.
  set (rows := List.filter (fun m => (msg_chatId m =? chatId)%Z) db).
  assert (Hnd : NoDup (countByType rows).*1).
  { rewrite countByType_keys. apply NoDup_remove_dups. }
  split; [reflexivity|]. split.
  - intros t.
    destruct (Nat.eqb_spec
                (length (List.filter (fun m => String.eqb (msg_type m) t)
                           rows)) 0) as [Hz|Hnz].
    + apply not_elem_of_list_to_map_1. rewrite countByType_keys.
      rewrite elem_of_remove_dups. intros Hin.
      apply list_elem_of_fmap in Hin as (m & -> & Hm).
      apply list_elem_of_In in Hm.
      assert (Hin : In m (List.filter
                            (fun m' => String.eqb (msg_type m') (msg_type m))
                            rows)).
      { apply filter_In. split; [exact Hm | apply String.eqb_refl]. }
      destruct (List.filter _ rows); [destruct Hin | discriminate].
    + apply elem_of_list_to_map_1; [exact Hnd|].
      unfold countByType. apply list_elem_of_fmap.
      exists t. split; [reflexivity|].
      apply elem_of_remove_dups.
      destruct (List.filter (fun m => String.eqb (msg_type m) t) rows)
        as [|m l] eqn:Hf; [contradiction|].
      assert (Hin : In m (List.filter
                            (fun m => String.eqb (msg_type m) t) rows))
        by (rewrite Hf; left; reflexivity).
      apply filter_In in Hin as [Hin Ht].
      apply String.eqb_eq in Ht. subst t.
      apply list_elem_of_fmap. exists m. split; [reflexivity|].
      apply list_elem_of_In. exact Hin.
  - rewrite (sum_list_Permutation _ (countByType rows).*2).
    + unfold countByType. rewrite <- list_fmap_compose.
      apply (counts_sum rows (remove_dups (map msg_type rows))).
      * apply NoDup_remove_dups.
      * intros m Hm. apply elem_of_remove_dups.
        apply list_elem_of_fmap. exists m. split; [reflexivity|].
        apply list_elem_of_In. exact Hm.
    + apply fmap_Permutation. apply map_to_list_to_map. exact Hnd.
Qed.

(** ** The size of a page and its first row *)

(** X12: a page of the search has exactly as many rows as the limit
    allows among the matching rows past the offset (none for a limit of
    0). On the first page of a search that asks for one row at least, no
    matching row is more similar to the query than the first row
    returned, and the page is empty only when no row matches. *)
Theorem findSimilarMessages_page (distance : Vec -> Vec -> Q) (query : Vec)
    (o : SearchOptions) (db : Store) :
  length (findSimilarMessages distance query o db)
  = Nat.min (limitOf o)
            (length (List.filter (searchWhere o) db) - offsetOf o)
  /\ forall l,
       match head (findSimilarMessages distance query (withLimit (S l) 0 o)
                     db) with
       | Some r =>
           forall m, In m db -> searchWhere o m = true ->
             (similarityOf distance query m <= sr_similarity r)%Q
       | None => forall m, In m db -> searchWhere o m = false
       end.
Proof.
  unfold findSimilarMessages.
  split.
  - rewrite length_take, length_drop.
    rewrite (Permutation_length (merge_sort_Permutation _ _)).
    rewrite length_map. reflexivity.
  - intros l.
    change (searchWhere (withLimit (S l) 0 o)) with (searchWhere o).
    change (limitOf (withLimit (S l) 0 o)) with (S l).
    change (offsetOf (withLimit (S l) 0 o)) with 0.
    rewrite drop_0.
    pose proof (merge_sort_Permutation bySimilarityDesc
                  (map (selectSimilar distance query)
                       (List.filter (searchWhere o) db))) as Hperm.
    pose proof (StronglySorted_merge_sort bySimilarityDesc
                  (map (selectSimilar distance query)
                       (List.filter (searchWhere o) db))) as Hsorted.
    destruct (merge_sort bySimilarityDesc
                (map (selectSimilar distance query)
                     (List.filter (searchWhere o) db))) as [|r rest].
    + simpl. intros m Hm.
      destruct (searchWhere o m) eqn:Hw; [|reflexivity].
      apply Permutation_nil_l in Hperm.
      assert (Hin : In (selectSimilar distance query m)
                       (map (selectSimilar distance query)
                            (List.filter (searchWhere o) db))).
      { apply in_map. apply filter_In. split; assumption. }
      rewrite <- Hperm in Hin. destruct Hin.
    + simpl. intros m Hm Hw.
      assert (Hin : selectSimilar distance query m ∈ r :: rest).
      { rewrite Hperm. apply list_elem_of_In. apply in_map.
        apply filter_In. split; assumption. }
      apply StronglySorted_cons in Hsorted as [Hall _].
      apply elem_of_cons in Hin as [Heq|Hin].
      * rewrite <- Heq. simpl. apply Qle_refl.
      * rewrite Forall_forall in Hall. specialize (Hall _ Hin).
        unfold bySimilarityDesc in Hall. apply Qle_bool_iff in Hall.
        exact Hall.
Qed.

(** ** The earlier search *)

#[global] Instance byDistanceAsc_total distance query :
  Total (Legacy.byDistanceAsc distance query).
Proof.
  intros a b. unfold Legacy.byDistanceAsc.
  destruct (msg_embedding a) as [ea|], (msg_embedding b) as [eb|]; auto.
  rewrite !Qle_bool_iff.
  destruct (Qlt_le_dec (distance eb query) (distance ea query)) as [Hlt|Hle].
  - right. apply Qlt_le_weak, Hlt.
  - left. exact Hle.
Qed.

#[global] Instance byDistanceAsc_trans distance query :
  Transitive (Legacy.byDistanceAsc distance query).
Proof.
  intros a b c. unfold Legacy.byDistanceAsc.
  destruct (msg_embedding a) as [ea|], (msg_embedding b) as [eb|],
           (msg_embedding c) as [ec|]; auto; try contradiction.
  rewrite !Qle_bool_iff. intros Hab Hbc. eapply Qle_trans; eauto.
Qed.

(** X13: the earlier [findSimilarMessages] has no WHERE clause. It returns
    as many stored rows as the limit allows (10 by default), nearest
    first, whether they have an embedding or not; a row without embedding
    is returned only once every row that has one is returned. *)
Theorem Legacy_findSimilarMessages_spec (distance : Vec -> Vec -> Q)
    (query : Vec) (limit : option nat) (db : Store) :
  length (Legacy.findSimilarMessages distance query limit db)
  = Nat.min (default 10 limit) (length db)
  /\ StronglySorted (Legacy.byDistanceAsc distance query)
       (Legacy.findSimilarMessages distance query limit db)
  /\ (forall m, In m (Legacy.findSimilarMessages distance query limit db) ->
        In m db)
  /\ (forall m, In m (Legacy.findSimilarMessages distance query limit db) ->
        msg_embedding m = None ->
        forall m', In m' db -> msg_embedding m' <> None ->
          In m' (Legacy.findSimilarMessages distance query limit db)).
Proof.
  unfold Legacy.findSimilarMessages.
  pose proof (merge_sort_Permutation (Legacy.byDistanceAsc distance query) db)
    as Hperm.
  pose proof (StronglySorted_merge_sort (Legacy.byDistanceAsc distance query)
                db) as Hsorted.
  set (sorted := merge_sort (Legacy.byDistanceAsc distance query) db) in *.
  set (n := default 10 limit).
  split; [|split; [|split]].
  - rewrite length_take, (Permutation_length Hperm). reflexivity.
  - eapply StronglySorted_sublist; [|exact Hsorted]. apply sublist_take.
  - intros m Hm. apply list_elem_of_In. rewrite <- Hperm.
    apply list_elem_of_In in Hm.
    eapply elem_of_sublist; [exact Hm | apply sublist_take].
  - intros m Hm Hnone m' Hm' Hsome.
    apply list_elem_of_In in Hm'. rewrite <- Hperm in Hm'.
    rewrite <- (take_drop n sorted) in Hm', Hsorted.
    apply elem_of_app in Hm' as [Hin|Hin]; [apply list_elem_of_In, Hin|].
    exfalso.
    apply list_elem_of_In in Hm.
    pose proof (StronglySorted_app_1_elem_of _ _ _ m m' Hsorted Hm Hin) as HR.
    unfold Legacy.byDistanceAsc in HR. rewrite Hnone in HR.
    destruct (msg_embedding m'); [exact HR | apply Hsome; reflexivity].
Qed.

(** ** Listing chats and folders *)

#[global] Instance byLastMessageDate_total : Total byLastMessageDate.
Proof.
  intros a b. unfold byLastMessageDate.
  destruct (lastMessageDate a) as [x|], (lastMessageDate b) as [y|]; auto.
  destruct (Z.le_gt_cases x y); [left | right]; lia.
Qed.

#[global] Instance byLastMessageDate_trans : Transitive byLastMessageDate.
Proof.
  intros a b c. unfold byLastMessageDate.
  destruct (lastMessageDate a) as [x|], (lastMessageDate b) as [y|],
           (lastMessageDate c) as [z|]; auto; try contradiction.
  lia.
Qed.

Lemma tableRows_elem (t : Table) (r : Row) :
  r ∈ tableRows t <-> exists id, t !! id = Some r.
Proof.
  unfold tableRows. rewrite list_elem_of_fmap. split.
  - intros ([id r'] & -> & Hin). exists id.
    apply elem_of_map_to_list. exact Hin.
  - intros (id & Hid). exists (id, r). split; [reflexivity|].
    apply elem_of_map_to_list. exact Hid.
Qed.

Lemma tableRows_length (t : Table) : length (tableRows t) = size t.
Proof. unfold tableRows. rewrite length_fmap. apply length_map_to_list. Qed.

(** X14: the listings. [getAllChats] returns every stored chat once, and
    [getChatsInFolder] those of them whose folder is the one asked for (a
    chat without folder is in none); both are ordered by the date of the
    last message, earliest first, the chats without such a date last.
    [getAllFolders] returns every stored folder once. *)
Theorem chats_and_folders_listed (chats folders : Table) (folderId : Z) :
  StronglySorted byLastMessageDate (getAllChats chats)
  /\ length (getAllChats chats) = size chats
  /\ (forall r, r ∈ getAllChats chats <-> exists id, chats !! id = Some r)
  /\ StronglySorted byLastMessageDate (getChatsInFolder folderId chats)
  /\ (forall r, r ∈ getChatsInFolder folderId chats
                <-> r ∈ getAllChats chats
                    /\ r !! "folderId"%string = Some (VNum folderId))
  /\ length (getAllFolders folders) = size folders
  /\ (forall r, r ∈ getAllFolders folders
                <-> exists id, folders !! id = Some r).
Proof.
  unfold getAllChats, getChatsInFolder, getAllFolders.
  split; [apply StronglySorted_merge_sort; apply _|].
  split.
  { rewrite (Permutation_length (merge_sort_Permutation _ _)).
    apply tableRows_length. }
  split.
  { intros r. rewrite merge_sort_Permutation. apply tableRows_elem. }
  split; [apply StronglySorted_merge_sort; apply _|].
  split.
  { intros r. rewrite !merge_sort_Permutation.
    rewrite list_elem_of_In, filter_In, <- list_elem_of_In.
    unfold inFolder. split; intros [Hin Hf]; (split; [exact Hin|]).
    - destruct (r !! "folderId"%string) as [[|f|]|]; try discriminate.
      apply Z.eqb_eq in Hf. subst f. reflexivity.
    - rewrite Hf. apply Z.eqb_refl. }
  split; [apply tableRows_length | intros r; apply tableRows_elem].
Qed.

(** ** Upserts, again and listed *)

Lemma upsert_ok (defaults : Row) (cols : list string) (data : Row)
    (tbl : Table) (id : Z) :
  data !! "id"%string = Some (VNum id) ->
  setClause cols data <> ∅ ->
  upsert defaults cols data tbl
  = DbOk (<[id := match tbl !! id with
                  | None => data ∪ defaults
                  | Some old => setClause cols data ∪ old
                  end]> tbl,
          [match tbl !! id with
           | None => data ∪ defaults
           | Some old => setClause cols data ∪ old
           end]).
Proof.
  intros Hid Hset. unfold upsert. case_decide; [contradiction|].
  rewrite Hid. destruct (tbl !! id); reflexivity.
Qed.

Lemma setClause_union_absorb (cols : list string) (data rest : Row) :
  setClause cols data ∪ (data ∪ rest) = data ∪ rest.
Proof.
  apply map_eq. intros c. rewrite !lookup_union, setClause_lookup.
  destruct (decide (c ∈ cols)); destruct (data !! c), (rest !! c);
    reflexivity.
Qed.

Lemma union_twice (a b : Row) : a ∪ (a ∪ b) = a ∪ b.
Proof.
  apply map_eq. intros c. rewrite !lookup_union.
  destruct (a !! c), (b !! c); reflexivity.
Qed.

Lemma upsert_twice (defaults defaults' : Row) (cols : list string)
    (data : Row) (tbl : Table) (id : Z) :
  data !! "id"%string = Some (VNum id) ->
  setClause cols data <> ∅ ->
  exists tbl' r,
    upsert defaults cols data tbl = DbOk (tbl', [r])
    /\ upsert defaults' cols data tbl' = DbOk (tbl', [r]).
Proof.
  intros Hid Hset. eexists. eexists.
  split; [apply (upsert_ok _ _ _ _ id Hid Hset)|].
  rewrite (upsert_ok _ _ _ _ id Hid Hset). rewrite lookup_insert_eq.
  rewrite insert_insert_eq.
  destruct (tbl !! id) as [old|].
  - rewrite union_twice. reflexivity.
  - rewrite setClause_union_absorb. reflexivity.
Qed.

(** X15: [updateChat] and [updateFolder] are idempotent. A call whose data
    has an id and supplies a SET column returns one row, and the same call
    on the table it left returns the same row and leaves that table as it
    is, whatever the column defaults are by then. *)
Theorem updateChat_updateFolder_idempotent (defaults defaults' : Row)
    (data : Row) (tbl : Table) (id : Z) :
  data !! "id"%string = Some (VNum id) ->
  (setClause chatSetColumns data <> ∅ ->
   exists chats' r,
     updateChat defaults data tbl = DbOk (chats', [r])
     /\ updateChat defaults' data chats' = DbOk (chats', [r]))
  /\ (setClause folderSetColumns data <> ∅ ->
      exists folders' r,
        updateFolder defaults data tbl = DbOk (folders', [r])
        /\ updateFolder defaults' data folders' = DbOk (folders', [r])).
Proof.
  intros Hid. split; intros Hset; apply (upsert_twice _ _ _ _ _ id Hid Hset).
Qed.

Lemma updateChat_updateFolder_idempotent_witness :
  exists chats' r,
    updateChat chatDefaults chatData {[ 7%Z := storedChat ]}
    = DbOk (chats', [r])
    /\ updateChat ∅ chatData chats' = DbOk (chats', [r]).
Proof.
  exact (proj1 (updateChat_updateFolder_idempotent chatDefaults ∅ chatData
                  {[ 7%Z := storedChat ]} 7%Z eq_refl)
           setClause_chatData).
Defined.

Lemma upsert_listed (defaults : Row) (cols : list string) (data : Row)
    (tbl : Table) (id : Z) :
  data !! "id"%string = Some (VNum id) ->
  setClause cols data <> ∅ ->
  exists tbl' r,
    upsert defaults cols data tbl = DbOk (tbl', [r])
    /\ r ∈ tableRows tbl'
    /\ length (tableRows tbl')
       = match tbl !! id with
         | Some _ => length (tableRows tbl)
         | None => S (length (tableRows tbl))
         end
    /\ (forall x, x ∈ tableRows tbl' -> x = r \/ x ∈ tableRows tbl)
    /\ (forall x, x ∈ tableRows tbl ->
          x ∈ tableRows tbl' \/ tbl !! id = Some x).
Proof.
  intros Hid Hset. eexists. eexists.
  split; [apply (upsert_ok _ _ _ _ id Hid Hset)|].
  set (r := match tbl !! id with
            | None => data ∪ defaults
            | Some old => setClause cols data ∪ old
            end).
  split; [apply tableRows_elem; exists id; apply lookup_insert_eq|].
  split.
  { rewrite !tableRows_length, map_size_insert.
    destruct (tbl !! id); reflexivity. }
  split.
  - intros x Hx. apply tableRows_elem in Hx as (id' & Hx).
    destruct (decide (id' = id)) as [->|Hne].
    + rewrite lookup_insert_eq in Hx. left. congruence.
    + rewrite lookup_insert_ne in Hx by congruence.
      right. apply tableRows_elem. eauto.
  - intros x Hx. apply tableRows_elem in Hx as (id' & Hx).
    destruct (decide (id' = id)) as [->|Hne]; [right; exact Hx|].
    left. apply tableRows_elem. exists id'.
    rewrite lookup_insert_ne by congruence. exact Hx.
Qed.

(** X16: an upsert and the listings. After [updateChat] (of data with an
    id and a SET column) [getAllChats] lists the returned row; it lists
    one chat more than before when the id was new and as many otherwise;
    every chat it lists is the returned row or was listed before, and
    every chat listed before is still listed unless it is the one that was
    stored under the id. The same holds of [updateFolder] and
    [getAllFolders]. *)
Theorem upsert_then_list (defaults : Row) (data : Row) (tbl : Table)
    (id : Z) :
  data !! "id"%string = Some (VNum id) ->
  (setClause chatSetColumns data <> ∅ ->
   exists chats' r,
     updateChat defaults data tbl = DbOk (chats', [r])
     /\ r ∈ getAllChats chats'
     /\ length (getAllChats chats')
        = match tbl !! id with
          | Some _ => length (getAllChats tbl)
          | None => S (length (getAllChats tbl))
          end
     /\ (forall x, x ∈ getAllChats chats' -> x = r \/ x ∈ getAllChats tbl)
     /\ (forall x, x ∈ getAllChats tbl ->
           x ∈ getAllChats chats' \/ tbl !! id = Some x))
  /\ (setClause folderSetColumns data <> ∅ ->
      exists folders' r,
        updateFolder defaults data tbl = DbOk (folders', [r])
        /\ r ∈ getAllFolders folders'
        /\ length (getAllFolders folders')
           = match tbl !! id with
             | Some _ => length (getAllFolders tbl)
             | None => S (length (getAllFolders tbl))
             end
        /\ (forall x, x ∈ getAllFolders folders' ->
              x = r \/ x ∈ getAllFolders tbl)
        /\ (forall x, x ∈ getAllFolders tbl ->
              x ∈ getAllFolders folders' \/ tbl !! id = Some x)).
Proof.
  intros Hid. split; intros Hset.
  - destruct (upsert_listed defaults chatSetColumns data tbl id Hid Hset)
      as (tbl' & r & Hup & Hin & Hlen & Hnew & Hold).
    exists tbl', r. unfold getAllChats.
    split; [exact Hup|].
    split; [rewrite merge_sort_Permutation; exact Hin|].
    split.
    { rewrite !(Permutation_length (merge_sort_Permutation _ _)).
      exact Hlen. }
    split; intros x; rewrite !merge_sort_Permutation; auto.
  - destruct (upsert_listed defaults folderSetColumns data tbl id Hid Hset)
      as (tbl' & r & Hup & Hin & Hlen & Hnew & Hold).
    exists tbl', r. unfold getAllFolders. auto.
Qed.

Lemma upsert_then_list_witness :
  exists chats' r,
    updateChat chatDefaults chatData {[ 7%Z := storedChat ]}
    = DbOk (chats', [r])
    /\ r ∈ getAllChats chats'
    /\ length (getAllChats chats')
       = length (getAllChats {[ 7%Z := storedChat ]}).
Proof.
  destruct (proj1 (upsert_then_list chatDefaults chatData
                     {[ 7%Z := storedChat ]} 7%Z eq_refl)
              setClause_chatData)
    as (chats' & r & Hup & Hin & Hlen & _).
  exists chats', r. split; [exact Hup|]. split; [exact Hin|].
  rewrite lookup_singleton_eq in Hlen. exact Hlen.
Defined.

(** ** The watcher *)

Lemma createMessage_single (insert_ok : bool)
    (conflicts : Message -> Message -> bool)
    (msg : NewMessage) (tbl : Store) :
  createMessage insert_ok conflicts (inl msg) tbl
  = if insert_ok then
      if existsb (conflicts (toRow msg)) tbl then DbOk (tbl, [])
      else DbOk (tbl ++ [toRow msg], [toRow msg])
    else DbErr InsertRejected.
Proof.
  unfold createMessage, insertMessages. simpl.
  destruct insert_ok; [|reflexivity].
  unfold insertRow. simpl.
  destruct (existsb (conflicts (toRow msg)) tbl); reflexivity.
Qed.

Lemma saveFailures_app (l k : list WatchLog) :
  saveFailures (l ++ k) = saveFailures l + saveFailures k.
Proof. unfold saveFailures. rewrite List.filter_app, length_app. reflexivity. Qed.

Lemma saveFailures_saved (n : nat) (l : list WatchLog) :
  saveFailures (LogSaved n :: l) = saveFailures l.
Proof. reflexivity. Qed.

Lemma saveFailures_failed (e : DbError) (l : list WatchLog) :
  saveFailures (LogSaveFailed e :: l) = S (saveFailures l).
Proof. reflexivity. Qed.

Lemma saveFailures_media (o : option string) :
  saveFailures match o with
               | Some p => [LogMedia p]
               | None => []
               end = 0.
Proof. destruct o; reflexivity. Qed.

(** What one run of the handler does to the table, the counter and the
    log. *)
Lemma onMessage_step (insert_ok : bool)
    (conflicts : Message -> Message -> bool)
    (localPath : MediaInfo -> option string) (chatId : Z)
    (m : NewMessage) (st : WatchState) :
  exists added,
    w_db (onMessage insert_ok conflicts localPath chatId m st)
    = w_db st ++ added
    /\ Forall (fun r => r = toRow (handlerInput m)
                        /\ nm_chatId m = chatId) added
    /\ length added + w_count st
       <= w_count (onMessage insert_ok conflicts localPath chatId m st)
    /\ w_count (onMessage insert_ok conflicts localPath chatId m st)
       + saveFailures (w_log (onMessage insert_ok conflicts localPath chatId
                                m st))
       = w_count st + saveFailures (w_log st)
         + (if (nm_chatId m =? chatId)%Z then 1 else 0)
    /\ saveFailures (w_log (onMessage insert_ok conflicts localPath chatId
                              m st))
       = saveFailures (w_log st)
         + (if (nm_chatId m =? chatId)%Z && negb insert_ok then 1 else 0)
    /\ (forall e,
          In (LogSaveFailed e)
             (w_log (onMessage insert_ok conflicts localPath chatId m st)) ->
          e = InsertRejected \/ In (LogSaveFailed e) (w_log st)).
Proof.
  unfold onMessage.
  destruct (Z.eqb_spec (nm_chatId m) chatId) as [Hc|Hc]; simpl.
  - rewrite createMessage_single. destruct insert_ok; simpl.
    + destruct (existsb (conflicts (toRow (handlerInput m))) (w_db st)); simpl.
      * exists []. rewrite app_nil_r.
        split; [reflexivity|]. split; [apply List.Forall_nil|].
        rewrite saveFailures_app, saveFailures_media, saveFailures_saved.
        simpl.
        split; [lia|]. split; [lia|]. split; [lia|].
        intros e He. right. apply in_app_or in He as [He|He].
        -- destruct (nm_mediaInfo m ≫= localPath); simpl in He;
             [destruct He as [He|[]]; discriminate | destruct He].
        -- destruct He as [He|He]; [discriminate | exact He].
      * exists [toRow (handlerInput m)].
        split; [reflexivity|].
        split; [apply List.Forall_cons; [auto | apply List.Forall_nil]|].
        rewrite saveFailures_app, saveFailures_media, saveFailures_saved.
        simpl.
        split; [lia|]. split; [lia|]. split; [lia|].
        intros e He. right. apply in_app_or in He as [He|He].
        -- destruct (nm_mediaInfo m ≫= localPath); simpl in He;
             [destruct He as [He|[]]; discriminate | destruct He].
        -- destruct He as [He|He]; [discriminate | exact He].
    + exists []. rewrite app_nil_r.
      split; [reflexivity|]. split; [apply List.Forall_nil|].
      rewrite saveFailures_failed. simpl.
      split; [lia|]. split; [lia|]. split; [lia|].
      intros e [He|He]; [left; congruence | right; exact He].
  - exists []. rewrite app_nil_r.
    split; [reflexivity|]. split; [apply List.Forall_nil|].
    split; [simpl; lia|]. split; [lia|]. split; [lia|]. auto.
Qed.

Lemma handleAll_spec (insert_ok : nat -> bool)
    (conflicts : Message -> Message -> bool)
    (localPath : MediaInfo -> option string) (chatId : Z)
    (incoming : list NewMessage) (n : nat) (st : WatchState) :
  exists added,
    w_db (handleAll insert_ok conflicts localPath chatId n incoming st)
    = w_db st ++ added
    /\ Forall (fun r => exists m, In m incoming
                                  /\ r = toRow (handlerInput m)
                                  /\ nm_chatId m = chatId) added
    /\ length added + w_count st
       <= w_count (handleAll insert_ok conflicts localPath chatId n incoming
                     st)
    /\ w_count (handleAll insert_ok conflicts localPath chatId n incoming st)
       + saveFailures (w_log (handleAll insert_ok conflicts localPath chatId
                                n incoming st))
       = w_count st + saveFailures (w_log st)
         + length (List.filter (fun m => (nm_chatId m =? chatId)%Z) incoming)
    /\ ((forall k, insert_ok k = true) ->
        saveFailures (w_log (handleAll insert_ok conflicts localPath chatId
                               n incoming st))
        = saveFailures (w_log st))
    /\ (forall e,
          In (LogSaveFailed e)
             (w_log (handleAll insert_ok conflicts localPath chatId n
                       incoming st)) ->
          e = InsertRejected \/ In (LogSaveFailed e) (w_log st)).
Proof.
  revert n st. induction incoming as [|m incoming IH]; intros n st; simpl.
  - exists []. rewrite app_nil_r.
    split; [reflexivity|]. split; [apply List.Forall_nil|].
    split; [simpl; lia|]. split; [lia|]. split; [reflexivity | auto].
  - destruct (onMessage_step (insert_ok n) conflicts localPath chatId m st)
      as (a1 & Hdb1 & Hall1 & Hle1 & Hc1 & Hf1 & Hlog1).
    destruct (IH (S n) (onMessage (insert_ok n) conflicts localPath chatId
                          m st))
      as (a2 & Hdb2 & Hall2 & Hle2 & Hc2 & Hf2 & Hlog2).
    exists (a1 ++ a2). rewrite Hdb2, Hdb1, app_assoc.
    split; [reflexivity|]. split.
    { apply Forall_app. split.
      - eapply Forall_impl; [exact Hall1|]. simpl.
        intros r [Hr Hchat]. exists m. auto.
      - eapply Forall_impl; [exact Hall2|]. simpl.
        intros r (m' & Hin & Hr & Hchat). exists m'. auto. }
    split.
    { rewrite length_app. lia. }
    split.
    { rewrite Hc2, Hc1.
      destruct (nm_chatId m =? chatId)%Z; simpl; lia. }
    split.
    { intros Hok. rewrite (Hf2 Hok), Hf1, (Hok n), andb_false_r. lia. }
    intros e He. destruct (Hlog2 e He) as [Hr|Hin]; [left; exact Hr|].
    apply Hlog1. exact Hin.
Qed.

(** X17: what the watcher stores and counts. It keeps the stored rows and
    appends rows of the watched chat only, each one the row of a message
    that came in, without media information and without embedding. Each
    message of that chat that came in is either counted or reported as
    not saved, never both: the counter and the failure reports add up to
    the number of those messages, the counter is at least the number of
    rows added, and a failure is reported only for an insert the store
    refused, so none is when the store accepts every insert. When the chat
    is not among the dialogs, or has no folder, nothing is stored, counted
    or reported. *)
Theorem watchChat_stores_selected_chat (insert_ok : nat -> bool)
    (conflicts : Message -> Message -> bool)
    (localPath : MediaInfo -> option string) (dialogs folders : list Z)
    (chatId : Z) (incoming : list NewMessage) (db : Store) :
  exists added,
    w_db (watchChat insert_ok conflicts localPath dialogs folders chatId
            incoming db)
    = db ++ added
    /\ Forall (fun r => msg_chatId r = chatId
                        /\ msg_mediaInfo r = None
                        /\ msg_embedding r = None
                        /\ exists m, In m incoming
                                     /\ r = toRow (handlerInput m)) added
    /\ length added
       <= w_count (watchChat insert_ok conflicts localPath dialogs folders
                     chatId incoming db)
    /\ w_count (watchChat insert_ok conflicts localPath dialogs folders
                  chatId incoming db)
       + saveFailures (w_log (watchChat insert_ok conflicts localPath dialogs
                                folders chatId incoming db))
       = (if existsb (Z.eqb chatId) dialogs && negb (length folders =? 0)
          then length (List.filter (fun m => (nm_chatId m =? chatId)%Z)
                         incoming)
          else 0)
    /\ ((forall k, insert_ok k = true) ->
        saveFailures (w_log (watchChat insert_ok conflicts localPath dialogs
                               folders chatId incoming db)) = 0)
    /\ (forall e,
          In (LogSaveFailed e)
             (w_log (watchChat insert_ok conflicts localPath dialogs folders
                       chatId incoming db)) ->
          e = InsertRejected)
    /\ (existsb (Z.eqb chatId) dialogs && negb (length folders =? 0) = false
        -> added = []).
Proof.
  unfold watchChat.
  destruct (existsb (Z.eqb chatId) dialogs); simpl.
  - destruct folders as [|f folders]; simpl.
    + exists []. rewrite app_nil_r.
      split; [reflexivity|]. split; [apply List.Forall_nil|]. simpl.
      split; [lia|]. split; [reflexivity|]. split; [reflexivity|].
      split; [|reflexivity].
      intros e [He|[]]. discriminate.
    + destruct (handleAll_spec insert_ok conflicts localPath chatId incoming
                  0 {| w_db := db; w_count := 0; w_log := [LogWatching] |})
        as (added & Hdb & Hall & Hle & Hc & Hf & Hlog).
      simpl in Hdb, Hle, Hc, Hf, Hlog. exists added.
      split; [exact Hdb|]. split.
      { eapply Forall_impl; [exact Hall|]. simpl.
        intros r (m & Hin & -> & Hchat).
        repeat split; [exact Hchat | exists m; auto]. }
      split; [lia|]. split; [exact Hc|]. split; [exact Hf|].
      split; [|discriminate].
      intros e He. destruct (Hlog e He) as [Hr|[Hw|[]]];
        [exact Hr | discriminate].
  - exists []. rewrite app_nil_r.
    split; [reflexivity|]. split; [apply List.Forall_nil|]. simpl.
    split; [lia|]. split; [reflexivity|]. split; [reflexivity|].
    split; [|reflexivity].
    intros e [He|[]]. discriminate.
Qed.

(** X18: the counter of the watcher counts deliveries, not rows. When a
    row collides with itself on the key, a message of the watched chat
    that is delivered twice, the store accepting both inserts, is counted
    twice and reported as saved twice, while the second delivery stores
    nothing. *)
Theorem onMessage_counts_redelivery
    (conflicts : Message -> Message -> bool)
    (localPath : MediaInfo -> option string) (chatId : Z)
    (m : NewMessage) (st : WatchState) :
  (forall r, conflicts r r = true) ->
  nm_chatId m = chatId ->
  w_db (onMessage true conflicts localPath chatId m
          (onMessage true conflicts localPath chatId m st))
  = w_db (onMessage true conflicts localPath chatId m st)
  /\ w_count (onMessage true conflicts localPath chatId m
                (onMessage true conflicts localPath chatId m st))
     = S (S (w_count st))
  /\ In (LogSaved (S (S (w_count st))))
        (w_log (onMessage true conflicts localPath chatId m
                  (onMessage true conflicts localPath chatId m st))).
Proof.
  intros Hrefl Hchat.
  assert (Hstored : existsb (conflicts (toRow (handlerInput m)))
                      (w_db (onMessage true conflicts localPath chatId m st))
                    = true
                    /\ w_count (onMessage true conflicts localPath chatId m
                                  st)
                       = S (w_count st)).
  { unfold onMessage. rewrite Hchat, Z.eqb_refl. simpl.
    rewrite createMessage_single.
    destruct (existsb (conflicts (toRow (handlerInput m))) (w_db st))
      eqn:Hex; simpl.
    - split; [exact Hex | reflexivity].
    - split; [|reflexivity]. rewrite existsb_app. simpl. rewrite Hrefl.
      apply orb_true_iff. right. reflexivity. }
  destruct Hstored as [Hex Hcount].
  generalize dependent (onMessage true conflicts localPath chatId m st).
  intros st1 Hex Hcount.
  unfold onMessage. rewrite Hchat, Z.eqb_refl. simpl.
  rewrite createMessage_single, Hex. simpl. rewrite Hcount.
  split; [reflexivity|]. split; [reflexivity|].
  apply in_or_app. right. left. reflexivity.
Qed.

Lemma onMessage_counts_redelivery_witness :
  w_db (onMessage true sameId (fun p => Some p) 1
          (mkNewMessage 2 1 None (Some (js "x")) None 0
             None None None None None None)
          (onMessage true sameId (fun p => Some p) 1
             (mkNewMessage 2 1 None (Some (js "x")) None 0
                None None None None None None)
             (mkWatchState oneRowDb 0 [])))
  = oneRowDb ++ [row 2 1 (Some (js "x")) None]
  /\ w_count (onMessage true sameId (fun p => Some p) 1
                (mkNewMessage 2 1 None (Some (js "x")) None 0
                   None None None None None None)
                (onMessage true sameId (fun p => Some p) 1
                   (mkNewMessage 2 1 None (Some (js "x")) None 0
                      None None None None None None)
                   (mkWatchState oneRowDb 0 [])))
     = 2.
Proof.
  destruct (onMessage_counts_redelivery sameId (fun p => Some p) 1
              (mkNewMessage 2 1 None (Some (js "x")) None 0
                 None None None None None None)
              (mkWatchState oneRowDb 0 [])
              (fun r => Z.eqb_refl (msg_id r)) eq_refl)
    as (Hdb & Hcount & _).
  split; [rewrite Hdb; reflexivity | exact Hcount].
Defined.
